(** * MNMST [utils.py]: sparse neighbour graphs, z-scores and feature fusion

    A shallow embedding of [src/utils.py] and the properties its
    specification states about it.  The arrays of the program are numpy
    arrays of IEEE-754 binary64 numbers; they are modelled as lists of
    Rocq's primitive [float]s, whose operations are the processor's, so
    that overflow, the infinities and NaN behave here as they do in the
    program.  Integer arrays ([indices], [indptr], positions) are lists of
    [Z] or [nat]. *)

From Stdlib Require Import ZArith QArith Bool List Permutation String Floats Lia.
From stdpp Require Import base option list gmap.
Import ListNotations.

Set Warnings "-inexact-float".
Local Open Scope Z_scope.

(** ** Python exceptions and results *)

Inductive exn : Type :=
  | AssertionError      (* a failed [assert] of the program itself *)
  | ValueError          (* numpy / scipy: shapes or bins that do not fit *)
  | IndexError          (* numpy: position out of bounds *)
  | TypeError           (* an object of the wrong kind for the operation *)
  | ZeroDivisionError   (* Python's own division by zero *)
  | LibraryError.       (* raised inside the neighbour-search library *)

Inductive result (A : Type) : Type :=
  | Ok (a : A)
  | Err (e : exn).
Arguments Ok {A} a.
Arguments Err {A} e.

#[export] Instance result_ret : MRet result := fun _ a => Ok a.

#[export] Instance result_bind : MBind result := fun _ _ k r =>
  match r with
  | Ok a => k a
  | Err e => Err e
  end.

(** ** Element types of arrays

    The graph functions only add, divide and compare the entries of
    [data].  [Dtype] collects those operations; [float64] is the element
    type the program runs with, [exact] is arithmetic over the rationals,
    in which the specification's "the row sums to 1" is an identity. *)

Class Dtype (A : Type) : Type := {
  dt_zero : A;
  dt_add : A -> A -> A;
  dt_div : A -> A -> A;
  dt_gtb : A -> A -> bool;        (* [x > y] *)
  dt_neqb : A -> A -> bool        (* [x != y] *)
}.

#[export] Instance float64 : Dtype float := {|
  dt_zero := 0%float;
  dt_add := PrimFloat.add;
  dt_div := PrimFloat.div;
  dt_gtb x y := PrimFloat.ltb y x;
  dt_neqb x y := negb (PrimFloat.eqb x y)
|}.

#[export] Instance exact : Dtype Q := {|
  dt_zero := 0%Q;
  dt_add := Qplus;
  dt_div := Qdiv;
  dt_gtb x y := negb (Qle_bool x y);
  dt_neqb x y := negb (Qeq_bool x y)
|}.

(** ** The numpy operations the program calls *)

(** [np.where(mask)[0]]: the positions at which [mask] holds, ascending. *)
Fixpoint np_where_from (i : nat) (mask : list bool) : list nat :=
  match mask with
  | [] => []
  | b :: rest =>
      if b then i :: np_where_from (S i) rest else np_where_from (S i) rest
  end.

Definition np_where (mask : list bool) : list nat := np_where_from 0 mask.

(** [np.delete(arr, obj)] for an array [obj] of positions: a boolean mask
    is cleared at the positions of [obj] and the entries still marked are
    returned.  A position past the end raises [IndexError]. *)
Definition marked (obj : list nat) (i : nat) : bool := existsb (Nat.eqb i) obj.

Fixpoint np_delete_from {A} (i : nat) (arr : list A) (obj : list nat) : list A :=
  match arr with
  | [] => []
  | x :: rest =>
      if marked obj i then np_delete_from (S i) rest obj
      else x :: np_delete_from (S i) rest obj
  end.

Definition np_delete {A} (arr : list A) (obj : list nat) : result (list A) :=
  if forallb (fun p => (p <? length arr)%nat) obj
  then Ok (np_delete_from 0 arr obj)
  else Err IndexError.

(** [v[:-1]] and [v[-1:]]. *)
Definition but_last {A} (v : list A) : list A := firstn (length v - 1) v.
Definition last_only {A} (v : list A) : list A := skipn (length v - 1) v.

(** [np.searchsorted(sort(a), v, side)]: how many entries of [a] are below
    [v] (side "left") or not above it (side "right"). *)
Definition searchsorted_left (a : list nat) (v : Z) : Z :=
  Z.of_nat (length (List.filter (fun p => Z.of_nat p <? v) a)).

Definition searchsorted_right (a : list nat) (v : Z) : Z :=
  Z.of_nat (length (List.filter (fun p => Z.of_nat p <=? v) a)).

(** numpy's [_search_sorted_inclusive]: every bin is closed on the left and
    open on the right, except the last one, which is closed on both. *)
Definition search_sorted_inclusive (a : list nat) (v : list Z) : list Z :=
  map (searchsorted_left a) (but_last v) ++ map (searchsorted_right a) (last_only v).

Fixpoint map2 {A B C} (f : A -> B -> C) (xs : list A) (ys : list B) : list C :=
  match xs, ys with
  | x :: xs', y :: ys' => f x y :: map2 f xs' ys'
  | _, _ => []
  end.

(** [np.diff(c)], that is [c[1:] - c[:-1]]. *)
Definition np_diff (c : list Z) : list Z := map2 Z.sub (tl c) (but_last c).

(** [np.cumsum]. *)
Fixpoint np_cumsum_from (acc : Z) (xs : list Z) : list Z :=
  match xs with
  | [] => []
  | x :: rest => (acc + x) :: np_cumsum_from (acc + x) rest
  end.

Definition np_cumsum (xs : list Z) : list Z := np_cumsum_from 0 xs.

(** [np.any(bins[:-1] > bins[1:])], negated. *)
Definition bins_increase (bins : list Z) : bool :=
  forallb (fun '(lo, hi) => lo <=? hi) (combine (but_last bins) (tl bins)).

(** [np.histogram(a, bins=bins)[0]] for an array of bin edges: numpy
    refuses edges that decrease, and otherwise takes the differences of
    the cumulative counts at the edges. *)
Definition np_histogram (a : list nat) (bins : list Z) : result (list Z) :=
  if bins_increase bins
  then Ok (np_diff (search_sorted_inclusive a bins))
  else Err ValueError.

(** Python's slice bounds: a negative bound counts from the end, and both
    bounds are clipped to the array. *)
Definition py_bound (len : nat) (i : Z) : nat :=
  Z.to_nat (if i <? 0 then Z.max 0 (i + Z.of_nat len) else Z.min i (Z.of_nat len)).

(** [arr[start:stop]]. *)
Definition py_slice {A} (arr : list A) (start stop : Z) : list A :=
  let s := py_bound (length arr) start in
  let e := py_bound (length arr) stop in
  firstn (e - s) (skipn s arr).

(** [arr[start:stop] = f(arr[start:stop])], in place. *)
Definition py_slice_map {A} (f : A -> A) (arr : list A) (start stop : Z) : list A :=
  let s := py_bound (length arr) start in
  let e := py_bound (length arr) stop in
  firstn s arr ++ map f (firstn (e - s) (skipn s arr)) ++ skipn (s + (e - s)) arr.

(** ** Summation

    numpy adds the elements of a contiguous array with its pairwise sum:
    up to seven elements are added one after the other; up to 128 are
    added, block of eight by block of eight, into eight running totals that
    are then combined, and the elements after the last full block are added
    to the result; a longer array is cut in two at a multiple of eight. *)

Definition sum_loop `{Dtype A} (res : A) (a : list A) : A := fold_left dt_add a res.

(** [k] blocks of eight added to the running totals [r]; what is left of
    the array comes back with the totals. *)
Fixpoint sum_blocks `{Dtype A} (k : nat) (r a : list A) : list A * list A :=
  match k with
  | O => (r, a)
  | S k' => sum_blocks k' (map2 dt_add r (firstn 8 a)) (skipn 8 a)
  end.

Definition sum_unrolled `{Dtype A} (a : list A) : A :=
  let '(r, rest) := sum_blocks (length a / 8 - 1) (firstn 8 a) (skipn 8 a) in
  match r with
  | [r0; r1; r2; r3; r4; r5; r6; r7] =>
      sum_loop (dt_add (dt_add (dt_add r0 r1) (dt_add r2 r3))
                       (dt_add (dt_add r4 r5) (dt_add r6 r7))) rest
  | _ => sum_loop dt_zero a
  end.

(** The recursion is on the length of the array; [fuel] bounds its depth,
    and the length of the array is always enough
    ([pairwise_sum_fuel]). *)
Fixpoint pairwise_sum `{Dtype A} (fuel : nat) (a : list A) : A :=
  let n := length a in
  if (n <? 8)%nat then sum_loop dt_zero a
  else if (n <=? 128)%nat then sum_unrolled a
  else
    match fuel with
    | O => sum_unrolled a
    | S fuel' =>
        let n2 := (n / 2 - (n / 2) mod 8)%nat in
        dt_add (pairwise_sum fuel' (firstn n2 a)) (pairwise_sum fuel' (skipn n2 a))
    end.

(** [arr.sum()] of a one-dimensional array: the reduction starts from 0
    and adds the pairwise sum of the array to it.  (A sum of zeros is [+0]
    here; numpy versions differ on the sign of such a sum, and the program
    makes no use of it.) *)
Definition np_sum `{Dtype A} (arr : list A) : A :=
  dt_add dt_zero (pairwise_sum (length arr) arr).

(** The sum of a list of rationals, and a binary64 number that is infinite
    or undefined. *)
Definition total (l : list Q) : Q := fold_right Qplus 0%Q l.

Definition nonfinite (x : float) : Prop := is_finite x = false.

(** ** Compressed sparse row matrices *)

Record csr (A : Type) : Type := {
  data : list A;          (* edge values *)
  indices : list Z;       (* column of each edge *)
  indptr : list Z;        (* row boundaries into [data] and [indices] *)
  shape : nat * nat
}.
Arguments data {A} _.
Arguments indices {A} _.
Arguments indptr {A} _.
Arguments shape {A} _.

(** [arr[~mask]]: the entries of [arr] at the positions where [mask] is
    false. *)
Fixpoint drop_masked {B} (mask : list bool) (arr : list B) : list B :=
  match mask, arr with
  | b :: mask', x :: arr' =>
      if b then drop_masked mask' arr' else x :: drop_masked mask' arr'
  | _, _ => arr
  end.

(** How many entries of a mask are set, and how many are not. *)
Definition count_true (mask : list bool) : nat := length (List.filter id mask).
Definition count_false (mask : list bool) : nat := length (List.filter negb mask).

(** Row [i] of a graph: [data[indptr[i]:indptr[i+1]]] and the matching slice
    of [indices]. *)
Definition row_data {A} (g : csr A) (i : nat) : list A :=
  py_slice (data g) (nth i (indptr g) 0) (nth (S i) (indptr g) 0).

Definition row_indices {A} (g : csr A) (i : nat) : list Z :=
  py_slice (indices g) (nth i (indptr g) 0) (nth (S i) (indptr g) 0).

Definition nondecreasing (p : list Z) : Prop :=
  forall i j x y, (i <= j)%nat -> nth_error p i = Some x -> nth_error p j = Some y -> x <= y.

(** The CSR invariant of the specification. *)
Record csr_inv {A} (g : csr A) : Prop := {
  inv_mono : nondecreasing (indptr g);
  inv_first : head (indptr g) = Some 0;
  inv_last : last (indptr g) = Some (Z.of_nat (length (data g)));
  inv_len : length (indices g) = length (data g)
}.

(** The mask [graph.data > threshold], and the number of entries before
    position [b] that the mask leaves in place. *)
Definition gt_mask `{Dtype A} (threshold : A) (arr : list A) : list bool :=
  map (fun x => dt_gtb x threshold) arr.

Definition kept_before (mask : list bool) (b : Z) : Z :=
  Z.of_nat (count_false (firstn (Z.to_nat b) mask)).

(** ** The loop of Row Normalizer *)

(** One turn of the loop: the row between [start_ptr] and [end_ptr] of the
    current [data] is summed and, unless the sum is 0, divided by it in
    place. *)
Definition row_normalize_step `{Dtype A} (data : list A) (ptrs : Z * Z) : list A :=
  let '(start_ptr, end_ptr) := ptrs in
  let row_sum := np_sum (py_slice data start_ptr end_ptr) in
  if dt_neqb row_sum dt_zero
  then py_slice_map (fun x => dt_div x row_sum) data start_ptr end_ptr
  else data.

(** What the loop does to one row: divide it by its sum unless that is 0. *)
Definition normalized `{Dtype A} (row : list A) : list A :=
  if dt_neqb (np_sum row) dt_zero
  then map (fun x => dt_div x (np_sum row)) row
  else row.

(** A pair of row boundaries that delimits a slice of an array of length
    [len]. *)
Definition region_ok (len : nat) (r : Z * Z) : Prop :=
  0 <= fst r <= snd r /\ snd r <= Z.of_nat len.

(** Two regions that do not overlap. *)
Definition apart (r1 r2 : Z * Z) : Prop := snd r1 <= fst r2 \/ snd r2 <= fst r1.

(** [zip(graph.indptr[:-1], graph.indptr[1:])]. *)
Definition row_bounds (indptr : list Z) : list (Z * Z) :=
  combine (but_last indptr) (tl indptr).


Definition set_data {A} (d : list A) (g : csr A) : csr A :=
  {| data := d; indices := indices g; indptr := indptr g; shape := shape g |}.

Definition set_indices {A} (ix : list Z) (g : csr A) : csr A :=
  {| data := data g; indices := ix; indptr := indptr g; shape := shape g |}.

Definition set_indptr {A} (p : list Z) (g : csr A) : csr A :=
  {| data := data g; indices := indices g; indptr := p; shape := shape g |}.

(** ** Dense matrices

    A two-dimensional numpy array: its shape and its rows.  A
    one-dimensional array of [n] entries is kept as the [1 x n] array numpy
    broadcasts it as.  A [np.matrix], which scipy's [todense] returns, is
    kept as the array with its shape and entries; the two classes differ
    in the shape of a mean taken along the rows. *)

Record ndarray (A : Type) : Type := {
  nd_shape : nat * nat;
  nd_rows : list (list A)
}.
Arguments nd_shape {A} _.
Arguments nd_rows {A} _.

Definition nd_wf {A} (m : ndarray A) : Prop :=
  length (nd_rows m) = fst (nd_shape m) /\
  Forall (fun r => length r = snd (nd_shape m)) (nd_rows m).

Definition nd_map {A B} (f : A -> B) (m : ndarray A) : ndarray B :=
  {| nd_shape := nd_shape m; nd_rows := map (map f) (nd_rows m) |}.

(** ** Python objects, references and the state of a run

    The matrices the functions receive and return are objects reached
    through references: assigning to an attribute or to a slice changes the
    object for everyone who holds a reference to it. *)

Definition loc := nat.

Inductive pyobj (A : Type) : Type :=
  | OCsr (g : csr A)            (* a scipy [csr_matrix] *)
  | ONdArray (m : ndarray A).   (* a numpy array *)
Arguments OCsr {A} g.
Arguments ONdArray {A} m.

(** Values of the dynamically typed arguments [num_neighbours] and
    [radius]. *)
Inductive pyval : Type :=
  | VNone
  | VInt (z : Z)
  | VBool (b : bool)
  | VFloat (x : float)
  | VStr (s : string).

(** Calls into the neighbour-search library, in the order they are made. *)
Inductive event : Type :=
  | CallFit
  | CallKneighborsGraph (n_neighbors : pyval)
  | CallRadiusNeighborsGraph (radius : pyval).

Record world (A : Type) : Type := {
  heap : gmap loc (pyobj A);
  calls : list event
}.
Arguments heap {A} _.
Arguments calls {A} _.

(** A computation: it reads and changes the state, and returns a value or
    raises.  What it changed before raising stays changed. *)
Definition Py (A X : Type) : Type := world A -> result X * world A.

#[export] Instance py_ret {A} : MRet (Py A) := fun _ x w => (Ok x, w).

#[export] Instance py_bind {A} : MBind (Py A) := fun _ _ k m w =>
  match m w with
  | (Ok x, w') => k x w'
  | (Err e, w') => (Err e, w')
  end.

Definition raise {A X} (e : exn) : Py A X := fun w => (Err e, w).

Definition lift {A X} (r : result X) : Py A X := fun w => (r, w).

Definition py_assert {A} (b : bool) : Py A unit :=
  if b then mret tt else raise AssertionError.

Definition with_heap {A} (h : gmap loc (pyobj A)) (w : world A) : world A :=
  {| heap := h; calls := calls w |}.

(** A new object gets a reference nobody holds yet. *)
Definition alloc {A} (o : pyobj A) : Py A loc := fun w =>
  let l := fresh (dom (heap w)) in
  (Ok l, with_heap (<[l := o]> (heap w)) w).

Definition load {A} (l : loc) : Py A (pyobj A) := fun w =>
  match heap w !! l with
  | Some o => (Ok o, w)
  | None => (Err TypeError, w)
  end.

Definition load_csr {A} (l : loc) : Py A (csr A) :=
  o ← load l;
  match o with
  | OCsr g => mret g
  | ONdArray _ => raise TypeError
  end.

Definition store {A} (l : loc) (o : pyobj A) : Py A unit := fun w =>
  (Ok tt, with_heap (<[l := o]> (heap w)) w).

(** [del name] for the last reference to an object. *)
Definition free {A} (l : loc) : Py A unit := fun w =>
  (Ok tt, with_heap (delete l (heap w)) w).

(** [obj.copy()]: a new object with the contents of the given one.  (scipy
    builds the copy of a sparse matrix with the constructor, which checks
    the arrays against each other and the shape and cuts [data] and
    [indices] to [indptr[-1]] entries.  On a matrix whose arrays fit, as
    the CSR invariant and the shape say, that is the plain copy taken
    here; what the functions do to a matrix whose arrays do not fit is
    stated for work in place only.) *)
Definition copy {A} (l : loc) : Py A loc := o ← load l; alloc o.

Definition log {A} (e : event) : Py A unit := fun w =>
  (Ok tt, {| heap := heap w; calls := calls w ++ [e] |}).

Fixpoint for_each {A X} (xs : list X) (body : X -> Py A unit) : Py A unit :=
  match xs with
  | [] => mret tt
  | x :: rest => body x ;; for_each rest body
  end.

(** Where a function works: on the object it was given, or on a copy. *)
Definition target {A} (copy_ : bool) (graph : loc) (w : world A) : loc :=
  if copy_ then fresh (dom (heap w)) else graph.

(** ** CSR Filter: [remove_greater_than] (lines 14-50)

    [verbose] only prints. *)
Definition remove_greater_than `{Dtype A} (graph : loc) (threshold : A)
    (copy_ verbose : bool) : Py A loc :=
  graph ← (if copy_ then copy graph else mret graph);
  g ← load_csr graph;
  let greater_indices := np_where (gt_mask threshold (data g)) in
  (* delete the entries in data and index fields *)
  data' ← lift (np_delete (data g) greater_indices);
  store graph (OCsr (set_data data' g));;
  g ← load_csr graph;
  indices' ← lift (np_delete (indices g) greater_indices);
  store graph (OCsr (set_indices indices' g));;
  (* update the index pointer *)
  g ← load_csr graph;
  hist ← lift (np_histogram greater_indices (indptr g));
  let cum_hist := np_cumsum hist in
  (* graph.indptr[1:] -= cum_hist *)
  store graph (OCsr (set_indptr
    match indptr g with
    | [] => []
    | p0 :: rest => p0 :: map2 Z.sub rest cum_hist
    end g));;
  mret graph.

(** The graph the loop of Row Normalizer makes of a graph. *)
Definition row_normalized `{Dtype A} (g : csr A) : csr A :=
  set_data (fold_left row_normalize_step (row_bounds (indptr g)) (data g)) g.

(** ** Row Normalizer: [row_normalize] (lines 54-77)

    [data] is the array of the graph itself, so every turn of the loop
    changes the graph.  [verbose] only prints. *)
Definition row_normalize `{Dtype A} (graph : loc) (copy_ verbose : bool) : Py A loc :=
  graph ← (if copy_ then copy graph else mret graph);
  g ← load_csr graph;
  for_each (row_bounds (indptr g)) (fun ptrs =>
    g ← load_csr graph;
    store graph (OCsr (set_data (row_normalize_step (data g) ptrs) g)));;
  mret graph.

(** ** Scenarios of the specification *)

(** CSR Filter: [data = [1,5,3,9]], [indptr = [0,2,4]]. *)
Definition scenario_graph : csr float :=
  {| data := [1; 5; 3; 9]%float; indices := [1; 2; 0; 2]; indptr := [0; 2; 4];
     shape := (2%nat, 3%nat) |}.

(** "Equal to 1 within the floating tolerance 1e-9". *)
Definition close_to_one (s : float) : bool :=
  PrimFloat.leb (PrimFloat.abs (PrimFloat.sub s 1)) 1e-9.

(** A one-row graph whose two finite entries, 2^1023 each, add up to
    [infinity]. *)
Definition overflow_graph : csr float :=
  {| data := [0x1p+1023; 0x1p+1023]%float; indices := [0; 1]; indptr := [0; 2];
     shape := (1%nat, 2%nat) |}.

(** A graph over the rationals, with rows [[1, 2]] and [[5]]. *)
Definition exact_graph : csr Q :=
  {| data := [1; 2; 5]%Q; indices := [0; 1; 1]; indptr := [0; 2; 3];
     shape := (2%nat, 2%nat) |}.

(** A state in which reference 0 is the only object. *)
Definition world_of {A} (o : pyobj A) : world A :=
  {| heap := {[ 0%nat := o ]}; calls := [] |}.


(** ** The neighbour-search library

    sklearn's [NearestNeighbors] is outside the program: a fitted index is
    known here by the graphs its two queries return (both are asked for
    with [mode='distance'] and return a new [csr_matrix]), and fitting is a
    function from the coordinates to such an index.  Either may raise. *)

Record NearestNeighbors : Type := {
  kneighbors_graph : pyval -> result (csr float);
  radius_neighbors_graph : pyval -> result (csr float)
}.

Definition isinstance_int (v : pyval) : bool :=
  match v with
  | VInt _ | VBool _ => true      (* a Python [bool] is an [int] *)
  | _ => false
  end.

Definition isinstance_float_or_int (v : pyval) : bool :=
  match v with
  | VInt _ | VBool _ | VFloat _ => true
  | _ => false
  end.

(** The number numpy compares an array of floats with when it is given the
    Python number [v].  An integer is converted as a 63-bit number: the
    conversion is numpy's for integers below 2^63 in size, and statements
    that depend on it are made for those. *)
Definition float_of_Z (z : Z) : float :=
  if z <? 0 then PrimFloat.opp (PrimFloat.of_uint63 (Uint63.of_Z (- z)))
  else PrimFloat.of_uint63 (Uint63.of_Z z).

Definition float_of_pyval (v : pyval) : float :=
  match v with
  | VFloat x => x
  | VInt z => float_of_Z z
  | VBool b => if b then 1%float else 0%float
  | _ => nan
  end.

Section Graphs.

(** [NearestNeighbors(algorithm='ball_tree').fit(locations)]. *)
Variable ball_tree_fit : ndarray float -> result NearestNeighbors.

(** ** Neighbor Graph Builder: [generate_spatial_distance_graph]
    (lines 80-108) *)
Definition generate_spatial_distance_graph (locations : ndarray float)
    (nbr_object : option NearestNeighbors) (num_neighbours radius : pyval)
  : Py float loc :=
  nbrs ← match nbr_object with
         | None => log CallFit;; lift (ball_tree_fit locations)
         | Some o => mret o
         end;
  match num_neighbours with
  | VNone =>
      log (CallRadiusNeighborsGraph radius);;
      g ← lift (radius_neighbors_graph nbrs radius);
      alloc (OCsr g)
  | _ =>
      py_assert (isinstance_int num_neighbours);;
      log (CallKneighborsGraph num_neighbours);;
      g ← lift (kneighbors_graph nbrs num_neighbours);
      graph_out ← alloc (OCsr g);
      match radius with
      | VNone => mret graph_out
      | _ =>
          py_assert (isinstance_float_or_int radius);;
          remove_greater_than graph_out (float_of_pyval radius) false false
      end
  end.

(** ** Weight Transform: [generate_spatial_weights_fixed_nbrs]
    (lines 112-124)

    [decay_type] is not used by the function. *)
Definition generate_spatial_weights_fixed_nbrs (locations : ndarray float)
    (num_neighbours : pyval) (decay_type : string)
    (nbr_object : option NearestNeighbors) (verbose : bool)
  : Py float (loc * loc) :=
  distance_graph ←
    generate_spatial_distance_graph locations nbr_object num_neighbours VNone;
  graph_out ← copy distance_graph;
  g ← load_csr graph_out;
  store graph_out (OCsr (set_data (map (fun x => 1 / x)%float (data g)) g));;
  weights ← row_normalize graph_out false verbose;
  mret (weights, distance_graph).

End Graphs.

(** The reciprocal weights of a distance graph, before normalization. *)
Definition reciprocal (g : csr float) : csr float :=
  set_data (map (fun x => 1 / x)%float (data g)) g.

(** The index a call works with, and the library calls made to get it. *)
Definition obtain_index (fit : ndarray float -> result NearestNeighbors)
    (locations : ndarray float) (nbr_object : option NearestNeighbors)
  : result NearestNeighbors :=
  match nbr_object with
  | None => fit locations
  | Some o => Ok o
  end.

Definition fit_calls (nbr_object : option NearestNeighbors) : list event :=
  match nbr_object with
  | None => [CallFit]
  | Some _ => []
  end.

Definition with_calls {A} (c : list event) (w : world A) : world A :=
  {| heap := heap w; calls := c |}.

(** The distance graph of the four points 0, 1, 2, 3 on a line with two
    neighbours each, and an index that answers with it. *)
Definition collinear_knn : csr float :=
  {| data := [1; 2; 1; 1; 1; 1; 1; 2]%float;
     indices := [1; 2; 0; 2; 1; 3; 2; 1];
     indptr := [0; 2; 4; 6; 8];
     shape := (4%nat, 4%nat) |}.

Definition collinear : ndarray float :=
  {| nd_shape := (4%nat, 1%nat); nd_rows := [[0]; [1]; [2]; [3]]%float |}.

(** The distance graph of the points 0, 0, 1: the first two coincide. *)
Definition coincident_knn : csr float :=
  {| data := [0; 1; 0; 1; 1; 1]%float;
     indices := [1; 2; 0; 2; 0; 1];
     indptr := [0; 2; 4; 6];
     shape := (3%nat, 3%nat) |}.

Definition coincident : ndarray float :=
  {| nd_shape := (3%nat, 1%nat); nd_rows := [[0]; [0]; [1]]%float |}.

(** An index that answers every k-neighbours query with [g]. *)
Definition index_of (g : csr float) : NearestNeighbors :=
  {| kneighbors_graph := fun _ => Ok g;
     radius_neighbors_graph := fun _ => Err LibraryError |}.

(** ** numpy and scipy on matrices *)

Inductive axis : Type := Axis0 | Axis1.

Definition float_of_nat (n : nat) : float :=
  PrimFloat.of_uint63 (Uint63.of_Z (Z.of_nat n)).

(** Sums down the columns of a numpy array (stored row by row, as numpy
    lays arrays out unless told otherwise): the rows are added to the
    running totals one after the other; an array with a single column is
    summed like a one-dimensional array. *)
Definition col_sums (ncols : nat) (rows : list (list float)) : list float :=
  if (ncols =? 1)%nat then [np_sum (concat rows)]
  else fold_left (map2 PrimFloat.add) rows (repeat 0%float ncols).

(** [a.mean(axis)] of a numpy array ([np.ndarray]): the sums divided by
    the number of terms, a one-dimensional array.  (Of a [np.matrix] the
    mean along axis 1 is a column instead; the values of Z-Scorer along
    axis 1 are stated for sparse matrices only.) *)
Definition nd_mean (a : ndarray float) (ax : axis) : ndarray float :=
  let '(n, g) := nd_shape a in
  match ax with
  | Axis0 =>
      {| nd_shape := (1%nat, g);
         nd_rows := [map (fun s => s / float_of_nat n)%float (col_sums g (nd_rows a))] |}
  | Axis1 =>
      {| nd_shape := (1%nat, n);
         nd_rows := [map (fun r => np_sum r / float_of_nat g)%float (nd_rows a)] |}
  end.

(** The rows of a sparse matrix as pairs of column and value. *)
Definition csr_rows {A} (g : csr A) : list (list (Z * A)) :=
  map (fun '(lo, hi) => combine (py_slice (indices g) lo hi) (py_slice (data g) lo hi))
      (row_bounds (indptr g)).

Fixpoint add_at (j : nat) (v : float) (row : list float) : list float :=
  match row, j with
  | [], _ => []
  | x :: rest, O => (x + v)%float :: rest
  | x :: rest, S j' => x :: add_at j' v rest
  end.

(** One row of [m.todense()]: the stored values are added into a row of
    zeros (a column outside the matrix cannot occur in a matrix scipy
    built; it is skipped here). *)
Definition dense_row (ncols : nat) (entries : list (Z * float)) : list float :=
  fold_left (fun row '(j, v) => if (0 <=? j) then add_at (Z.to_nat j) v row else row)
            entries (repeat 0%float ncols).

Definition todense (g : csr float) : ndarray float :=
  {| nd_shape := shape g; nd_rows := map (dense_row (snd (shape g))) (csr_rows g) |}.

(** The matrix an object stands for in an operation with a dense operand. *)
Definition dense_of (o : pyobj float) : ndarray float :=
  match o with
  | OCsr g => todense g
  | ONdArray a => a
  end.

(** [np.add.reduceat] on one segment: the first value, and the pairwise
    sum of the others added to it. *)
Definition reduceat_add (seg : list float) : float :=
  match seg with
  | [] => 0%float
  | x :: rest => (x + pairwise_sum (length rest) rest)%float
  end.

(** [m.mean(axis)] of a scipy matrix: the matrix is scaled by [1.0 / n],
    a division of Python numbers that raises when [n] is 0, and then
    summed.  Down the columns the stored values are added to the running
    totals in the order they are stored; along a row they are reduced with
    [np.add.reduceat], and a row that stores nothing sums to 0.  The result
    is a [1 x G] or [N x 1] matrix. *)
Definition csr_mean (g : csr float) (ax : axis) : result (ndarray float) :=
  let '(n, c) := shape g in
  match ax with
  | Axis0 =>
      if (n =? 0)%nat then Err ZeroDivisionError else
      let scaled := set_data (map (fun x => x * (1 / float_of_nat n))%float (data g)) g in
      Ok {| nd_shape := (1%nat, c); nd_rows := [dense_row c (concat (csr_rows scaled))] |}
  | Axis1 =>
      if (c =? 0)%nat then Err ZeroDivisionError else
      let scaled := set_data (map (fun x => x * (1 / float_of_nat c))%float (data g)) g in
      Ok {| nd_shape := (n, 1%nat);
            nd_rows := map (fun r => [reduceat_add (map snd r)]) (csr_rows scaled) |}
  end.

Definition py_mean (o : pyobj float) (ax : axis) : result (ndarray float) :=
  match o with
  | OCsr g => csr_mean g ax
  | ONdArray a => Ok (nd_mean a ax)
  end.

(** Broadcasting: two dimensions fit when they are equal or one of them is
    1, and the operand with the dimension 1 is repeated along it. *)
Definition bdim (a b : nat) : option nat :=
  if (a =? b)%nat then Some a
  else if (a =? 1)%nat then Some b
  else if (b =? 1)%nat then Some a
  else None.

Definition stretch {B} (n : nat) (l : list B) : list B :=
  match l with
  | [x] => repeat x n
  | _ => l
  end.

Definition broadcast_to {B} (r c : nat) (m : ndarray B) : list (list B) :=
  stretch r (map (stretch c) (nd_rows m)).

Definition broadcast2 (f : float -> float -> float) (x y : ndarray float)
  : result (ndarray float) :=
  match bdim (fst (nd_shape x)) (fst (nd_shape y)),
        bdim (snd (nd_shape x)) (snd (nd_shape y)) with
  | Some r, Some c =>
      Ok {| nd_shape := (r, c);
            nd_rows := map2 (map2 f) (broadcast_to r c x) (broadcast_to r c y) |}
  | _, _ => Err ValueError
  end.

(** The largest finite binary64 number. *)
Definition max_float : float := 0x1.fffffffffffffp+1023%float.

(** [np.nan_to_num] on one entry: NaN becomes 0, the infinities become the
    largest and the smallest finite number. *)
Definition nan_to_num (x : float) : float :=
  if is_nan x then 0%float
  else if is_infinity x then (if (x <? 0)%float then (- max_float)%float else max_float)
  else x.

(** ** Z-Scorer: [zscore] (lines 192-219) *)
Definition zscore (matrix : loc) (ax : axis) : Py float loc :=
  m ← load matrix;
  E_x ← lift (py_mean m ax);
  E_x2 ← match m with
         | OCsr _ =>
             squared ← copy matrix;
             sq ← load_csr squared;
             (* squared.data **= 2 *)
             store squared (OCsr (set_data (map (fun x => x * x)%float (data sq)) sq));;
             s ← load squared;
             E_x2 ← lift (py_mean s ax);
             free squared;;
             mret E_x2
         | ONdArray a =>
             mret (nd_mean (nd_map (fun x => x * x)%float a) ax)
         end;
  variance ← lift (broadcast2 PrimFloat.sub E_x2 (nd_map (fun x => x * x)%float E_x));
  centred ← lift (broadcast2 PrimFloat.sub (dense_of m) E_x);
  zscored_matrix ← lift (broadcast2 PrimFloat.div centred (nd_map PrimFloat.sqrt variance));
  (* Ensure that there are no NaNs *)
  alloc (ONdArray (nd_map nan_to_num zscored_matrix)).

(** ** Feature Fusion: [weighted_concatenate] (lines 166-189) *)

Definition obj_map (f : float -> float) (o : pyobj float) : pyobj float :=
  match o with
  | OCsr g => OCsr (set_data (map f (data g)) g)
  | ONdArray a => ONdArray (nd_map f a)
  end.

(** [m *= s]: the matrix is scaled in place. *)
Definition imul (m : loc) (s : float) : Py float unit :=
  o ← load m;
  store m (obj_map (fun x => x * s)%float o).

(** [scipy.sparse.hstack((a, b))]: row by row, the entries of [a] followed
    by those of [b] with their columns moved right. *)
Definition sparse_hstack (a b : csr float) : result (csr float) :=
  if (fst (shape a) =? fst (shape b))%nat
  then
    let rows :=
      map2 (fun ra rb => ra ++ map (fun '(j, v) => (j + Z.of_nat (snd (shape a)), v)) rb)
           (csr_rows a) (csr_rows b) in
    Ok {| data := concat (map (map snd) rows);
          indices := concat (map (map fst) rows);
          indptr := 0 :: np_cumsum (map (fun r => Z.of_nat (length r)) rows);
          shape := (fst (shape a), (snd (shape a) + snd (shape b))%nat) |}
  else Err ValueError.

(** [np.concatenate((a, b), axis=1)]. *)
Definition np_concatenate1 (a b : ndarray float) : result (ndarray float) :=
  if (fst (nd_shape a) =? fst (nd_shape b))%nat
  then Ok {| nd_shape := (fst (nd_shape a), (snd (nd_shape a) + snd (nd_shape b))%nat);
             nd_rows := map2 (@app float) (nd_rows a) (nd_rows b) |}
  else Err ValueError.

Definition weighted_concatenate (cell_genes neighbours : loc)
    (neighbourhood_contribution : float) : Py float loc :=
  imul cell_genes (PrimFloat.sqrt (1 - neighbourhood_contribution));;
  imul neighbours (PrimFloat.sqrt neighbourhood_contribution);;
  c ← load cell_genes;
  n ← load neighbours;
  match c, n with
  | OCsr a, OCsr b =>
      r ← lift (sparse_hstack a b);
      alloc (OCsr r)
  | _, _ =>
      (* at least one is a dense array *)
      r ← lift (np_concatenate1 (dense_of c) (dense_of n));
      alloc (ONdArray r)
  end.

(** ** Notions the statements below use *)

Definition obj_shape (o : pyobj float) : nat * nat :=
  match o with
  | OCsr g => shape g
  | ONdArray a => nd_shape a
  end.

(** The stored entries of a matrix. *)
Definition obj_entries (o : pyobj float) : list float :=
  match o with
  | OCsr g => data g
  | ONdArray a => concat (nd_rows a)
  end.

(** A matrix whose arrays fit its shape. *)
Definition obj_wf (o : pyobj float) : Prop :=
  match o with
  | OCsr g => length (indptr g) = S (fst (shape g))
  | ONdArray a => nd_wf a
  end.

(** The matrix Z-Scorer computes from the matrix it is given. *)
Definition zscore_value (m : pyobj float) (ax : axis) : result (ndarray float) :=
  E_x ← py_mean m ax;
  E_x2 ← py_mean (obj_map (fun x => x * x)%float m) ax;
  variance ← broadcast2 PrimFloat.sub E_x2 (nd_map (fun x => x * x)%float E_x);
  centred ← broadcast2 PrimFloat.sub (dense_of m) E_x;
  zscored_matrix ← broadcast2 PrimFloat.div centred (nd_map PrimFloat.sqrt variance);
  Ok (nd_map nan_to_num zscored_matrix).

(** The matrix Feature Fusion builds from the two scaled matrices. *)
Definition hstack_objs (c n : pyobj float) : result (pyobj float) :=
  match c, n with
  | OCsr a, OCsr b => r ← sparse_hstack a b; Ok (OCsr r)
  | _, _ => r ← np_concatenate1 (dense_of c) (dense_of n); Ok (ONdArray r)
  end.

(** The first [g] columns of a dense matrix, and the columns after them. *)
Definition left_block (g : nat) (m : ndarray float) : list (list float) :=
  map (firstn g) (nd_rows m).

Definition right_block (g : nat) (m : ndarray float) : list (list float) :=
  map (skipn g) (nd_rows m).

(** The entry in row [i] and column [j] of a dense matrix. *)
Definition cell (m : ndarray float) (i j : nat) : option float :=
  match nth_error (nd_rows m) i with
  | Some row => nth_error row j
  | None => None
  end.

(** The two matrices after Feature Fusion has scaled them. *)
Definition scaled_self (lam : float) (c : pyobj float) : pyobj float :=
  obj_map (fun x => x * PrimFloat.sqrt (1 - lam))%float c.

Definition scaled_neighbours (lam : float) (n : pyobj float) : pyobj float :=
  obj_map (fun x => x * PrimFloat.sqrt lam)%float n.

(** Numerically zero ([0] or [-0]). *)
Definition is_zero_entry (x : float) : Prop := PrimFloat.eqb x 0 = true.

(** Two small dense matrices with two rows, and one with three. *)
Definition two_by_one : ndarray float :=
  {| nd_shape := (2%nat, 1%nat); nd_rows := [[1]; [2]]%float |}.

Definition two_by_two : ndarray float :=
  {| nd_shape := (2%nat, 2%nat); nd_rows := [[3; 4]; [5; 6]]%float |}.

Definition three_by_one : ndarray float :=
  {| nd_shape := (3%nat, 1%nat); nd_rows := [[7]; [8]; [9]]%float |}.

(** A state with two objects, at references 0 and 1. *)
Definition world_of2 (o1 o2 : pyobj float) : world float :=
  {| heap := <[1%nat := o2]> {[ 0%nat := o1 ]}; calls := [] |}.




(** Two rows whose only column holds an infinite entry. *)
Definition unbounded_column : ndarray float :=
  {| nd_shape := (2%nat, 1%nat); nd_rows := [[infinity]; [2]]%float |}.
(** ** Notions the further properties use *)

(** The graph CSR Filter makes of a well-formed graph: the entries above
    the threshold are gone from [data] and [indices], and every row
    boundary is the number of entries kept before it. *)
Definition filtered `{Dtype A} (t : A) (g : csr A) : csr A :=
  {| data := drop_masked (gt_mask t (data g)) (data g);
     indices := drop_masked (gt_mask t (data g)) (indices g);
     indptr := map (kept_before (gt_mask t (data g))) (indptr g);
     shape := shape g |}.

(** A graph whose row pointers decrease: [indptr = [0, 3, 2]]. *)
Definition crossed_graph : csr float :=
  {| data := [1; 5; 3]%float; indices := [0; 1; 2]; indptr := [0; 3; 2];
     shape := (2%nat, 3%nat) |}.

(** A graph with a NaN in its first row: rows [[1, NaN]] and [[2]]. *)
Definition nan_graph : csr float :=
  {| data := [1; nan; 2]%float; indices := [0; 1; 1]; indptr := [0; 2; 3];
     shape := (2%nat, 2%nat) |}.

(** An index that answers every radius query with [g] and has no
    k-neighbours query. *)
Definition radius_index_of (g : csr float) : NearestNeighbors :=
  {| kneighbors_graph := fun _ => Err LibraryError;
     radius_neighbors_graph := fun _ => Ok g |}.


(** A sparse matrix without rows. *)
Definition no_rows : csr float :=
  {| data := []; indices := []; indptr := [0]; shape := (0%nat, 3%nat) |}.

(** A binary64 number that is a zero or NaN: what the statistics of a
    column of zeros can be. *)
Definition zero_or_nan (x : float) : Prop :=
  match Prim2SF x with
  | S754_zero _ | S754_nan => True
  | _ => False
  end.

(** A column in which every entry is zero: for a dense matrix every entry
    of the column, for a sparse one every value stored for the column. *)
Definition column_is_zero (m : pyobj float) (j : nat) : Prop :=
  match m with
  | ONdArray a => forall i x, cell a i j = Some x -> is_zero_entry x
  | OCsr g =>
      Forall (Forall (fun e => fst e = Z.of_nat j -> is_zero_entry (snd e))) (csr_rows g)
  end.

(** A dense matrix whose first column holds zeros of both signs. *)
Definition zero_first_column : ndarray float :=
  {| nd_shape := (2%nat, 2%nat); nd_rows := [[0; 1]; [-0; 3]]%float |}.

(** A sparse matrix whose column indices lie inside its shape (a dense
    matrix has none). *)
Definition cols_in_range (o : pyobj float) : Prop :=
  match o with
  | OCsr g => Forall (fun j => 0 <= j < Z.of_nat (snd (shape g))) (indices g)
  | ONdArray _ => True
  end.

(** Two small sparse matrices with two rows: [[1, 0], [0, 2]] and
    [[0, 3, 0], [4, 0, 5]]. *)
Definition sparse_two_by_two : csr float :=
  {| data := [1; 2]%float; indices := [0; 1]; indptr := [0; 1; 2];
     shape := (2%nat, 2%nat) |}.

Definition sparse_two_by_three : csr float :=
  {| data := [3; 4; 5]%float; indices := [1; 0; 2]; indptr := [0; 1; 3];
     shape := (2%nat, 3%nat) |}.

(** ** The numpy reductions of the edge histogram *)

(** The order numpy sorts floats in: ascending, with NaN after every
    number. *)
Definition sorts_before (x y : float) : bool := is_nan y || PrimFloat.leb x y.

Fixpoint insert_sorted (x : float) (l : list float) : list float :=
  match l with
  | [] => [x]
  | y :: rest => if sorts_before x y then x :: l else y :: insert_sorted x rest
  end.

Definition np_sort (a : list float) : list float := fold_right insert_sorted [] a.

(** [a.mean()] of a one-dimensional array: the sum divided by the number
    of elements (NaN for an empty array). *)
Definition np_mean (a : list float) : float := (np_sum a / float_of_nat (length a))%float.

(** [np.median(a)]: the array is partitioned so that the middle element
    (for an even length the two middle elements) and the last one are
    where sorting would put them; the result is the mean of the middle,
    or NaN when the last element is NaN.  An empty array gives NaN. *)
Definition np_median (a : list float) : float :=
  let part := np_sort a in
  let sz := length a in
  let index := Z.of_nat (sz / 2) in
  let middle :=
    if (sz mod 2 =? 1)%nat then py_slice part index (index + 1)
    else py_slice part (index - 1) (index + 1) in
  let rout := np_mean middle in
  match last part with
  | Some x => if is_nan x then nan else rout
  | None => rout
  end.

(** [np.argmax(a)]: the position of the first maximum, a NaN counting as
    the maximum; an empty array raises [ValueError]. *)
Fixpoint argmax_from (mp : float) (max_ind i : nat) (ip : list float) : nat :=
  match ip with
  | [] => max_ind
  | x :: rest =>
      if PrimFloat.leb x mp then argmax_from mp max_ind (S i) rest
      else if is_nan x then i
      else argmax_from x i (S i) rest
  end.

Definition np_argmax (a : list float) : result nat :=
  match a with
  | [] => Err ValueError
  | x :: rest => Ok (if is_nan x then 0%nat else argmax_from x 0 1 rest)
  end.

(** [a[i]] for a position [i] that is not negative. *)
Definition np_getitem {A} (a : list A) (i : nat) : result A :=
  match nth_error a i with
  | Some x => Ok x
  | None => Err IndexError
  end.

(** ** Edge histogram: [plot_edge_histogram] (lines 127-145)

    matplotlib is outside the program.  An [Axes] is known here by what
    its [hist] returns for the data and the [bins] argument, the counts and
    the bin edges (the patches are not used), or by the error it raises;
    the calls made on it are recorded in the order they are made.
    [axvline] and [set_title] draw and return nothing the function uses. *)

Inductive plot_call : Type :=
  | AxHist (x : list float) (bins : pyval)
  | AxVline (x : float) (color : string) (alpha : float)
  | AxSetTitle (label : string).

Record Axes : Type := {
  ax_hist : list float -> pyval -> result (list float * list float)
}.

Definition Plot (X : Type) : Type := list plot_call -> result X * list plot_call.

#[export] Instance plot_ret : MRet Plot := fun _ x t => (Ok x, t).

#[export] Instance plot_bind : MBind Plot := fun _ _ k m t =>
  match m t with
  | (Ok x, t') => k x t'
  | (Err e, t') => (Err e, t')
  end.

Definition plot_lift {X} (r : result X) : Plot X := fun t => (r, t).

Definition plot_log (c : plot_call) : Plot unit := fun t => (Ok tt, t ++ [c]).

(** [verbose] does not exist here: the function always prints, and the
    printing is left out. *)
Definition plot_edge_histogram (graph : csr float) (ax : Axes) (title : string)
    (bins : pyval) : Plot (float * float) :=
  plot_log (AxHist (data graph) bins);;
  h ← plot_lift (ax_hist ax (data graph) bins);
  let counts := fst h in
  let bins := snd h in
  let median_dist := np_median (data graph) in
  i ← plot_lift (np_argmax counts);
  mode_dist ← plot_lift (np_getitem bins i);
  plot_log (AxVline median_dist "r" 0.8);;
  plot_log (AxVline mode_dist "g" 0.8);;
  plot_log (AxSetTitle (String.append "Histogram of " title));;
  mret (median_dist, mode_dist).

(** An [Axes] whose [hist] answers with given counts and edges. *)
Definition axes_of (counts edges : list float) : Axes :=
  {| ax_hist := fun _ _ => Ok (counts, edges) |}.

(** An [Axes] whose [hist] raises. *)
Definition failing_axes : Axes := {| ax_hist := fun _ _ => Err LibraryError |}.

(** A graph of two points without an edge. *)
Definition no_edges : csr float :=
  {| data := []; indices := []; indptr := [0; 0; 0]; shape := (2%nat, 2%nat) |}.

(** ** Annotated matrices: [matrix_to_adata] (lines 148-163)

    pandas and anndata are outside the program.  A [DataFrame] is its
    index, the row labels, and its columns in order, each a label and one
    value per row; an [AnnData] is its matrix, the two frames that
    annotate its rows and columns, and [uns] and [obsm].  The frames are
    values here: that [adata.var] is copied before its index is changed
    shows in nothing but the original being left as it is. *)

Record DataFrame : Type := {
  df_index : list string;
  df_columns : list (string * list pyval)
}.

Definition df_len (df : DataFrame) : nat := length (df_index df).

Definition df_wf (df : DataFrame) : Prop :=
  Forall (fun c => length (snd c) = df_len df) (df_columns df).

(** [df.index += suffix] for an index of strings. *)
Definition index_add (suffix : string) (df : DataFrame) : DataFrame :=
  {| df_index := map (fun s => String.append s suffix) (df_index df);
     df_columns := df_columns df |}.

(** [pd.concat([a, b])] for two frames with the same columns, as a frame
    and its copy have: the rows of [b] follow those of [a]. *)
Definition pd_concat (a b : DataFrame) : DataFrame :=
  {| df_index := df_index a ++ df_index b;
     df_columns := map2 (fun ca cb => (fst ca, snd ca ++ snd cb))
                        (df_columns a) (df_columns b) |}.

(** [df[name] = values]: the column of that label is replaced, or a new
    column is added after the others; the values have to be as many as
    the rows. *)
Definition df_setitem (name : string) (values : list pyval) (df : DataFrame)
  : result DataFrame :=
  if (length values =? df_len df)%nat then
    Ok {| df_index := df_index df;
          df_columns :=
            if existsb (fun c => String.eqb name (fst c)) (df_columns df)
            then map (fun c => if String.eqb name (fst c) then (fst c, values) else c)
                     (df_columns df)
            else df_columns df ++ [(name, values)] |}
  else Err ValueError.

(** [df[name]]: the first column of that label. *)
Definition df_getitem (name : string) (df : DataFrame) : option (list pyval) :=
  option_map snd (List.find (fun c => String.eqb name (fst c)) (df_columns df)).

Record AnnData : Type := {
  adata_X : pyobj float;
  adata_obs : DataFrame;
  adata_var : DataFrame;
  adata_uns : list (string * pyval);
  adata_obsm : list (string * pyobj float)
}.

(** [anndata.AnnData(X, obs=, var=, uns=, obsm=)]: the matrix has to have
    one row per row of [obs] and one column per row of [var], and every
    array of [obsm] one row per row of [obs]; otherwise the constructor
    raises [ValueError]. *)
Definition anndata_init (X : pyobj float) (obs var : DataFrame)
    (uns : list (string * pyval)) (obsm : list (string * pyobj float)) : result AnnData :=
  if (fst (obj_shape X) =? df_len obs)%nat
     && (snd (obj_shape X) =? df_len var)%nat
     && forallb (fun e => (fst (obj_shape (snd e)) =? df_len obs)%nat) obsm
  then Ok {| adata_X := X; adata_obs := obs; adata_var := var;
             adata_uns := uns; adata_obsm := obsm |}
  else Err ValueError.

(** An annotated matrix as anndata keeps it. *)
Definition adata_wf (adata : AnnData) : Prop :=
  obj_shape (adata_X adata) = (df_len (adata_obs adata), df_len (adata_var adata)) /\
  df_wf (adata_obs adata) /\ df_wf (adata_var adata) /\
  Forall (fun e => fst (obj_shape (snd e)) = df_len (adata_obs adata)) (adata_obsm adata).

(** The function prints the number of neighbour columns; the printing is
    left out. *)
Definition matrix_to_adata (matrix : pyobj float) (adata : AnnData) : result AnnData :=
  let var_nbrs := index_add "_nbr" (adata_var adata) in
  let nbr_bool := repeat (VBool false) (df_len var_nbrs)
                  ++ repeat (VBool true) (df_len var_nbrs * 2 - df_len var_nbrs) in
  let var_combined := pd_concat (adata_var adata) var_nbrs in
  var_combined ← df_setitem "is_nbr" nbr_bool var_combined;
  anndata_init matrix (adata_obs adata) var_combined (adata_uns adata) (adata_obsm adata).

(** What the function prints as [num_nbrs]: [sum(nbr_bool)]. *)
Definition count_true_values (vs : list pyval) : nat :=
  length (List.filter (fun v => match v with VBool true => true | _ => false end) vs).

(** A small annotated matrix: two observations, two genes with one
    annotation column. *)
Definition genes : DataFrame :=
  {| df_index := ["g1"; "g2"]%string;
     df_columns := [("symbol"%string, [VStr "A"; VStr "B"])] |}.

Definition cells : DataFrame :=
  {| df_index := ["c1"; "c2"]%string; df_columns := [] |}.

Definition small_adata : AnnData :=
  {| adata_X := ONdArray two_by_two; adata_obs := cells; adata_var := genes;
     adata_uns := []; adata_obsm := [] |}.

Definition two_by_four : ndarray float :=
  {| nd_shape := (2%nat, 4%nat); nd_rows := [[1; 2; 3; 4]; [5; 6; 7; 8]]%float |}.


(** Two genes of which one is named like the neighbour of the other. *)
Definition clashing_adata : AnnData :=
  {| adata_X := ONdArray two_by_two; adata_obs := cells;
     adata_var := {| df_index := ["g"; "g_nbr"]%string; df_columns := [] |};
     adata_uns := []; adata_obsm := [] |}.

(** * Properties *)

(** ** binary64 arithmetic

    The facts about the processor's operations that the proofs need, read
    off their specification in [SpecFloat]. *)

Section Binary64.
Local Open Scope float_scope.

Lemma SFcompare_refl X : X <> S754_nan -> SFcompare X X = Some Eq.
Proof.
  destruct X as [s|s| |s m e]; simpl; intros H; try congruence.
  - destruct s; reflexivity.
  - rewrite Z.compare_refl, Pos.compare_cont_refl. destruct s; reflexivity.
Qed.

Lemma is_nan_spec x : is_nan x = match Prim2SF x with S754_nan => true | _ => false end.
Proof.
  unfold is_nan. rewrite FloatAxioms.eqb_spec. unfold SFeqb.
  destruct (Prim2SF x) eqn:E; try (rewrite SFcompare_refl by discriminate; reflexivity).
  reflexivity.
Qed.

Lemma is_infinity_spec x : is_infinity x = match Prim2SF x with S754_infinity _ => true | _ => false end.
Proof.
  unfold is_infinity. rewrite FloatAxioms.eqb_spec, FloatAxioms.abs_spec.
  change (Prim2SF infinity) with (S754_infinity false).
  destruct (Prim2SF x) as [s|s| |s m e]; reflexivity.
Qed.

Lemma is_finite_spec x :
  is_finite x = match Prim2SF x with S754_nan | S754_infinity _ => false | _ => true end.
Proof.
  unfold is_finite. rewrite is_nan_spec, is_infinity_spec.
  destruct (Prim2SF x); reflexivity.
Qed.

Lemma add_nonfinite_l x y : is_finite x = false -> is_finite (x + y) = false.
Proof.
  rewrite !is_finite_spec, FloatAxioms.add_spec. unfold SF64add.
  destruct (Prim2SF x) as [s|s| |s m e], (Prim2SF y) as [s'|s'| |s' m' e']; simpl; try congruence;
  destruct s, s'; simpl; congruence.
Qed.

Lemma add_nonfinite_r x y : is_finite y = false -> is_finite (x + y) = false.
Proof.
  rewrite !is_finite_spec, FloatAxioms.add_spec. unfold SF64add.
  destruct (Prim2SF x) as [s|s| |s m e], (Prim2SF y) as [s'|s'| |s' m' e']; simpl; try congruence;
  destruct s, s'; simpl; congruence.
Qed.

Lemma div_inf_nonfinite x s : is_infinity x = true -> is_finite s = false -> is_nan (x / s) = true.
Proof.
  rewrite is_infinity_spec, is_finite_spec, is_nan_spec, FloatAxioms.div_spec. unfold SF64div.
  destruct (Prim2SF x) as [a|a| |a m e], (Prim2SF s) as [b|b| |b m' e']; simpl; congruence.
Qed.

Lemma recip_zero x : (x =? 0) = true -> is_infinity (1 / x) = true.
Proof.
  rewrite FloatAxioms.eqb_spec, is_infinity_spec, FloatAxioms.div_spec.
  change (Prim2SF 0) with (S754_zero false). change (Prim2SF 1) with (S754_finite false 4503599627370496 (-52)).
  unfold SF64div, SFeqb.
  destruct (Prim2SF x) as [a|a| |a m e]; try (destruct a); simpl; congruence.
Qed.

Lemma eqb_not_ltb x t : (x =? t) = true -> (t <? x) = false.
Proof.
  rewrite FloatAxioms.eqb_spec, FloatAxioms.ltb_spec. unfold SFeqb, SFltb.
  destruct (Prim2SF x) as [a|a| |a m e], (Prim2SF t) as [b|b| |b m' e']; simpl; try congruence;
   try (destruct a, b; simpl; congruence).
  destruct a, b; simpl; try congruence.
  - destruct (Z.compare e e') eqn:E; try discriminate.
    apply Z.compare_eq in E; subst. rewrite Z.compare_refl.
    destruct (Pos.compare_cont Eq m m') eqn:E2; try discriminate.
    apply Pos.compare_eq in E2. subst. rewrite Pos.compare_cont_refl. reflexivity.
  - destruct (Z.compare e e') eqn:E; try discriminate.
    apply Z.compare_eq in E; subst. rewrite Z.compare_refl.
    destruct (Pos.compare_cont Eq m m') eqn:E2; try discriminate.
    apply Pos.compare_eq in E2. subst. rewrite Pos.compare_cont_refl. reflexivity.
Qed.


Lemma mul_zero_r x : is_finite x = true -> (x * 0 =? 0) = true.
Proof.
  rewrite is_finite_spec, FloatAxioms.eqb_spec, FloatAxioms.mul_spec.
  change (Prim2SF 0) with (S754_zero false).
  unfold SF64mul, SFeqb.
  destruct (Prim2SF x) as [a|a| |a m e]; try (destruct a); simpl in *; try congruence.
Qed.

Lemma digits2_pos_shift m n :
  Zpos (digits2_pos (Pos.iter xO m n)) = (Zpos (digits2_pos m) + Zpos n)%Z.
Proof.
  revert m. induction n using Pos.peano_ind; intros m.
  - simpl. lia.
  - rewrite Pos.iter_succ. simpl. rewrite Pos2Z.inj_succ, IHn. lia.
Qed.

Lemma iter_pos_shr_1_shift m :
  SpecFloat.iter_pos shr_1 52 (Build_shr_record (Zpos (Pos.iter xO m 52)) false false)
  = Build_shr_record (Zpos m) false false.
Proof. reflexivity. Qed.

Lemma mul_one_r x : x * 1 = x.
Proof.
  apply FloatAxioms.Prim2SF_inj. rewrite FloatAxioms.mul_spec.
  change (Prim2SF 1) with (S754_finite false 4503599627370496 (-52)).
  pose proof (FloatAxioms.Prim2SF_valid x) as V.
  destruct (Prim2SF x) as [a|a| |a m e]; simpl in *; try (destruct a; reflexivity); try reflexivity.
  unfold SF64mul, SFmul. rewrite xorb_false_r.
  unfold bounded, canonical_mantissa in V. apply andb_prop in V as [V1 V2].
  apply Z.eqb_eq in V1. apply Z.leb_le in V2.
  replace (m * 4503599627370496)%positive with (Pos.iter xO m 52).
  2:{ rewrite Pos.mul_comm. reflexivity. }
  unfold binary_round_aux, shr_fexp. unfold Zdigits2 at 1.
  rewrite digits2_pos_shift.
  replace (Z.pos (digits2_pos m) + 52 + (e + -52))%Z with (Z.pos (digits2_pos m) + e)%Z by lia.
  rewrite V1. replace (e - (e + -52))%Z with 52%Z by lia.
  unfold shr_record_of_loc, shr. rewrite iter_pos_shr_1_shift.
  cbn [shr_m loc_of_shr_record round_nearest_even Zdigits2].
  replace (e + -52 + 52)%Z with e by lia. rewrite V1, Z.sub_diag.
  cbn [shr_m]. apply Z.leb_le in V2. rewrite V2. reflexivity.
Qed.

Lemma nonfinite_neq_zero s : is_finite s = false -> (s =? 0) = false.
Proof.
  rewrite is_finite_spec, FloatAxioms.eqb_spec.
  change (Prim2SF 0) with (S754_zero false). unfold SFeqb.
  destruct (Prim2SF s) as [a|a| |a m e]; simpl; try congruence.
  destruct a; reflexivity.
Qed.

Lemma is_infinity_not_finite x : is_infinity x = true -> is_finite x = false.
Proof.
  rewrite is_infinity_spec, is_finite_spec.
  destruct (Prim2SF x); congruence.
Qed.





Lemma add_zero_zero x v : (x =? 0) = true -> (v =? 0) = true -> (x + v =? 0) = true.
Proof.
  rewrite !FloatAxioms.eqb_spec, FloatAxioms.add_spec.
  change (Prim2SF 0) with (S754_zero false). unfold SFeqb, SF64add.
  destruct (Prim2SF x) as [a|a| |a m e], (Prim2SF v) as [b|b| |b m' e'];
    try (destruct a); try (destruct b); simpl; congruence.
Qed.

End Binary64.

(** ** Summation *)

Lemma map2_length {B C D} (f : B -> C -> D) xs ys :
  length (map2 f xs ys) = Nat.min (length xs) (length ys).
Proof.
  revert ys. induction xs as [|x xs IH]; intros [|y ys]; simpl; auto.
Qed.

Lemma sum_blocks_length `{Dtype A} (k : nat) : forall (r a : list A),
  length r = 8%nat -> (8 * k <= length a)%nat ->
  length (fst (sum_blocks k r a)) = 8%nat /\
  length (snd (sum_blocks k r a)) = (length a - 8 * k)%nat.
Proof.
  induction k as [|k IH]; intros r a Hr Ha; cbn [sum_blocks fst snd].
  - split; [exact Hr | lia].
  - destruct (IH (map2 dt_add r (firstn 8 a)) (skipn 8 a)) as [H1 H2].
    + rewrite map2_length, length_firstn. lia.
    + rewrite length_skipn. lia.
    + split; [exact H1|]. rewrite H2, length_skipn. lia.
Qed.

Lemma eight_total {B} (r : list B) :
  length r = 8%nat ->
  exists r0 r1 r2 r3 r4 r5 r6 r7, r = [r0; r1; r2; r3; r4; r5; r6; r7].
Proof.
  intros Hr.
  do 8 (destruct r as [|? r]; [discriminate Hr|]).
  destruct r; [|discriminate Hr].
  eexists _, _, _, _, _, _, _, _. reflexivity.
Qed.

Lemma blocks_fit (n : nat) : (8 <= n)%nat -> (8 * (n / 8 - 1) <= n - 8)%nat.
Proof.
  intros Hn. pose proof (Nat.div_mod_eq n 8) as E.
  pose proof (Nat.mod_upper_bound n 8). lia.
Qed.

Lemma split_point (n : nat) :
  (128 < n)%nat -> (0 < n / 2 - (n / 2) mod 8 < n)%nat.
Proof.
  intros Hn. pose proof (Nat.div_mod_eq n 2) as E.
  pose proof (Nat.mod_upper_bound n 2).
  pose proof (Nat.mod_upper_bound (n / 2) 8). lia.
Qed.

(** The depth bound never cuts the recursion short: from the length of the
    array on, more fuel changes nothing. *)
Lemma pairwise_sum_fuel `{Dtype A} (f1 : nat) : forall (f2 : nat) (a : list A),
  (length a <= f1)%nat -> (length a <= f2)%nat ->
  pairwise_sum f1 a = pairwise_sum f2 a.
Proof.
  induction f1 as [|f1 IH]; intros f2 a H1 H2.
  - destruct a; [|simpl in H1; lia]. destruct f2; reflexivity.
  - destruct f2 as [|f2].
    + destruct a; [|simpl in H2; lia]. reflexivity.
    + cbn [pairwise_sum].
      destruct (length a <? 8)%nat eqn:E8; [reflexivity|].
      destruct (length a <=? 128)%nat eqn:E128; [reflexivity|].
      apply Nat.leb_gt in E128. pose proof (split_point _ E128) as Hn2.
      f_equal; apply IH; rewrite ?length_firstn, ?length_skipn; lia.
Qed.

(** *** A term that is not finite *)

Section SumNonFinite.
Local Open Scope float_scope.

Lemma sum_loop_nonfinite (l : list float) (res : float) :
  nonfinite res \/ Exists nonfinite l -> nonfinite (sum_loop res l).
Proof.
  unfold sum_loop. revert res. induction l as [|y l IH]; intros res [Hr|Hl].
  - exact Hr.
  - inversion Hl.
  - simpl. apply IH. left. apply add_nonfinite_l. exact Hr.
  - simpl. apply IH. inversion Hl; subst.
    + left. apply add_nonfinite_r. assumption.
    + right. assumption.
Qed.

Lemma map2_add_nonfinite (r b : list float) :
  length r = length b ->
  Exists nonfinite r \/ Exists nonfinite b ->
  Exists nonfinite (map2 PrimFloat.add r b).
Proof.
  revert b. induction r as [|x r IH]; intros [|y b] Hlen Hex; try discriminate.
  - destruct Hex as [Hex|Hex]; inversion Hex.
  - simpl. injection Hlen as Hlen.
    destruct Hex as [Hex|Hex]; inversion Hex; subst.
    + left. apply add_nonfinite_l. assumption.
    + right. apply IH; auto.
    + left. apply add_nonfinite_r. assumption.
    + right. apply IH; auto.
Qed.

Lemma Exists_firstn_skipn {B} (P : B -> Prop) (n : nat) (l : list B) :
  Exists P l -> Exists P (firstn n l) \/ Exists P (skipn n l).
Proof.
  intros Hex. rewrite <- (firstn_skipn n l) in Hex.
  apply Exists_app in Hex. exact Hex.
Qed.

Lemma sum_blocks_nonfinite (k : nat) : forall (r a : list float),
  length r = 8%nat -> (8 * k <= length a)%nat ->
  Exists nonfinite r \/ Exists nonfinite a ->
  Exists nonfinite (fst (sum_blocks k r a)) \/
  Exists nonfinite (snd (sum_blocks k r a)).
Proof.
  induction k as [|k IH]; intros r a Hr Ha Hex; cbn [sum_blocks fst snd].
  - exact Hex.
  - assert (H8 : length (firstn 8 a) = 8%nat) by (rewrite length_firstn; lia).
    apply IH.
    + rewrite map2_length, H8, Hr. reflexivity.
    + rewrite length_skipn. lia.
    + destruct Hex as [Hex|Hex].
      * left. apply map2_add_nonfinite; [congruence | left; exact Hex].
      * destruct (Exists_firstn_skipn _ 8 _ Hex) as [Hf|Hs].
        -- left. apply map2_add_nonfinite; [congruence | right; exact Hf].
        -- right. exact Hs.
Qed.

Lemma sum_unrolled_nonfinite (a : list float) :
  (8 <= length a)%nat -> Exists nonfinite a -> nonfinite (sum_unrolled a).
Proof.
  intros Hlen Hex. unfold sum_unrolled.
  assert (H8 : length (firstn 8 a) = 8%nat) by (rewrite length_firstn; lia).
  assert (Hk : (8 * (length a / 8 - 1) <= length (skipn 8 a))%nat)
    by (rewrite length_skipn; apply blocks_fit; exact Hlen).
  pose proof (sum_blocks_length (length a / 8 - 1) _ _ H8 Hk) as [Hr _].
  pose proof (sum_blocks_nonfinite (length a / 8 - 1) _ _ H8 Hk
                (Exists_firstn_skipn _ 8 _ Hex)) as Hn.
  destruct (sum_blocks (length a / 8 - 1) (firstn 8 a) (skipn 8 a)) as [r rest].
  cbn [fst snd] in Hr, Hn.
  destruct (eight_total r Hr) as (r0 & r1 & r2 & r3 & r4 & r5 & r6 & r7 & ->).
  apply sum_loop_nonfinite.
  destruct Hn as [Hn|Hn]; [left|right; exact Hn].
  simpl dt_add.
  unfold nonfinite in *.
  repeat match goal with
         | H : Exists _ (_ :: _) |- _ => inversion H; clear H; subst
         | H : Exists _ [] |- _ => inversion H
         end;
  auto 6 using add_nonfinite_l, add_nonfinite_r.
Qed.

Lemma pairwise_sum_nonfinite (fuel : nat) : forall (a : list float),
  Exists nonfinite a -> nonfinite (pairwise_sum fuel a).
Proof.
  induction fuel as [|fuel IH]; intros a Hex; cbn [pairwise_sum];
    destruct (length a <? 8)%nat eqn:E8;
    try (apply sum_loop_nonfinite; right; exact Hex);
    apply Nat.ltb_ge in E8;
    destruct (length a <=? 128)%nat;
    try (apply sum_unrolled_nonfinite; assumption).
  simpl dt_add.
  destruct (Exists_firstn_skipn _ (length a / 2 - (length a / 2) mod 8) _ Hex) as [Hf|Hs].
  - apply add_nonfinite_l. apply IH. exact Hf.
  - apply add_nonfinite_r. apply IH. exact Hs.
Qed.

(** A sum with an infinite or undefined term is infinite or undefined. *)
Lemma np_sum_nonfinite (l : list float) (x : float) :
  In x l -> is_finite x = false -> is_finite (np_sum l) = false.
Proof.
  intros Hin Hx. unfold np_sum. simpl dt_add. apply add_nonfinite_r.
  apply pairwise_sum_nonfinite. apply List.Exists_exists. exists x. split; assumption.
Qed.

End SumNonFinite.

(** *** Exact arithmetic *)

Section SumExact.
Local Open Scope Q_scope.

Lemma total_app (l1 l2 : list Q) : total (l1 ++ l2) == total l1 + total l2.
Proof.
  induction l1 as [|x l1 IH]; simpl; [ring|]. rewrite IH. ring.
Qed.

Lemma sum_loop_exact (l : list Q) (res : Q) : sum_loop res l == res + total l.
Proof.
  unfold sum_loop. revert res. induction l as [|x l IH]; intros res; simpl; [ring|].
  rewrite IH. ring.
Qed.

Lemma total_map2 (r b : list Q) :
  length r = length b -> total (map2 Qplus r b) == total r + total b.
Proof.
  revert b. induction r as [|x r IH]; intros [|y b] Hlen; try discriminate; simpl; [ring|].
  injection Hlen as Hlen. rewrite (IH _ Hlen). ring.
Qed.

Lemma total_firstn_skipn (n : nat) (l : list Q) :
  total l == total (firstn n l) + total (skipn n l).
Proof. rewrite <- total_app, firstn_skipn. reflexivity. Qed.

Lemma sum_blocks_exact (k : nat) : forall (r a : list Q),
  length r = 8%nat -> (8 * k <= length a)%nat ->
  total (fst (sum_blocks k r a)) + total (snd (sum_blocks k r a)) == total r + total a.
Proof.
  induction k as [|k IH]; intros r a Hr Ha; cbn [sum_blocks fst snd]; [reflexivity|].
  assert (H8 : length (firstn 8 a) = 8%nat) by (rewrite length_firstn; lia).
  rewrite IH.
  - simpl dt_add. rewrite total_map2 by congruence.
    rewrite (total_firstn_skipn 8 a). ring.
  - rewrite map2_length, H8, Hr. reflexivity.
  - rewrite length_skipn. lia.
Qed.

Lemma sum_unrolled_exact (a : list Q) :
  (8 <= length a)%nat -> sum_unrolled a == total a.
Proof.
  intros Hlen. unfold sum_unrolled.
  assert (H8 : length (firstn 8 a) = 8%nat) by (rewrite length_firstn; lia).
  assert (Hk : (8 * (length a / 8 - 1) <= length (skipn 8 a))%nat)
    by (rewrite length_skipn; apply blocks_fit; exact Hlen).
  pose proof (sum_blocks_length (length a / 8 - 1) _ _ H8 Hk) as [Hr _].
  pose proof (sum_blocks_exact (length a / 8 - 1) _ _ H8 Hk) as Hs.
  destruct (sum_blocks (length a / 8 - 1) (firstn 8 a) (skipn 8 a)) as [r rest].
  cbn [fst snd] in Hr, Hs.
  destruct (eight_total r Hr) as (r0 & r1 & r2 & r3 & r4 & r5 & r6 & r7 & ->).
  rewrite sum_loop_exact. rewrite (total_firstn_skipn 8 a), <- Hs.
  simpl. ring.
Qed.

Lemma pairwise_sum_exact (fuel : nat) : forall (a : list Q),
  pairwise_sum fuel a == total a.
Proof.
  induction fuel as [|fuel IH]; intros a; cbn [pairwise_sum];
    destruct (length a <? 8)%nat eqn:E8;
    try (rewrite sum_loop_exact; simpl; ring);
    apply Nat.ltb_ge in E8;
    destruct (length a <=? 128)%nat;
    try (apply sum_unrolled_exact; assumption).
  simpl dt_add. rewrite !IH. symmetry. apply total_firstn_skipn.
Qed.

(** Over the rationals [sum] is the sum. *)
Lemma np_sum_exact (l : list Q) : np_sum l == total l.
Proof. unfold np_sum. simpl dt_add. rewrite pairwise_sum_exact. simpl. ring. Qed.

Lemma total_div (l : list Q) (s : Q) :
  ~ s == 0 -> total (map (fun x => x / s) l) == total l / s.
Proof.
  intros Hs. induction l as [|x l IH]; simpl; [field; exact Hs|].
  rewrite IH. field. exact Hs.
Qed.

End SumExact.


(** ** Running computations *)

Lemma result_bind_ok {X Y} (x : X) (k : X -> result Y) : (Ok x ≫= k) = k x.
Proof. reflexivity. Qed.

Lemma run_bind {A X Y} (m : Py A X) (k : X -> Py A Y) (w : world A) :
  (m ≫= k) w = match m w with
               | (Ok x, w') => k x w'
               | (Err e, w') => (Err e, w')
               end.
Proof. reflexivity. Qed.

Lemma run_ret {A X} (x : X) (w : world A) : (mret x : Py A X) w = (Ok x, w).
Proof. reflexivity. Qed.

Lemma run_load {A} (l : loc) (o : pyobj A) (w : world A) :
  heap w !! l = Some o -> load l w = (Ok o, w).
Proof. intros E. unfold load. rewrite E. reflexivity. Qed.

Lemma run_load_csr {A} (l : loc) (g : csr A) (w : world A) :
  heap w !! l = Some (OCsr g) -> load_csr l w = (Ok g, w).
Proof. intros E. unfold load_csr. rewrite run_bind, (run_load _ _ _ E). reflexivity. Qed.

Lemma heap_with_heap {A} (h : gmap loc (pyobj A)) (w : world A) : heap (with_heap h w) = h.
Proof. reflexivity. Qed.

Lemma with_heap_twice {A} (h h' : gmap loc (pyobj A)) (w : world A) :
  with_heap h (with_heap h' w) = with_heap h w.
Proof. reflexivity. Qed.

Lemma fresh_not_in {A} (h : gmap loc (pyobj A)) : h !! fresh (dom h) = None.
Proof. apply not_elem_of_dom. apply is_fresh. Qed.

Lemma fresh_ne {A} (h : gmap loc (pyobj A)) l o : h !! l = Some o -> fresh (dom h) <> l.
Proof. intros E <-. rewrite fresh_not_in in E. discriminate. Qed.

Lemma run_copy_or_not {A} (copy_ : bool) (graph : loc) (o : pyobj A) (w : world A) :
  heap w !! graph = Some o ->
  (if copy_ then copy graph else mret graph) w
  = (Ok (target copy_ graph w), with_heap (<[target copy_ graph w := o]> (heap w)) w).
Proof.
  intros E. unfold target. destruct copy_.
  - unfold copy. rewrite run_bind, (run_load _ _ _ E). reflexivity.
  - rewrite run_ret, insert_id by exact E. destruct w; reflexivity.
Qed.


(** ** Arrays: positions, masks and slices *)

Lemma np_where_from_ge i mask p : In p (np_where_from i mask) -> (i <= p)%nat.
Proof.
  revert i. induction mask as [|b mask IH]; intros i; simpl; [tauto|].
  destruct b; simpl; [intros [<-|H]|intros H]; try lia; apply IH in H; lia.
Qed.

Lemma np_where_from_lt i mask p :
  In p (np_where_from i mask) -> (p < i + length mask)%nat.
Proof.
  revert i. induction mask as [|b mask IH]; intros i; simpl; [tauto|].
  destruct b; simpl; [intros [<-|H]|intros H]; try lia; apply IH in H; lia.
Qed.

Lemma marked_where_below i j mask : (j < i)%nat -> marked (np_where_from i mask) j = false.
Proof.
  intros Hlt. unfold marked. apply not_true_is_false. intros H.
  apply existsb_exists in H as (p & Hp & E). apply Nat.eqb_eq in E. subst p.
  apply np_where_from_ge in Hp. lia.
Qed.

Lemma np_delete_from_skip {B} j (arr : list B) p obj :
  (p < j)%nat -> np_delete_from j arr (p :: obj) = np_delete_from j arr obj.
Proof.
  revert j. induction arr as [|x arr IH]; intros j Hlt; simpl; [reflexivity|].
  replace (j =? p)%nat with false by (symmetry; apply Nat.eqb_neq; lia).
  simpl. rewrite !IH by lia. reflexivity.
Qed.

Lemma np_delete_from_nil {B} i (arr : list B) : np_delete_from i arr [] = arr.
Proof.
  revert i. induction arr as [|x arr IH]; intros i; simpl; [|rewrite IH]; reflexivity.
Qed.

Lemma np_delete_from_where {B} i (arr : list B) mask :
  np_delete_from i arr (np_where_from i mask) = drop_masked mask arr.
Proof.
  revert i arr. induction mask as [|b mask IH]; intros i arr.
  - simpl. rewrite np_delete_from_nil. destruct arr; reflexivity.
  - destruct arr as [|x arr]; [destruct b; reflexivity|].
    destruct b; simpl.
    + rewrite Nat.eqb_refl. simpl. rewrite np_delete_from_skip by lia. apply IH.
    + rewrite marked_where_below by lia. rewrite IH. reflexivity.
Qed.

Lemma np_delete_where {B} (arr : list B) mask :
  (length mask <= length arr)%nat ->
  np_delete arr (np_where mask) = Ok (drop_masked mask arr).
Proof.
  intros Hlen. unfold np_delete, np_where.
  rewrite np_delete_from_where.
  replace (forallb _ _) with true; [reflexivity|].
  symmetry. apply forallb_forall. intros p Hp.
  apply np_where_from_lt in Hp. apply Nat.ltb_lt. lia.
Qed.

Lemma drop_masked_filter {B} (f : B -> bool) (arr : list B) :
  drop_masked (map f arr) arr = List.filter (fun x => negb (f x)) arr.
Proof.
  induction arr as [|x arr IH]; simpl; [reflexivity|].
  destruct (f x); simpl; rewrite IH; reflexivity.
Qed.

Lemma drop_masked_length {B} mask (arr : list B) :
  length mask = length arr -> length (drop_masked mask arr) = count_false mask.
Proof.
  revert arr. unfold count_false.
  induction mask as [|b mask IH]; intros [|x arr] Hlen; simpl in *; try lia.
  destruct b; simpl; rewrite IH by lia; reflexivity.
Qed.

Lemma drop_masked_app {B} m1 m2 (a1 a2 : list B) :
  length m1 = length a1 ->
  drop_masked (m1 ++ m2) (a1 ++ a2) = drop_masked m1 a1 ++ drop_masked m2 a2.
Proof.
  revert a1. induction m1 as [|b m1 IH]; intros [|x a1] Hlen; simpl in *; try lia.
  - reflexivity.
  - destruct b; simpl; rewrite IH by lia; reflexivity.
Qed.

Lemma count_true_false mask : (count_true mask + count_false mask = length mask)%nat.
Proof.
  unfold count_true, count_false.
  induction mask as [|[] mask IH]; simpl; lia.
Qed.

Lemma count_false_app m1 m2 : count_false (m1 ++ m2) = (count_false m1 + count_false m2)%nat.
Proof. unfold count_false. rewrite List.filter_app, length_app. reflexivity. Qed.

(** The positions below [v] among those [np.where] returns are the marks of
    the first [v] entries. *)
Lemma searchsorted_left_where_from i mask v :
  length (List.filter (fun p => Z.of_nat p <? v) (np_where_from i mask))
  = count_true (firstn (Z.to_nat v - i) mask).
Proof.
  revert i. induction mask as [|b mask IH]; intros i.
  - simpl. rewrite firstn_nil. reflexivity.
  - destruct (Z.ltb_spec (Z.of_nat i) v) as [Hlt|Hge].
    + replace (Z.to_nat v - i)%nat with (S (Z.to_nat v - S i)) by lia.
      rewrite firstn_cons. unfold count_true in *. destruct b; simpl.
      * destruct (Z.ltb_spec (Z.of_nat i) v); [|lia]. simpl. rewrite IH. reflexivity.
      * apply IH.
    + replace (Z.to_nat v - i)%nat with 0%nat by lia. simpl firstn.
      transitivity 0%nat; [|reflexivity].
      apply length_zero_iff_nil.
      destruct (List.filter _ _) as [|p l] eqn:E; [reflexivity|exfalso].
      assert (Hin : In p (List.filter (fun p => Z.of_nat p <? v) (np_where_from i (b :: mask))))
        by (rewrite E; left; reflexivity).
      apply filter_In in Hin as [Hin Hp]. apply np_where_from_ge in Hin.
      apply Z.ltb_lt in Hp. lia.
Qed.

Lemma searchsorted_left_where mask v :
  searchsorted_left (np_where mask) v = Z.of_nat (count_true (firstn (Z.to_nat v) mask)).
Proof.
  unfold searchsorted_left, np_where. rewrite searchsorted_left_where_from.
  rewrite Nat.sub_0_r. reflexivity.
Qed.

Lemma searchsorted_right_left a v : searchsorted_right a v = searchsorted_left a (v + 1).
Proof.
  unfold searchsorted_right, searchsorted_left. do 2 f_equal.
  apply List.filter_ext. intros p.
  destruct (Z.leb_spec (Z.of_nat p) v), (Z.ltb_spec (Z.of_nat p) (v + 1)); lia || reflexivity.
Qed.

Lemma searchsorted_right_where_last mask v :
  Z.of_nat (length mask) <= v ->
  searchsorted_right (np_where mask) v = searchsorted_left (np_where mask) v.
Proof.
  intros Hv. rewrite searchsorted_right_left, !searchsorted_left_where.
  rewrite !firstn_all2 by lia. reflexivity.
Qed.

Lemma but_last_last_only {B} (l : list B) : but_last l ++ last_only l = l.
Proof. apply firstn_skipn. Qed.

Lemma last_only_last {B} (l : list B) x : last l = Some x -> last_only l = [x].
Proof.
  unfold last_only. induction l as [|y l IH]; simpl; [discriminate|].
  destruct l as [|z l]; simpl in *.
  - intros [= ->]. reflexivity.
  - intros H. rewrite Nat.sub_0_r in IH. apply IH in H. exact H.
Qed.

Lemma but_last_cons {B} (x y : B) l : but_last (x :: y :: l) = x :: but_last (y :: l).
Proof. unfold but_last. simpl. rewrite Nat.sub_0_r. reflexivity. Qed.

Lemma np_diff_cons a b l : np_diff (a :: b :: l) = (b - a) :: np_diff (b :: l).
Proof. unfold np_diff. rewrite but_last_cons. reflexivity. Qed.

Lemma np_cumsum_from_diff acc a l :
  np_cumsum_from acc (np_diff (a :: l)) = map (fun x => acc + (x - a)) l.
Proof.
  revert acc a. induction l as [|b l IH]; intros acc a; [reflexivity|].
  rewrite np_diff_cons. simpl. rewrite IH. f_equal.
  apply map_ext. intros x. lia.
Qed.

Lemma map2_map_r {B C D E} (f : B -> D -> E) (g : C -> D) xs ys :
  map2 f xs (map g ys) = map2 (fun x y => f x (g y)) xs ys.
Proof.
  revert ys. induction xs as [|x xs IH]; intros [|y ys]; simpl; try reflexivity.
  rewrite IH. reflexivity.
Qed.

Lemma map2_diag {B C} (f : B -> B -> C) xs : map2 f xs xs = map (fun x => f x x) xs.
Proof. induction xs as [|x xs IH]; simpl; [|rewrite IH]; reflexivity. Qed.

(** ** The row pointers of a well-formed graph *)

Lemma row_bounds_in p lo hi :
  In (lo, hi) (row_bounds p) ->
  exists i, nth_error p i = Some lo /\ nth_error p (S i) = Some hi.
Proof.
  unfold row_bounds. induction p as [|x p IH]; [simpl; tauto|].
  destruct p as [|y p]; [simpl; tauto|].
  rewrite but_last_cons. simpl tl. simpl combine. intros [E|H].
  - inversion E; subst. exists 0%nat. split; reflexivity.
  - apply IH in H as (i & H1 & H2). exists (S i). split; assumption.
Qed.

Lemma nondecreasing_bins p : nondecreasing p -> bins_increase p = true.
Proof.
  intros Hmono. unfold bins_increase. apply forallb_forall. intros [lo hi] Hin.
  apply row_bounds_in in Hin as (i & H1 & H2).
  apply Z.leb_le. apply (Hmono i (S i)); auto.
Qed.

Lemma bins_increase_cons x y l :
  bins_increase (x :: y :: l) = (x <=? y) && bins_increase (y :: l).
Proof. unfold bins_increase. rewrite but_last_cons. reflexivity. Qed.

Lemma bins_nondecreasing p : bins_increase p = true -> nondecreasing p.
Proof.
  induction p as [|x p IH]; intros Hb i j a b Hij Hi Hj.
  - rewrite nth_error_nil in Hi. discriminate.
  - destruct p as [|y l].
    + destruct i, j; simpl in *; try rewrite nth_error_nil in *; try discriminate.
      injection Hi as <-. injection Hj as <-. lia.
    + rewrite bins_increase_cons in Hb. apply andb_prop in Hb as [Hxy Hb].
      apply Z.leb_le in Hxy. specialize (IH Hb).
      destruct i as [|i], j as [|j]; simpl in Hi, Hj; try lia.
      * injection Hi as <-. injection Hj as <-. lia.
      * injection Hi as <-. transitivity y; [exact Hxy|].
        apply (IH 0%nat j); auto; lia.
      * apply (IH i j); auto; lia.
Qed.

Lemma last_nth_error {B} (l : list B) x :
  last l = Some x -> nth_error l (length l - 1) = Some x.
Proof.
  induction l as [|y l IH]; simpl; [discriminate|].
  destruct l as [|z l]; simpl in *.
  - intros [= ->]. reflexivity.
  - rewrite Nat.sub_0_r in IH. exact IH.
Qed.

Lemma head_nth_error {B} (l : list B) x : head l = Some x -> nth_error l 0 = Some x.
Proof. destruct l; simpl; congruence. Qed.

Lemma csr_inv_bounds {A} (g : csr A) : csr_inv g ->
  Forall (fun b => 0 <= b <= Z.of_nat (length (data g))) (indptr g).
Proof.
  intros [Hm Hf Hl _]. apply List.Forall_forall. intros b Hb.
  apply In_nth_error in Hb as [i Hi].
  assert (i < length (indptr g))%nat by (apply nth_error_Some; congruence).
  apply head_nth_error in Hf. apply last_nth_error in Hl. split.
  - apply (Hm 0%nat i); auto; lia.
  - apply (Hm i (length (indptr g) - 1)%nat); auto; lia.
Qed.

Lemma kept_before_0 mask : kept_before mask 0 = 0.
Proof. reflexivity. Qed.

Lemma kept_before_left mask b :
  0 <= b <= Z.of_nat (length mask) ->
  b - searchsorted_left (np_where mask) b = kept_before mask b.
Proof.
  intros Hb. rewrite searchsorted_left_where. unfold kept_before.
  pose proof (count_true_false (firstn (Z.to_nat b) mask)) as H.
  rewrite length_firstn, Nat.min_l in H by lia.
  generalize dependent (count_true (firstn (Z.to_nat b) mask)).
  generalize (count_false (firstn (Z.to_nat b) mask)). intros. lia.
Qed.

Lemma kept_before_mono mask a b : a <= b -> kept_before mask a <= kept_before mask b.
Proof.
  intros Hab. unfold kept_before. apply inj_le.
  destruct (Z.le_gt_cases 0 a) as [Ha|Ha].
  - replace (Z.to_nat b) with (Z.to_nat a + (Z.to_nat b - Z.to_nat a))%nat by lia.
    rewrite <- (firstn_skipn (Z.to_nat a) (firstn (Z.to_nat a + _) mask)).
    rewrite count_false_app, firstn_firstn.
    replace (Init.Nat.min _ _) with (Z.to_nat a) by lia. lia.
  - replace (Z.to_nat a) with 0%nat by lia. simpl. unfold count_false. simpl. lia.
Qed.

Lemma kept_before_all mask b :
  Z.of_nat (length mask) <= b -> kept_before mask b = Z.of_nat (count_false mask).
Proof. intros Hb. unfold kept_before. rewrite firstn_all2 by lia. reflexivity. Qed.

(** The histogram, its running total and the in-place subtraction leave,
    at every row boundary, the number of entries kept before it. *)
Lemma indptr_update mask p :
  head p = Some 0 -> last p = Some (Z.of_nat (length mask)) ->
  Forall (fun b => 0 <= b <= Z.of_nat (length mask)) p ->
  match p with
  | [] => []
  | p0 :: rest =>
      p0 :: map2 Z.sub rest
              (np_cumsum (np_diff (search_sorted_inclusive (np_where mask) p)))
  end = map (kept_before mask) p.
Proof.
  intros Hh Hl Hb.
  assert (Hs : search_sorted_inclusive (np_where mask) p
               = map (searchsorted_left (np_where mask)) p).
  { unfold search_sorted_inclusive. rewrite (last_only_last _ _ Hl). simpl map at 2.
    rewrite searchsorted_right_where_last by lia.
    rewrite <- (but_last_last_only p) at 2. rewrite map_app.
    rewrite (last_only_last _ _ Hl). reflexivity. }
  rewrite Hs. destruct p as [|p0 rest]; [reflexivity|].
  simpl in Hh. injection Hh as ->. simpl map.
  unfold np_cumsum. rewrite np_cumsum_from_diff, kept_before_0. f_equal.
  rewrite map_map, map2_map_r, map2_diag.
  apply map_ext_in. intros b Hin.
  inversion Hb as [|? ? _ Hrest]; subst.
  rewrite List.Forall_forall in Hrest. specialize (Hrest b Hin).
  rewrite <- kept_before_left by lia. rewrite !searchsorted_left_where.
  change (count_true (firstn (Z.to_nat 0) mask)) with 0%nat. lia.
Qed.

Lemma gt_mask_length `{Dtype A} t (arr : list A) : length (gt_mask t arr) = length arr.
Proof. apply length_map. Qed.

(** The graph CSR Filter leaves behind. *)
Lemma run_remove_greater_than `{Dtype A} (w : world A) graph (g : csr A) t copy_ verbose :
  heap w !! graph = Some (OCsr g) -> csr_inv g ->
  remove_greater_than graph t copy_ verbose w
  = (Ok (target copy_ graph w),
     with_heap (<[target copy_ graph w :=
                   OCsr {| data := drop_masked (gt_mask t (data g)) (data g);
                           indices := drop_masked (gt_mask t (data g)) (indices g);
                           indptr := map (kept_before (gt_mask t (data g))) (indptr g);
                           shape := shape g |}]> (heap w)) w).
Proof.
  intros Hg Hinv. pose proof (csr_inv_bounds g Hinv) as Hb.
  destruct Hinv as [Hm Hf Hl Hlen].
  unfold remove_greater_than.
  rewrite run_bind, (run_copy_or_not _ _ _ _ Hg).
  set (l := target copy_ graph w).
  rewrite run_bind, (run_load_csr l g) by (simpl; apply lookup_insert_eq).
  rewrite run_bind. unfold lift at 1.
  rewrite np_delete_where by (rewrite gt_mask_length; lia).
  rewrite run_bind. unfold store at 1. rewrite with_heap_twice, heap_with_heap, insert_insert_eq.
  rewrite run_bind, (run_load_csr l (set_data _ g)) by (simpl; apply lookup_insert_eq).
  rewrite run_bind. unfold lift at 1. cbn [set_data indices data].
  rewrite np_delete_where by (rewrite gt_mask_length; lia).
  rewrite run_bind. unfold store at 1. rewrite with_heap_twice, heap_with_heap, insert_insert_eq.
  rewrite run_bind, (run_load_csr l (set_indices _ (set_data _ g)))
    by (simpl; apply lookup_insert_eq).
  rewrite run_bind. unfold lift at 1. cbn [set_indices set_data indptr].
  unfold np_histogram. rewrite nondecreasing_bins by assumption.
  rewrite run_bind. unfold store at 1. rewrite with_heap_twice, heap_with_heap, insert_insert_eq.
  rewrite run_ret. do 3 f_equal. unfold set_indptr.
  rewrite <- (gt_mask_length t (data g)) in Hl, Hb.
  rewrite indptr_update by assumption. reflexivity.
Qed.

(** ** Rows of the filtered graph *)

Lemma py_bound_in len x : 0 <= x <= Z.of_nat len -> py_bound len x = Z.to_nat x.
Proof.
  intros Hx. unfold py_bound. destruct (Z.ltb_spec x 0); [lia|].
  rewrite Z.min_l by lia. reflexivity.
Qed.

Lemma slice_split {B} (l : list B) na nb : (na <= nb)%nat ->
  l = firstn na l ++ firstn (nb - na) (skipn na l) ++ skipn nb l.
Proof.
  intros Hle. rewrite <- (firstn_skipn na l) at 1. f_equal.
  rewrite <- (firstn_skipn (nb - na) (skipn na l)) at 1. f_equal.
  rewrite skipn_skipn. f_equal. lia.
Qed.

Lemma drop_masked_slice_aux {B} m1 m2 m3 (a1 a2 a3 : list B) mask :
  length m1 = length a1 -> length m2 = length a2 ->
  mask = m1 ++ m2 ++ m3 ->
  firstn (count_false (m1 ++ m2) - count_false m1)
         (skipn (count_false m1) (drop_masked mask (a1 ++ a2 ++ a3)))
  = drop_masked m2 a2.
Proof.
  intros L1 L2 ->. rewrite !drop_masked_app by assumption.
  rewrite <- (drop_masked_length m1 a1 L1).
  rewrite skipn_app, skipn_all, Nat.sub_diag. simpl.
  rewrite count_false_app, (drop_masked_length m1 a1 L1).
  replace (_ + _ - _)%nat with (count_false m2) by lia.
  rewrite <- (drop_masked_length m2 a2 L2). rewrite skipn_O.
  rewrite firstn_app, firstn_all, Nat.sub_diag. simpl. apply app_nil_r.
Qed.

Lemma py_slice_drop_masked {B} mask (arr : list B) a b :
  length mask = length arr ->
  0 <= a <= Z.of_nat (length arr) -> 0 <= b <= Z.of_nat (length arr) ->
  py_slice (drop_masked mask arr) (kept_before mask a) (kept_before mask b)
  = drop_masked (py_slice mask a b) (py_slice arr a b).
Proof.
  intros Hlen Ha Hb.
  assert (Hall : Z.of_nat (length (drop_masked mask arr)) = kept_before mask (Z.of_nat (length arr))).
  { rewrite drop_masked_length by assumption. rewrite kept_before_all by lia. reflexivity. }
  assert (Hk0 : forall x, 0 <= kept_before mask x) by (intros; unfold kept_before; lia).
  unfold py_slice.
  rewrite !py_bound_in; try lia;
    try (split; [apply Hk0|rewrite Hall; apply kept_before_mono; lia]).
  unfold kept_before. rewrite !Nat2Z.id.
  set (na := Z.to_nat a). set (nb := Z.to_nat b).
  destruct (Nat.le_gt_cases na nb) as [Hle|Hgt].
  - pose proof (slice_split mask na nb Hle) as Em.
    pose proof (slice_split arr na nb Hle) as Ea.
    assert (E12 : firstn nb mask = firstn na mask ++ firstn (nb - na) (skipn na mask)).
    { rewrite firstn_skipn_comm.
      replace (na + (nb - na))%nat with nb by lia.
      rewrite <- (firstn_skipn na (firstn nb mask)) at 1.
      rewrite firstn_firstn. replace (Init.Nat.min na nb) with na by lia.
      reflexivity. }
    rewrite E12.
    assert (L1 : length (firstn na mask) = length (firstn na arr))
      by (rewrite !length_firstn; lia).
    assert (L2 : length (firstn (nb - na) (skipn na mask))
                 = length (firstn (nb - na) (skipn na arr)))
      by (rewrite !length_firstn, !length_skipn; lia).
    pose proof (drop_masked_slice_aux _ _ (skipn nb mask) (firstn na arr)
                  (firstn (nb - na) (skipn na arr)) (skipn nb arr) mask L1 L2 Em) as G.
    rewrite <- Ea in G. exact G.
  - replace (nb - na)%nat with 0%nat by lia. simpl.
    replace (_ - _)%nat with 0%nat; [reflexivity|].
    pose proof (kept_before_mono mask b a ltac:(lia)) as Hm.
    unfold kept_before in Hm. fold na nb in Hm. lia.
Qed.

Lemma nth_bounds (p : list Z) (P : Z -> Prop) i : P 0 -> Forall P p -> P (nth i p 0).
Proof.
  intros H0 HF. destruct (Nat.lt_ge_cases i (length p)) as [Hi|Hi].
  - rewrite List.Forall_forall in HF. apply HF, nth_In, Hi.
  - rewrite nth_overflow by lia. exact H0.
Qed.

Lemma nth_kept_before mask p i :
  nth i (map (kept_before mask) p) 0 = kept_before mask (nth i p 0).
Proof. rewrite <- (kept_before_0 mask) at 1. apply map_nth. Qed.

Lemma py_slice_map_commute {B C} (f : B -> C) (l : list B) a b :
  py_slice (map f l) a b = map f (py_slice l a b).
Proof. unfold py_slice. rewrite length_map, skipn_map, firstn_map. reflexivity. Qed.


(** ** CSR Filter *)

Lemma filter_eqb_kept (t : float) (l : list float) :
  List.filter (fun x => PrimFloat.eqb x t) (List.filter (fun x => negb (PrimFloat.ltb t x)) l)
  = List.filter (fun x => PrimFloat.eqb x t) l.
Proof.
  induction l as [|x l IH]; simpl; [reflexivity|].
  destruct (PrimFloat.eqb x t) eqn:E.
  - rewrite (eqb_not_ltb _ _ E). simpl. rewrite E, IH. reflexivity.
  - destruct (PrimFloat.ltb t x); simpl; rewrite ?E; exact IH.
Qed.

Lemma filter_negb_length {B} (f : B -> bool) (l : list B) :
  length l = (length (List.filter (fun x => negb (f x)) l) + length (List.filter f l))%nat.
Proof. induction l as [|x l IH]; simpl; [reflexivity|]. destruct (f x); simpl; lia. Qed.

Lemma last_map {B C} (f : B -> C) (l : list B) x : last l = Some x -> last (map f l) = Some (f x).
Proof.
  induction l as [|y l IH]; simpl; [discriminate|].
  destruct l as [|z l]; simpl in *.
  - intros [= ->]. reflexivity.
  - exact IH.
Qed.

Lemma scenario_graph_inv : csr_inv scenario_graph.
Proof. split; try reflexivity. apply bins_nondecreasing. reflexivity. Qed.

(** Cutting two arrays with one mask cuts the pairs they make. *)
Lemma combine_drop_masked {B C} (mask : list bool) (xs : list B) (ys : list C) :
  combine (drop_masked mask xs) (drop_masked mask ys) = drop_masked mask (combine xs ys).
Proof.
  revert xs ys. induction mask as [|b mask IH]; intros [|x xs] [|y ys]; simpl;
    try reflexivity.
  - destruct b; [apply combine_nil|reflexivity].
  - destruct b; simpl; rewrite IH; reflexivity.
Qed.

(** The edges, as pairs of column and value, that a mask on the values
    leaves of a list of edges. *)
Lemma kept_edges {B} (f : B -> bool) (cols : list Z) (vals : list B) :
  length cols = length vals ->
  combine (drop_masked (map f vals) cols) (drop_masked (map f vals) vals)
  = List.filter (fun e => negb (f (snd e))) (combine cols vals).
Proof.
  intros Hlen. rewrite combine_drop_masked.
  rewrite <- (drop_masked_filter (fun e => f (snd e)) (combine cols vals)).
  f_equal. revert cols Hlen. induction vals as [|v vals IH]; intros [|c cols] Hlen; simpl in *;
    try reflexivity; try discriminate.
  f_equal. apply IH. lia.
Qed.

(** Row [i] of the graph CSR Filter leaves: row [i] of the given graph
    cut with the mask of that row, in [data] and in [indices]. *)
Lemma kept_rows `{Dtype A} (g : csr A) (t : A) (i : nat) :
  csr_inv g ->
  let mask := gt_mask t (data g) in
  py_slice (drop_masked mask (data g))
           (nth i (map (kept_before mask) (indptr g)) 0)
           (nth (S i) (map (kept_before mask) (indptr g)) 0)
  = drop_masked (gt_mask t (row_data g i)) (row_data g i) /\
  py_slice (drop_masked mask (indices g))
           (nth i (map (kept_before mask) (indptr g)) 0)
           (nth (S i) (map (kept_before mask) (indptr g)) 0)
  = drop_masked (gt_mask t (row_data g i)) (row_indices g i).
Proof.
  intros Hinv mask. pose proof (csr_inv_bounds g Hinv) as Hb.
  destruct Hinv as [Hm Hf Hl Hlen].
  assert (Hmask : length mask = length (data g)) by apply gt_mask_length.
  assert (Hi : forall k, 0 <= nth k (indptr g) 0 <= Z.of_nat (length (data g)))
    by (intros k; apply nth_bounds; [lia|exact Hb]).
  unfold row_data, row_indices. rewrite !nth_kept_before.
  rewrite !py_slice_drop_masked; rewrite ?Hlen; auto; try lia.
  unfold mask, gt_mask. rewrite !py_slice_map_commute. auto.
Qed.

Lemma py_slice_same_length {B C} (xs : list B) (ys : list C) a b :
  length xs = length ys -> length (py_slice xs a b) = length (py_slice ys a b).
Proof.
  intros Hlen. unfold py_slice. rewrite !length_firstn, !length_skipn, Hlen. reflexivity.
Qed.

(** C1: on every CSR graph, CSR Filter removes exactly the entries strictly
    greater than the threshold.  The call returns the graph it worked on
    (the given one, or a copy of it), of the same shape, whose edges, the
    pairs of a column in [indices] and a value in [data], are row by row
    and as a whole the original edges without those whose value is above
    the threshold, in the original order, and whose row pointers are each
    the number of entries kept before the original row pointer; hence no
    retained entry is greater than the threshold, the entries equal to the
    threshold are all still there, and the number of entries removed is
    the number of original entries above the threshold.
    On [data = [1,5,3,9]], [indptr = [0,2,4]] and threshold 4 the result
    has [data = [1,3]] and [indptr = [0,1,2]], and its columns are those of
    the first and the third edge. *)
Theorem remove_greater_than_exact (w : world float) (graph : loc) (g : csr float)
    (t : float) (copy_ verbose : bool) :
  heap w !! graph = Some (OCsr g) -> csr_inv g ->
  exists graph' w' g',
    remove_greater_than graph t copy_ verbose w = (Ok graph', w') /\
    heap w' !! graph' = Some (OCsr g') /\
    data g' = List.filter (fun x => negb (PrimFloat.ltb t x)) (data g) /\
    length (indices g') = length (data g') /\
    combine (indices g') (data g')
      = List.filter (fun e => negb (PrimFloat.ltb t (snd e))) (combine (indices g) (data g)) /\
    indptr g' = map (kept_before (gt_mask t (data g))) (indptr g) /\
    shape g' = shape g /\
    (forall i,
       combine (row_indices g' i) (row_data g' i)
       = List.filter (fun e => negb (PrimFloat.ltb t (snd e)))
           (combine (row_indices g i) (row_data g i))) /\
    Forall (fun x => PrimFloat.ltb t x = false) (data g') /\
    List.filter (fun x => PrimFloat.eqb x t) (data g')
      = List.filter (fun x => PrimFloat.eqb x t) (data g) /\
    length (data g)
      = (length (data g') + length (List.filter (fun x => PrimFloat.ltb t x) (data g)))%nat /\
    (data g = [1; 5; 3; 9]%float -> indptr g = [0; 2; 4] -> t = 4%float ->
     data g' = [1; 3]%float /\ indptr g' = [0; 1; 2] /\
     forall c0 c1 c2 c3, indices g = [c0; c1; c2; c3] -> indices g' = [c0; c2]).
Proof.
  intros Hg Hinv.
  eexists _, _, _. split; [apply (run_remove_greater_than w graph g t); assumption|].
  split; [apply lookup_insert_eq|]. cbn [data indices indptr shape].
  assert (E : drop_masked (gt_mask t (data g)) (data g)
              = List.filter (fun x => negb (PrimFloat.ltb t x)) (data g))
    by apply (drop_masked_filter (fun x => PrimFloat.ltb t x)).
  assert (Hmask : length (gt_mask t (data g)) = length (data g)) by apply gt_mask_length.
  pose proof (inv_len g Hinv) as Hlen.
  split; [exact E|].
  split; [rewrite !drop_masked_length by lia; reflexivity|].
  split; [apply (kept_edges (fun x => PrimFloat.ltb t x)); exact Hlen|].
  split; [reflexivity|]. split; [reflexivity|].
  split; [|rewrite E; split; [|split; [|split]]].
  - intros i. unfold row_data at 1, row_indices at 1. cbn [data indices indptr].
    destruct (kept_rows g t i Hinv) as [-> ->].
    apply (kept_edges (fun x => PrimFloat.ltb t x)).
    apply py_slice_same_length. exact Hlen.
  - apply List.Forall_forall. intros x Hx. apply filter_In in Hx as [_ Hx].
    apply negb_true_iff in Hx. exact Hx.
  - apply filter_eqb_kept.
  - apply filter_negb_length.
  - intros Hd Hp ->. rewrite <- E, Hd, Hp. split; [reflexivity|]. split; [reflexivity|].
    intros c0 c1 c2 c3 ->. reflexivity.
Qed.

Lemma remove_greater_than_exact_witness :
  exists graph' w' g',
    remove_greater_than 0%nat 4%float false false (world_of (OCsr scenario_graph))
      = (Ok graph', w') /\
    heap w' !! graph' = Some (OCsr g') /\
    data g' = [1; 3]%float /\ indptr g' = [0; 1; 2] /\ indices g' = [1; 0].
Proof.
  destruct (remove_greater_than_exact (world_of (OCsr scenario_graph)) 0%nat
              scenario_graph 4%float false false eq_refl scenario_graph_inv)
    as (graph' & w' & g' & Hrun & Hh & _ & _ & _ & _ & _ & _ & _ & _ & _ & Hs).
  exists graph', w', g'. split; [exact Hrun|]. split; [exact Hh|].
  destruct (Hs eq_refl eq_refl eq_refl) as (Hd & Hp & Hi).
  split; [exact Hd|]. split; [exact Hp|]. apply (Hi 1 2 0 2). reflexivity.
Defined.

(** C2: CSR Filter preserves the CSR invariant.  On a graph that satisfies
    it the function returns a graph whose [indptr], recomputed from the
    histogram of the removed positions and its running total, is
    non-decreasing, starts at 0 and ends at the new length of [data],
    whose [data] and [indices] have the same length, and whose row [i] is
    row [i] of the original graph without the removed edges, in [data] and
    in [indices] alike. *)
Theorem remove_greater_than_preserves_inv `{Dtype A} (w : world A) (graph : loc)
    (g : csr A) (t : A) (copy_ verbose : bool) :
  heap w !! graph = Some (OCsr g) -> csr_inv g ->
  exists graph' w' g',
    remove_greater_than graph t copy_ verbose w = (Ok graph', w') /\
    heap w' !! graph' = Some (OCsr g') /\
    csr_inv g' /\
    length (indptr g') = length (indptr g) /\
    forall i,
      row_data g' i = drop_masked (gt_mask t (row_data g i)) (row_data g i) /\
      row_indices g' i = drop_masked (gt_mask t (row_data g i)) (row_indices g i).
Proof.
  intros Hg Hinv.
  eexists _, _, _. split; [apply (run_remove_greater_than w graph g t); assumption|].
  split; [apply lookup_insert_eq|].
  pose proof (csr_inv_bounds g Hinv) as Hb.
  destruct Hinv as [Hm Hf Hl Hlen].
  set (mask := gt_mask t (data g)).
  assert (Hmask : length mask = length (data g)) by apply gt_mask_length.
  split; [split; simpl|split; [simpl; apply length_map|]].
  - intros i j x y Hij. rewrite !nth_error_map.
    destruct (nth_error (indptr g) i) as [bi|] eqn:Ei; [|discriminate].
    destruct (nth_error (indptr g) j) as [bj|] eqn:Ej; [|discriminate].
    simpl. intros [= <-] [= <-]. apply kept_before_mono. eapply Hm; eauto.
  - destruct (indptr g) as [|p0 rest]; [discriminate|].
    simpl in *. injection Hf as ->. reflexivity.
  - rewrite (last_map _ _ _ Hl). rewrite kept_before_all by lia.
    rewrite drop_masked_length by assumption. reflexivity.
  - rewrite !drop_masked_length by lia. reflexivity.
  - intros i. unfold row_data, row_indices. simpl.
    rewrite !nth_kept_before.
    assert (Hi : forall k, 0 <= nth k (indptr g) 0 <= Z.of_nat (length (data g)))
      by (intros k; apply nth_bounds; [lia|exact Hb]).
    rewrite !py_slice_drop_masked; rewrite ?Hlen; auto; try lia.
    unfold mask, gt_mask. rewrite !py_slice_map_commute. auto.
Qed.

Lemma remove_greater_than_preserves_inv_witness :
  exists graph' w' g',
    remove_greater_than 0%nat 4%float true false (world_of (OCsr scenario_graph))
      = (Ok graph', w') /\
    heap w' !! graph' = Some (OCsr g') /\ csr_inv g'.
Proof.
  destruct (remove_greater_than_preserves_inv (world_of (OCsr scenario_graph)) 0%nat
              scenario_graph 4%float true false eq_refl scenario_graph_inv)
    as (graph' & w' & g' & Hrun & Hh & Hi & _).
  exists graph', w', g'. auto.
Defined.


(** ** Row Normalizer *)

Section RowNormalize.
Context `{Dtype A}.

Lemma py_slice_in (d : list A) a b :
  0 <= a <= Z.of_nat (length d) -> 0 <= b <= Z.of_nat (length d) ->
  py_slice d a b = firstn (Z.to_nat b - Z.to_nat a) (skipn (Z.to_nat a) d).
Proof. intros Ha Hb. unfold py_slice. rewrite !py_bound_in by lia. reflexivity. Qed.

Lemma row_normalize_step_in (d : list A) a b :
  0 <= a <= b -> b <= Z.of_nat (length d) ->
  row_normalize_step d (a, b)
  = firstn (Z.to_nat a) d ++ normalized (py_slice d a b) ++ skipn (Z.to_nat b) d.
Proof.
  intros Ha Hb. unfold row_normalize_step, normalized.
  destruct (dt_neqb _ _).
  - unfold py_slice_map, py_slice. rewrite !py_bound_in by lia.
    do 3 f_equal. lia.
  - rewrite py_slice_in by lia. apply slice_split. lia.
Qed.

Lemma normalized_length (r : list A) : length (normalized r) = length r.
Proof. unfold normalized. destruct (dt_neqb _ _); [apply length_map|reflexivity]. Qed.

Lemma py_slice_length (d : list A) a b :
  0 <= a <= b -> b <= Z.of_nat (length d) ->
  length (py_slice d a b) = (Z.to_nat b - Z.to_nat a)%nat.
Proof.
  intros Ha Hb. rewrite py_slice_in by lia. rewrite length_firstn, length_skipn. lia.
Qed.

Lemma row_normalize_step_length (d : list A) a b :
  0 <= a <= b -> b <= Z.of_nat (length d) ->
  length (row_normalize_step d (a, b)) = length d.
Proof.
  intros Ha Hb. rewrite row_normalize_step_in by lia.
  rewrite !length_app, normalized_length, py_slice_length by lia.
  rewrite length_firstn, length_skipn. lia.
Qed.

(** The step rewrites the row it is given... *)
Lemma row_normalize_step_here (d : list A) a b :
  0 <= a <= b -> b <= Z.of_nat (length d) ->
  py_slice (row_normalize_step d (a, b)) a b = normalized (py_slice d a b).
Proof.
  intros Ha Hb.
  pose proof (row_normalize_step_length d a b Ha Hb) as Hlen.
  rewrite (py_slice_in (row_normalize_step d (a, b))) by lia.
  rewrite row_normalize_step_in by lia.
  assert (L1 : length (firstn (Z.to_nat a) d) = Z.to_nat a)
    by (rewrite length_firstn; lia).
  rewrite skipn_app, skipn_all2, L1, Nat.sub_diag by lia. simpl. rewrite skipn_O.
  rewrite firstn_app, normalized_length, py_slice_length by lia.
  rewrite Nat.sub_diag, firstn_O, app_nil_r.
  apply firstn_all2. rewrite normalized_length, py_slice_length by lia. lia.
Qed.

(** ... and no row that lies before it or after it. *)
Lemma row_normalize_step_other (d : list A) a b lo hi :
  0 <= a <= b -> b <= Z.of_nat (length d) ->
  0 <= lo <= hi -> hi <= Z.of_nat (length d) ->
  hi <= a \/ b <= lo ->
  py_slice (row_normalize_step d (a, b)) lo hi = py_slice d lo hi.
Proof.
  intros Ha Hb Hlo Hhi Hdis.
  pose proof (row_normalize_step_length d a b Ha Hb) as Hlen.
  rewrite (py_slice_in (row_normalize_step d (a, b))), (py_slice_in d) by lia.
  rewrite row_normalize_step_in by lia.
  assert (L1 : length (firstn (Z.to_nat a) d) = Z.to_nat a)
    by (rewrite length_firstn; lia).
  assert (L2 : length (normalized (py_slice d a b)) = (Z.to_nat b - Z.to_nat a)%nat)
    by (rewrite normalized_length, py_slice_length; lia).
  destruct Hdis as [Hbefore|Hafter].
  - rewrite !firstn_skipn_comm.
    replace (Z.to_nat lo + (Z.to_nat hi - Z.to_nat lo))%nat with (Z.to_nat hi) by lia.
    f_equal. rewrite firstn_app, L1.
    replace (Z.to_nat hi - Z.to_nat a)%nat with 0%nat by lia.
    rewrite firstn_O, app_nil_r, firstn_firstn. f_equal. lia.
  - f_equal. rewrite app_assoc.
    rewrite skipn_app, length_app, L1, L2.
    rewrite skipn_all2 by (rewrite length_app; lia). simpl.
    rewrite skipn_skipn. f_equal. lia.
Qed.

Lemma fold_step_length (rs : list (Z * Z)) (d : list A) :
  Forall (region_ok (length d)) rs ->
  length (fold_left row_normalize_step rs d) = length d.
Proof.
  revert d. induction rs as [|[a b] rs IH]; intros d Hok; [reflexivity|].
  inversion Hok as [|? ? [Hab Hb] Hrest]; subst. cbn [fold_left fst snd] in *.
  assert (Hl : length (row_normalize_step d (a, b)) = length d)
    by (apply row_normalize_step_length; lia).
  rewrite IH; rewrite Hl; auto.
Qed.

Lemma fold_step_other (rs : list (Z * Z)) (d : list A) lo hi :
  Forall (region_ok (length d)) rs ->
  0 <= lo <= hi -> hi <= Z.of_nat (length d) ->
  Forall (fun r => hi <= fst r \/ snd r <= lo) rs ->
  py_slice (fold_left row_normalize_step rs d) lo hi = py_slice d lo hi.
Proof.
  revert d. induction rs as [|[a b] rs IH]; intros d Hok Hlo Hhi Hdis; [reflexivity|].
  inversion Hok as [|? ? [Hab Hb] Hrest]; subst.
  inversion Hdis as [|? ? Hd Hdrest]; subst. cbn [fold_left fst snd] in *.
  assert (Hl : length (row_normalize_step d (a, b)) = length d)
    by (apply row_normalize_step_length; lia).
  rewrite IH; rewrite ?Hl; auto.
  apply row_normalize_step_other; auto.
Qed.

End RowNormalize.

Lemma row_bounds_cons x y l : row_bounds (x :: y :: l) = (x, y) :: row_bounds (y :: l).
Proof. unfold row_bounds. rewrite but_last_cons. reflexivity. Qed.

Lemma row_bounds_nth p j lo hi :
  nth_error (row_bounds p) j = Some (lo, hi) <->
  nth_error p j = Some lo /\ nth_error p (S j) = Some hi.
Proof.
  revert j. induction p as [|x p IH]; intros j.
  - unfold row_bounds. simpl. rewrite !nth_error_nil. split; [discriminate|intros [? _]; discriminate].
  - destruct p as [|y l].
    + unfold row_bounds. simpl. rewrite nth_error_nil. split; [discriminate|].
      intros [_ Hh]. destruct j; simpl in Hh; rewrite ?nth_error_nil in Hh; discriminate.
    + rewrite row_bounds_cons. destruct j as [|j]; simpl.
      * split; [intros [= -> ->]; auto|intros [[= ->] [= ->]]; reflexivity].
      * apply IH.
Qed.

Lemma row_bounds_length p : length (row_bounds p) = (length p - 1)%nat.
Proof.
  unfold row_bounds, but_last. rewrite length_combine, length_firstn.
  destruct p; simpl; lia.
Qed.

(** In a well-formed graph the rows are regions of [data], and those
    before and after row [i] do not meet it. *)
Lemma row_bounds_split p len i :
  nondecreasing p -> Forall (fun b => 0 <= b <= Z.of_nat len) p ->
  (S i < length p)%nat ->
  exists pre post,
    row_bounds p = pre ++ (nth i p 0, nth (S i) p 0) :: post /\
    Forall (region_ok len) (row_bounds p) /\
    Forall (fun r => snd r <= nth i p 0) pre /\
    Forall (fun r => nth (S i) p 0 <= fst r) post.
Proof.
  intros Hm Hb Hi.
  assert (Hn : forall k, (k < length p)%nat -> nth_error p k = Some (nth k p 0))
    by (intros k Hk; apply nth_error_nth'; exact Hk).
  assert (Hrow : nth_error (row_bounds p) i = Some (nth i p 0, nth (S i) p 0))
    by (apply row_bounds_nth; split; apply Hn; lia).
  destruct (nth_error_split _ _ Hrow) as (pre & post & E & Hlen).
  exists pre, post. split; [exact E|].
  assert (Hin : forall r, In r (row_bounds p) ->
            exists j, nth_error p j = Some (fst r) /\ nth_error p (S j) = Some (snd r)).
  { intros [lo hi] Hr. apply In_nth_error in Hr as [j Hj].
    exists j. apply row_bounds_nth. exact Hj. }
  rewrite List.Forall_forall in Hb.
  split; [|split].
  - apply List.Forall_forall. intros r Hr.
    destruct (Hin r Hr) as (j & H1 & H2).
    pose proof (Hb _ (nth_error_In _ _ H1)). pose proof (Hb _ (nth_error_In _ _ H2)).
    pose proof (Hm j (S j) _ _ ltac:(lia) H1 H2). unfold region_ok. lia.
  - apply List.Forall_forall. intros [lo hi] Hr.
    apply In_nth_error in Hr as [j Hj].
    assert (Hjlt : (j < length pre)%nat) by (apply nth_error_Some; congruence).
    assert (Hj' : nth_error (row_bounds p) j = Some (lo, hi))
      by (rewrite E, nth_error_app1; assumption).
    apply row_bounds_nth in Hj' as [_ H2]. simpl.
    apply (Hm (S j) i); [lia|exact H2|apply Hn; lia].
  - apply List.Forall_forall. intros [lo hi] Hr.
    apply In_nth_error in Hr as [j Hj].
    assert (Hj' : nth_error (row_bounds p) (S i + j) = Some (lo, hi)).
    { rewrite E, nth_error_app2 by lia.
      replace (S i + j - length pre)%nat with (S j) by lia. exact Hj. }
    apply row_bounds_nth in Hj' as [H1 _]. simpl.
    apply (Hm (S i) (S i + j)%nat); [lia|apply Hn; lia|exact H1].
Qed.

Lemma py_slice_to_0 {B} (d : list B) x : py_slice d x 0 = [].
Proof.
  unfold py_slice.
  replace (py_bound (length d) 0) with 0%nat by (unfold py_bound; simpl; lia).
  reflexivity.
Qed.

(** Row [i] of the normalized graph is row [i] of the graph, normalized. *)
Lemma row_normalize_row `{Dtype A} (g : csr A) i :
  csr_inv g -> row_data (row_normalized g) i = normalized (row_data g i).
Proof.
  intros Hinv. pose proof (csr_inv_bounds g Hinv) as Hb.
  destruct Hinv as [Hm Hf Hl Hlen].
  unfold row_data, row_normalized, set_data. cbn [data indptr].
  destruct (Nat.lt_ge_cases (S i) (length (indptr g))) as [Hi|Hi].
  - destruct (row_bounds_split _ _ i Hm Hb Hi) as (pre & post & E & Hok & Hpre & Hpost).
    set (lo := nth i (indptr g) 0) in *. set (hi := nth (S i) (indptr g) 0) in *.
    assert (Hlo : 0 <= lo <= Z.of_nat (length (data g)))
      by (apply nth_bounds; [lia|exact Hb]).
    assert (Hhi : 0 <= hi <= Z.of_nat (length (data g)))
      by (apply nth_bounds; [lia|exact Hb]).
    assert (Hlohi : lo <= hi).
    { apply (Hm i (S i)); [lia| |]; apply nth_error_nth'; lia. }
    rewrite E in Hok |- *. rewrite fold_left_app. cbn [fold_left].
    apply Forall_app in Hok as [Hokpre Hokpost].
    inversion Hokpost as [|? ? _ Hokpost']; subst.
    pose proof (fold_step_length pre (data g) Hokpre) as L1.
    assert (L2 : length (row_normalize_step (fold_left row_normalize_step pre (data g)) (lo, hi))
                 = length (data g))
      by (rewrite row_normalize_step_length; lia).
    rewrite fold_step_other; rewrite ?L2; auto; try lia.
    + rewrite row_normalize_step_here by lia.
      rewrite fold_step_other; auto; try lia.
      eapply List.Forall_impl; [|exact Hpre]. simpl. intros; right; assumption.
    + eapply List.Forall_impl; [|exact Hpost]. simpl. intros; left; assumption.
  - rewrite (nth_overflow (indptr g) (n := S i)) by lia.
    rewrite !py_slice_to_0. unfold normalized.
    destruct (dt_neqb _ _); reflexivity.
Qed.

(** *** The order of the rows *)

Section RowOrder.
Context `{Dtype A}.

Lemma row_normalize_step_comm (d : list A) r1 r2 :
  region_ok (length d) r1 -> region_ok (length d) r2 -> apart r1 r2 ->
  row_normalize_step (row_normalize_step d r1) r2
  = row_normalize_step (row_normalize_step d r2) r1.
Proof.
  assert (G : forall a b c e, 0 <= a <= b -> b <= c -> c <= e -> e <= Z.of_nat (length d) ->
    row_normalize_step (row_normalize_step d (a, b)) (c, e)
    = row_normalize_step (row_normalize_step d (c, e)) (a, b)).
  { intros a b c e Hab Hbc Hce He.
    pose proof (row_normalize_step_length d a b ltac:(lia) ltac:(lia)) as L1.
    pose proof (row_normalize_step_length d c e ltac:(lia) ltac:(lia)) as L2.
    rewrite (row_normalize_step_in (row_normalize_step d (a, b)) c e) by lia.
    rewrite (row_normalize_step_in (row_normalize_step d (c, e)) a b) by lia.
    rewrite (row_normalize_step_other d a b c e) by lia.
    rewrite (row_normalize_step_other d c e a b) by lia.
    rewrite !row_normalize_step_in by lia.
    assert (La : length (firstn (Z.to_nat a) d) = Z.to_nat a)
      by (rewrite length_firstn; lia).
    assert (Lc : length (firstn (Z.to_nat c) d) = Z.to_nat c)
      by (rewrite length_firstn; lia).
    assert (Ln : length (normalized (py_slice d a b)) = (Z.to_nat b - Z.to_nat a)%nat)
      by (rewrite normalized_length, py_slice_length; lia).
    (* the part up to [c] of the array after the first step *)
    rewrite (app_assoc (firstn (Z.to_nat a) d)).
    rewrite firstn_app, length_app, La, Ln.
    rewrite (firstn_all2 (n := Z.to_nat c)) by (rewrite length_app; lia).
    replace (Z.to_nat c - _)%nat with (Z.to_nat c - Z.to_nat b)%nat by lia.
    rewrite skipn_app, length_app, La, Ln.
    rewrite (skipn_all2 (n := Z.to_nat e)) by (rewrite length_app; lia).
    replace (Z.to_nat e - _)%nat with (Z.to_nat e - Z.to_nat b)%nat by lia.
    rewrite skipn_skipn. replace (_ + Z.to_nat b)%nat with (Z.to_nat e) by lia.
    (* the parts around [a, b] of the array after the other step *)
    rewrite (firstn_app (Z.to_nat a)), Lc, firstn_firstn.
    replace (Init.Nat.min _ _) with (Z.to_nat a) by lia.
    replace (Z.to_nat a - Z.to_nat c)%nat with 0%nat by lia.
    rewrite firstn_O, app_nil_r.
    rewrite (skipn_app (Z.to_nat b)), Lc.
    replace (Z.to_nat b - Z.to_nat c)%nat with 0%nat by lia. rewrite skipn_O.
    rewrite <- !app_assoc. simpl. do 2 f_equal. f_equal.
    rewrite firstn_skipn_comm.
    replace (Z.to_nat b + (Z.to_nat c - Z.to_nat b))%nat with (Z.to_nat c) by lia.
    reflexivity. }
  destruct r1 as [a b], r2 as [c e]. unfold region_ok, apart. simpl.
  intros [Hab Hb] [Hce He] [Hd|Hd].
  - apply G; lia.
  - symmetry. apply G; lia.
Qed.

Lemma apart_sym r1 r2 : apart r1 r2 -> apart r2 r1.
Proof. unfold apart. tauto. Qed.

Lemma pairwise_apart_perm (l l' : list (Z * Z)) :
  Permutation l l' -> ForallOrdPairs apart l -> ForallOrdPairs apart l'.
Proof.
  induction 1 as [|x l l' HP IH|x y l|l l' l'' HP1 IH1 HP2 IH2]; intros Hp.
  - exact Hp.
  - inversion Hp as [|? ? Hx Hl]; subst. constructor.
    + eapply Permutation_Forall; eassumption.
    + apply IH. exact Hl.
  - inversion Hp as [|? ? Hy Hl]; subst.
    inversion Hl as [|? ? Hx Hl']; subst.
    inversion Hy as [|? ? Hyx Hyl]; subst.
    constructor; [constructor; [apply apart_sym; exact Hyx|exact Hx]|].
    constructor; assumption.
  - auto.
Qed.

Lemma fold_step_perm (l l' : list (Z * Z)) :
  Permutation l l' ->
  forall d : list A, Forall (region_ok (length d)) l -> ForallOrdPairs apart l ->
  fold_left row_normalize_step l d = fold_left row_normalize_step l' d.
Proof.
  induction 1 as [|x l l' HP IH|x y l|l l' l'' HP1 IH1 HP2 IH2]; intros d Hok Hp.
  - reflexivity.
  - inversion Hok as [|? ? Hx Hl]; subst. inversion Hp as [|? ? _ Hpl]; subst.
    cbn [fold_left]. destruct x as [a b]. destruct Hx as [Hab Hb]. simpl in Hab, Hb.
    apply IH; [|exact Hpl].
    rewrite row_normalize_step_length by lia. exact Hl.
  - inversion Hok as [|? ? Hy Hl]; subst. inversion Hl as [|? ? Hx _]; subst.
    inversion Hp as [|? ? Hyx _]; subst. inversion Hyx as [|? ? Hyx' _]; subst.
    cbn [fold_left]. f_equal. apply row_normalize_step_comm; assumption.
  - rewrite IH1 by assumption. apply IH2.
    + eapply Permutation_Forall; eassumption.
    + eapply pairwise_apart_perm; eassumption.
Qed.

End RowOrder.

Lemma row_bounds_apart p len :
  nondecreasing p -> Forall (fun b => 0 <= b <= Z.of_nat len) p ->
  Forall (region_ok len) (row_bounds p) /\ ForallOrdPairs apart (row_bounds p).
Proof.
  induction p as [|x p IH]; intros Hm Hb.
  - split; constructor.
  - destruct p as [|y l]; [split; constructor|].
    rewrite row_bounds_cons.
    assert (Hm' : nondecreasing (y :: l)).
    { intros i j a b Hij Hi Hj. apply (Hm (S i) (S j)); auto; lia. }
    inversion Hb as [|? ? Hx Hb']; subst.
    destruct (IH Hm' Hb') as [Hok Hp].
    assert (Hxy : x <= y) by (apply (Hm 0%nat 1%nat); auto).
    inversion Hb' as [|? ? Hy _]; subst.
    split; constructor; auto.
    + unfold region_ok. simpl. lia.
    + apply List.Forall_forall. intros [lo hi] Hin.
      apply In_nth_error in Hin as [j Hj]. apply row_bounds_nth in Hj as [H1 _].
      left. simpl. apply (Hm' 0%nat j); auto; lia.
Qed.

(** *** Exact arithmetic *)

Lemma normalized_sum_exact (row : list Q) :
  ~ (np_sum row == 0)%Q -> (np_sum (normalized row) == 1)%Q.
Proof.
  intros Hs. unfold normalized.
  change (dt_neqb (np_sum row) dt_zero) with (negb (Qeq_bool (np_sum row) 0)).
  destruct (Qeq_bool (np_sum row) 0) eqn:E.
  - apply Qeq_bool_iff in E. contradiction.
  - simpl negb. cbv iota. rewrite np_sum_exact.
    transitivity (total row / np_sum row)%Q; [apply (total_div row (np_sum row) Hs)|].
    rewrite <- np_sum_exact. field. exact Hs.
Qed.

(** *** Running the loop *)

Lemma world_eta {A} (w : world A) : with_heap (heap w) w = w.
Proof. destruct w; reflexivity. Qed.

Lemma run_row_loop `{Dtype A} (l : loc) (g : csr A) (rs : list (Z * Z)) :
  forall (d : list A) (w : world A),
  heap w !! l = Some (OCsr (set_data d g)) ->
  for_each rs (fun ptrs =>
    g ← load_csr l;
    store l (OCsr (set_data (row_normalize_step (data g) ptrs) g))) w
  = (Ok tt, with_heap (<[l := OCsr (set_data (fold_left row_normalize_step rs d) g)]> (heap w)) w).
Proof.
  induction rs as [|r rs IH]; intros d w Hl.
  - simpl. rewrite run_ret, insert_id by exact Hl. rewrite world_eta. reflexivity.
  - cbn [for_each fold_left]. rewrite run_bind, run_bind, (run_load_csr _ _ _ Hl).
    unfold store at 1. cbn [set_data data indices indptr shape].
    rewrite (IH (row_normalize_step d r)) by (simpl; apply lookup_insert_eq).
    rewrite with_heap_twice, heap_with_heap, insert_insert_eq. reflexivity.
Qed.

Lemma run_row_normalize `{Dtype A} (w : world A) graph (g : csr A) copy_ verbose :
  heap w !! graph = Some (OCsr g) ->
  row_normalize graph copy_ verbose w
  = (Ok (target copy_ graph w),
     with_heap (<[target copy_ graph w := OCsr (row_normalized g)]> (heap w)) w).
Proof.
  intros Hg. unfold row_normalize.
  rewrite run_bind, (run_copy_or_not _ _ _ _ Hg).
  set (l := target copy_ graph w).
  rewrite run_bind, (run_load_csr l g) by (simpl; apply lookup_insert_eq).
  rewrite run_bind, (run_row_loop l g _ (data g))
    by (simpl; rewrite lookup_insert_eq; destruct g; reflexivity).
  rewrite with_heap_twice, heap_with_heap, insert_insert_eq. reflexivity.
Qed.


(** C3 (as stated, it fails): a row of two finite entries whose sum
    overflows.  The sum of the row is [infinity], which is not 0, so the
    row is divided by it: both entries become 0 and the new row sum is 0,
    not 1. *)
Lemma row_normalize_sum_not_one :
  csr_inv overflow_graph /\
  dt_neqb (np_sum (row_data overflow_graph 0)) dt_zero = true /\
  exists w' g',
    row_normalize 0%nat false false (world_of (OCsr overflow_graph)) = (Ok 0%nat, w') /\
    heap w' !! 0%nat = Some (OCsr g') /\
    row_data g' 0 = [0; 0]%float /\
    close_to_one (np_sum (row_data g' 0)) = false.
Proof.
  split; [split; try reflexivity; apply bins_nondecreasing; reflexivity|].
  split; [reflexivity|].
  eexists _, _.
  split; [rewrite (run_row_normalize _ _ overflow_graph) by reflexivity; reflexivity|].
  split; [apply lookup_insert_eq|]. split; reflexivity.
Qed.

(** C3 (amended): on every CSR graph, in whatever arithmetic the entries
    live, Row Normalizer returns the graph it worked on with [indices],
    [indptr] and the shape as they were, each entry of a row whose sum is
    not 0 replaced by its quotient by that sum, and every row whose sum is
    exactly 0 unchanged; row [i] of the result depends on row [i] of the
    input only, and processing the rows in any other order gives the same
    [data].  In exact (rational) arithmetic the new sum of a row whose sum
    is not 0 is 1. *)
Theorem row_normalize_rows :
  (forall A (D : Dtype A) (w : world A) (graph : loc) (g : csr A) (copy_ verbose : bool),
     heap w !! graph = Some (OCsr g) -> csr_inv g ->
     exists graph' w' g',
       row_normalize graph copy_ verbose w = (Ok graph', w') /\
       heap w' !! graph' = Some (OCsr g') /\
       indices g' = indices g /\ indptr g' = indptr g /\ shape g' = shape g /\
       (forall i,
          (dt_neqb (np_sum (row_data g i)) dt_zero = true ->
           row_data g' i = map (fun x => dt_div x (np_sum (row_data g i))) (row_data g i)) /\
          (dt_neqb (np_sum (row_data g i)) dt_zero = false ->
           row_data g' i = row_data g i)) /\
       (forall order, Permutation order (row_bounds (indptr g)) ->
          fold_left row_normalize_step order (data g) = data g')) /\
  (forall (w : world Q) (graph : loc) (g : csr Q) (copy_ verbose : bool),
     heap w !! graph = Some (OCsr g) -> csr_inv g ->
     exists graph' w' g',
       row_normalize graph copy_ verbose w = (Ok graph', w') /\
       heap w' !! graph' = Some (OCsr g') /\
       forall i, ~ (np_sum (row_data g i) == 0)%Q -> (np_sum (row_data g' i) == 1)%Q).
Proof.
  split.
  - intros A D w graph g copy_ verbose Hg Hinv.
    eexists _, _, _. split; [apply (run_row_normalize w graph g); assumption|].
    split; [apply lookup_insert_eq|].
    split; [reflexivity|]. split; [reflexivity|]. split; [reflexivity|]. split.
    + intros i. rewrite row_normalize_row by assumption. unfold normalized.
      split; intros Hs; rewrite Hs; reflexivity.
    + intros order Hperm. unfold row_normalized, set_data. cbn [data].
      pose proof (csr_inv_bounds g Hinv) as Hb.
      destruct (row_bounds_apart (indptr g) (length (data g)) (inv_mono g Hinv) Hb)
        as [Hok Hap].
      symmetry. apply fold_step_perm; [symmetry; exact Hperm|exact Hok|exact Hap].
  - intros w graph g copy_ verbose Hg Hinv.
    eexists _, _, _. split; [apply (run_row_normalize w graph g); assumption|].
    split; [apply lookup_insert_eq|].
    intros i Hs. rewrite row_normalize_row by assumption.
    apply normalized_sum_exact. exact Hs.
Qed.

Lemma exact_graph_inv : csr_inv exact_graph.
Proof. split; try reflexivity. apply bins_nondecreasing. reflexivity. Qed.

Lemma row_normalize_rows_witness :
  (exists graph' w' g',
     row_normalize 0%nat false false (world_of (OCsr scenario_graph)) = (Ok graph', w') /\
     heap w' !! graph' = Some (OCsr g') /\
     row_data g' 1 = [0.25; 0.75]%float) /\
  (exists graph' w' g',
     row_normalize 0%nat false false (world_of (OCsr exact_graph)) = (Ok graph', w') /\
     heap w' !! graph' = Some (OCsr g') /\
     (np_sum (row_data g' 0) == 1)%Q).
Proof.
  split.
  - destruct (proj1 row_normalize_rows float float64 (world_of (OCsr scenario_graph)) 0%nat
                scenario_graph false false eq_refl scenario_graph_inv)
      as (graph' & w' & g' & Hrun & Hh & _ & _ & _ & Hrow & _).
    exists graph', w', g'. split; [exact Hrun|]. split; [exact Hh|].
    rewrite (proj1 (Hrow 1%nat)); reflexivity.
  - destruct (proj2 row_normalize_rows (world_of (OCsr exact_graph)) 0%nat
                exact_graph false false eq_refl exact_graph_inv)
      as (graph' & w' & g' & Hrun & Hh & Hsum).
    exists graph', w', g'. split; [exact Hrun|]. split; [exact Hh|].
    apply Hsum. vm_compute. discriminate.
Defined.


(** ** Neighbor Graph Builder and Weight Transform *)

Section GraphFacts.
Variable fit : ndarray float -> result NearestNeighbors.

Lemma run_obtain_index locations nbr_object nbrs (w : world float) :
  obtain_index fit locations nbr_object = Ok nbrs ->
  match nbr_object with
  | None => log CallFit;; lift (fit locations)
  | Some o => mret o
  end w = (Ok nbrs, with_calls (calls w ++ fit_calls nbr_object) w).
Proof.
  unfold obtain_index, fit_calls. destruct nbr_object as [o|]; intros E.
  - injection E as ->. rewrite run_ret, app_nil_r. destruct w; reflexivity.
  - rewrite run_bind. unfold log, lift. rewrite E. reflexivity.
Qed.

(** The k-neighbours path without a radius: the graph the query returns
    becomes a new object, as it is. *)
Lemma run_distance_graph_knn locations nbr_object k nbrs D (w : world float) :
  obtain_index fit locations nbr_object = Ok nbrs ->
  isinstance_int k = true ->
  kneighbors_graph nbrs k = Ok D ->
  generate_spatial_distance_graph fit locations nbr_object k VNone w
  = (Ok (fresh (dom (heap w))),
     {| heap := <[fresh (dom (heap w)) := OCsr D]> (heap w);
        calls := calls w ++ fit_calls nbr_object ++ [CallKneighborsGraph k] |}).
Proof.
  intros Hix Hk HD. unfold generate_spatial_distance_graph.
  rewrite run_bind, (run_obtain_index _ _ _ _ Hix).
  destruct k; try discriminate; unfold py_assert; simpl isinstance_int; cbv iota;
    rewrite run_bind, run_ret, run_bind; unfold log at 1;
    rewrite run_bind; unfold lift at 1; rewrite HD;
    rewrite run_bind; unfold alloc at 1; rewrite run_ret; simpl;
    rewrite <- app_assoc; reflexivity.
Qed.

Lemma run_weights locations k decay_type nbr_object verbose nbrs D (w : world float) :
  obtain_index fit locations nbr_object = Ok nbrs ->
  isinstance_int k = true ->
  kneighbors_graph nbrs k = Ok D ->
  let dg := fresh (dom (heap w)) in
  let wg := fresh (dom (<[dg := OCsr D]> (heap w))) in
  generate_spatial_weights_fixed_nbrs fit locations k decay_type nbr_object verbose w
  = (Ok (wg, dg),
     {| heap := <[wg := OCsr (row_normalized (reciprocal D))]> (<[dg := OCsr D]> (heap w));
        calls := calls w ++ fit_calls nbr_object ++ [CallKneighborsGraph k] |}).
Proof.
  intros Hix Hk HD dg wg. unfold generate_spatial_weights_fixed_nbrs.
  rewrite run_bind, (run_distance_graph_knn _ _ _ _ _ _ Hix Hk HD). fold dg.
  rewrite run_bind. unfold copy.
  rewrite run_bind, (run_load dg (OCsr D)) by (simpl; apply lookup_insert_eq).
  unfold alloc at 1. cbn [heap]. fold wg.
  rewrite run_bind, (run_load_csr wg D) by (simpl; apply lookup_insert_eq).
  rewrite run_bind. unfold store at 1. cbn [with_heap heap calls].
  rewrite insert_insert_eq.
  rewrite run_bind, (run_row_normalize _ wg (reciprocal D))
    by (simpl; apply lookup_insert_eq).
  cbn [target with_heap heap calls]. rewrite insert_insert_eq, run_ret. reflexivity.
Qed.

End GraphFacts.

Lemma reciprocal_inv (g : csr float) : csr_inv g -> csr_inv (reciprocal g).
Proof.
  intros [Hm Hf Hl Hlen]. split; simpl; auto; rewrite length_map; assumption.
Qed.

Lemma reciprocal_row (g : csr float) i :
  row_data (reciprocal g) i = map (fun x => 1 / x)%float (row_data g i).
Proof. unfold row_data, reciprocal. simpl. apply py_slice_map_commute. Qed.

(** C4: Weight Transform returns the pair of the weight graph and the
    distance graph.  Whatever the coordinates, when the index is there (it
    was supplied, or fitting succeeds) and its k-neighbours query answers
    with the graph [D], the call returns two different objects: the second
    is [D] as the query returned it, the first has the reciprocals [1/d] of
    the entries of [D], row-normalized, with the columns and row pointers
    of [D]; no object that existed before the call is changed.  For the
    four points 0, 1, 2, 3 on a line with two neighbours, the reciprocals
    of row 0 are [1, 0.5] and its weights are [2/3, 1/3]. *)
Theorem generate_spatial_weights_fixed_nbrs_pair
    (fit : ndarray float -> result NearestNeighbors) (locations : ndarray float)
    (k : pyval) (decay_type : string) (nbr_object : option NearestNeighbors)
    (verbose : bool) (nbrs : NearestNeighbors) (D : csr float) (w : world float) :
  obtain_index fit locations nbr_object = Ok nbrs ->
  isinstance_int k = true ->
  kneighbors_graph nbrs k = Ok D ->
  exists weight_graph distance_graph w' W,
    generate_spatial_weights_fixed_nbrs fit locations k decay_type nbr_object verbose w
      = (Ok (weight_graph, distance_graph), w') /\
    weight_graph <> distance_graph /\
    heap w' !! distance_graph = Some (OCsr D) /\
    heap w' !! weight_graph = Some (OCsr W) /\
    W = row_normalized (reciprocal D) /\
    indices W = indices D /\ indptr W = indptr D /\
    (forall l o, heap w !! l = Some o -> heap w' !! l = Some o) /\
    (csr_inv D -> forall i,
       row_data W i = normalized (map (fun x => 1 / x)%float (row_data D i))) /\
    (D = collinear_knn ->
       map (fun x => 1 / x)%float (row_data D 0) = [1; 0.5]%float /\
       row_data W 0 = [2 / 3; 1 / 3]%float).
Proof.
  intros Hix Hk HD.
  pose proof (run_weights fit locations k decay_type nbr_object verbose nbrs D w Hix Hk HD)
    as Hrun. cbv zeta in Hrun.
  set (dg := fresh (dom (heap w))) in *.
  set (wg := fresh (dom (<[dg := OCsr D]> (heap w)))) in *.
  assert (Hne : wg <> dg).
  { unfold wg. apply (fresh_ne _ dg (OCsr D)). apply lookup_insert_eq. }
  eexists wg, dg, _, (row_normalized (reciprocal D)).
  split; [exact Hrun|]. split; [exact Hne|]. cbn [heap].
  split; [rewrite lookup_insert_ne by exact Hne; apply lookup_insert_eq|].
  split; [apply lookup_insert_eq|].
  split; [reflexivity|]. split; [reflexivity|]. split; [reflexivity|].
  split; [|split].
  - intros l o Hl.
    assert (dg <> l) by (apply (fresh_ne _ l o); exact Hl).
    assert (wg <> l).
    { apply (fresh_ne _ l o). rewrite lookup_insert_ne by assumption. exact Hl. }
    rewrite !lookup_insert_ne by assumption. exact Hl.
  - intros Hinv i. rewrite row_normalize_row by (apply reciprocal_inv; exact Hinv).
    rewrite reciprocal_row. reflexivity.
  - intros ->. split; reflexivity.
Qed.

Lemma generate_spatial_weights_fixed_nbrs_pair_witness :
  exists weight_graph distance_graph w' W,
    generate_spatial_weights_fixed_nbrs (fun _ => Ok (index_of collinear_knn)) collinear
      (VInt 2) "reciprocal" None false (world_of (OCsr scenario_graph))
      = (Ok (weight_graph, distance_graph), w') /\
    heap w' !! distance_graph = Some (OCsr collinear_knn) /\
    heap w' !! weight_graph = Some (OCsr W) /\
    row_data W 0 = [2 / 3; 1 / 3]%float.
Proof.
  destruct (generate_spatial_weights_fixed_nbrs_pair
              (fun _ => Ok (index_of collinear_knn)) collinear (VInt 2) "reciprocal"
              None false (index_of collinear_knn) collinear_knn
              (world_of (OCsr scenario_graph)) eq_refl eq_refl eq_refl)
    as (wg & dg & w' & W & Hrun & _ & Hd & Hw & _ & _ & _ & _ & _ & Hs).
  exists wg, dg, w', W. split; [exact Hrun|]. split; [exact Hd|]. split; [exact Hw|].
  apply Hs. reflexivity.
Defined.

(** C9 (as stated, it fails): the points 0, 0, 1 with two neighbours.  The
    first two points coincide, the distance graph has a zero entry in each
    of their rows, and the weight graph that is returned has NaN there. *)
Lemma generate_spatial_weights_fixed_nbrs_nan :
  exists weight_graph distance_graph w' W,
    generate_spatial_weights_fixed_nbrs (fun _ => Ok (index_of coincident_knn)) coincident
      (VInt 2) "reciprocal" None false (world_of (OCsr scenario_graph))
      = (Ok (weight_graph, distance_graph), w') /\
    heap w' !! weight_graph = Some (OCsr W) /\
    data W = [nan; 0; nan; 0; 0.5; 0.5]%float /\
    existsb is_nan (data W) = true.
Proof.
  eexists _, _, _, _. split.
  - rewrite (run_weights _ coincident (VInt 2) _ None false
               (index_of coincident_knn) coincident_knn); reflexivity.
  - split; [apply lookup_insert_eq|]. split; reflexivity.
Qed.

(** C9 (amended): a zero-distance edge is not resolved.  Whenever the
    distance graph the query returns satisfies the CSR invariant and has
    an entry equal to 0, the weight graph that is returned has NaN at the
    place of that entry: the reciprocal is an infinity, so is (or NaN is)
    the sum of its row, and the quotient of the two is NaN. *)
Theorem generate_spatial_weights_fixed_nbrs_zero_distance
    (fit : ndarray float -> result NearestNeighbors) (locations : ndarray float)
    (k : pyval) (decay_type : string) (nbr_object : option NearestNeighbors)
    (verbose : bool) (nbrs : NearestNeighbors) (D : csr float) (w : world float) :
  obtain_index fit locations nbr_object = Ok nbrs ->
  isinstance_int k = true ->
  kneighbors_graph nbrs k = Ok D ->
  csr_inv D ->
  exists weight_graph distance_graph w' W,
    generate_spatial_weights_fixed_nbrs fit locations k decay_type nbr_object verbose w
      = (Ok (weight_graph, distance_graph), w') /\
    heap w' !! weight_graph = Some (OCsr W) /\
    forall i j d,
      nth_error (row_data D i) j = Some d -> PrimFloat.eqb d 0 = true ->
      exists x, nth_error (row_data W i) j = Some x /\ is_nan x = true.
Proof.
  intros Hix Hk HD Hinv.
  eexists _, _, _, _.
  split; [apply (run_weights fit locations k decay_type nbr_object verbose nbrs D w);
          assumption|].
  split; [apply lookup_insert_eq|].
  intros i j d Hj Hd.
  rewrite row_normalize_row by (apply reciprocal_inv; exact Hinv).
  rewrite reciprocal_row.
  set (r := map (fun x => 1 / x)%float (row_data D i)).
  assert (Hrj : nth_error r j = Some (1 / d)%float)
    by (unfold r; rewrite nth_error_map, Hj; reflexivity).
  assert (Hinf : is_infinity (1 / d) = true) by (apply recip_zero; exact Hd).
  assert (Hsum : is_finite (np_sum r) = false).
  { apply (np_sum_nonfinite r (1 / d)%float).
    - eapply nth_error_In; exact Hrj.
    - apply is_infinity_not_finite; exact Hinf. }
  unfold normalized.
  change (dt_neqb (np_sum r) dt_zero) with (negb (PrimFloat.eqb (np_sum r) 0)).
  rewrite (nonfinite_neq_zero _ Hsum). cbn [negb dt_div float64].
  exists ((1 / d) / np_sum r)%float. split.
  - rewrite nth_error_map, Hrj. reflexivity.
  - apply div_inf_nonfinite; assumption.
Qed.

Lemma coincident_knn_inv : csr_inv coincident_knn.
Proof. split; try reflexivity. apply bins_nondecreasing. reflexivity. Qed.

Lemma generate_spatial_weights_fixed_nbrs_zero_distance_witness :
  exists weight_graph distance_graph w' W,
    generate_spatial_weights_fixed_nbrs (fun _ => Ok (index_of coincident_knn)) coincident
      (VInt 2) "reciprocal" None false (world_of (OCsr scenario_graph))
      = (Ok (weight_graph, distance_graph), w') /\
    heap w' !! weight_graph = Some (OCsr W) /\
    exists x, nth_error (row_data W 1) 0 = Some x /\ is_nan x = true.
Proof.
  destruct (generate_spatial_weights_fixed_nbrs_zero_distance
              (fun _ => Ok (index_of coincident_knn)) coincident (VInt 2) "reciprocal"
              None false (index_of coincident_knn) coincident_knn
              (world_of (OCsr scenario_graph)) eq_refl eq_refl eq_refl coincident_knn_inv)
    as (wg & dg & w' & W & Hrun & Hw & Hnan).
  exists wg, dg, w', W. split; [exact Hrun|]. split; [exact Hw|].
  apply (Hnan 1%nat 0%nat 0%float); reflexivity.
Defined.


(** C7 (as stated, it fails): the arguments are not validated before any
    work is done.  With no index supplied, [num_neighbours = 2] and a
    radius that is a string, the index is fitted and the k-neighbours
    query is made, and its graph exists, before the assertion on the
    radius fails.  And when fitting the index raises, a [num_neighbours]
    that is not an integer is never looked at: the call fails with the
    library's error. *)
Lemma generate_spatial_distance_graph_validates_late :
  (exists w',
     generate_spatial_distance_graph (fun _ => Ok (index_of collinear_knn)) collinear
       None (VInt 2) (VStr "far") (world_of (OCsr scenario_graph))
       = (Err AssertionError, w') /\
     calls w' = [CallFit; CallKneighborsGraph (VInt 2)] /\
     heap w' !! 1%nat = Some (OCsr collinear_knn)) /\
  (exists w',
     generate_spatial_distance_graph (fun _ => Err LibraryError) collinear
       None (VFloat 2.5) VNone (world_of (OCsr scenario_graph))
       = (Err LibraryError, w')).
Proof.
  split; eexists; [split; [reflexivity|split; reflexivity]|reflexivity].
Qed.

(** C7 (amended): each argument is validated where it is first needed.
    Once the index is there (it was supplied, or it has been fitted from
    the coordinates), a [num_neighbours] that is set and is not an integer
    makes the call fail with the assertion error before any query is made
    and with no object created or changed.  An integer [num_neighbours]
    with a radius that is set and is neither a float nor an integer makes
    the call fail with the assertion error after the k-neighbours query
    has been made, if that succeeds, and before CSR Filter is applied: the
    graph of the query exists, unfiltered, and nothing is returned. *)
Theorem generate_spatial_distance_graph_validation
    (fit : ndarray float -> result NearestNeighbors) (locations : ndarray float)
    (nbr_object : option NearestNeighbors) (k radius : pyval)
    (nbrs : NearestNeighbors) (w : world float) :
  obtain_index fit locations nbr_object = Ok nbrs ->
  (k <> VNone -> isinstance_int k = false ->
   generate_spatial_distance_graph fit locations nbr_object k radius w
   = (Err AssertionError, with_calls (calls w ++ fit_calls nbr_object) w)) /\
  (isinstance_int k = true -> radius <> VNone ->
   isinstance_float_or_int radius = false ->
   forall D, kneighbors_graph nbrs k = Ok D ->
   generate_spatial_distance_graph fit locations nbr_object k radius w
   = (Err AssertionError,
      {| heap := <[fresh (dom (heap w)) := OCsr D]> (heap w);
         calls := calls w ++ fit_calls nbr_object ++ [CallKneighborsGraph k] |})).
Proof.
  intros Hix. split.
  - intros Hset Hk. unfold generate_spatial_distance_graph.
    rewrite run_bind, (run_obtain_index _ _ _ _ _ Hix).
    destruct k; try contradiction; try discriminate; reflexivity.
  - intros Hk Hset Hr D HD. unfold generate_spatial_distance_graph.
    rewrite run_bind, (run_obtain_index _ _ _ _ _ Hix).
    destruct k; try discriminate; unfold py_assert; simpl isinstance_int; cbv iota;
      rewrite run_bind, run_ret, run_bind; unfold log at 1;
      rewrite run_bind; unfold lift at 1; rewrite HD;
      rewrite run_bind; unfold alloc at 1;
      destruct radius; try contradiction; try discriminate;
      simpl; rewrite <- app_assoc; reflexivity.
Qed.

Lemma generate_spatial_distance_graph_validation_witness :
  generate_spatial_distance_graph (fun _ => Ok (index_of collinear_knn)) collinear
    None (VFloat 2.5) (VInt 1) (world_of (OCsr scenario_graph))
  = (Err AssertionError, with_calls [CallFit] (world_of (OCsr scenario_graph))) /\
  exists w',
    generate_spatial_distance_graph (fun _ => Ok (index_of collinear_knn)) collinear
      None (VInt 2) (VStr "far") (world_of (OCsr scenario_graph))
    = (Err AssertionError, w').
Proof.
  pose proof (generate_spatial_distance_graph_validation
                (fun _ => Ok (index_of collinear_knn)) collinear None) as V.
  split.
  - apply (proj1 (V (VFloat 2.5) (VInt 1) (index_of collinear_knn)
                    (world_of (OCsr scenario_graph)) eq_refl)); [discriminate|reflexivity].
  - eexists.
    apply (proj2 (V (VInt 2) (VStr "far") (index_of collinear_knn)
                    (world_of (OCsr scenario_graph)) eq_refl) eq_refl);
      [discriminate|reflexivity|reflexivity].
Defined.


(** ** Z-Scorer *)

Lemma csr_mean_shape (g g' : csr float) ax :
  shape g = shape g' ->
  match csr_mean g ax, csr_mean g' ax with
  | Ok _, Ok _ => True
  | Err e, Err e' => e = e'
  | _, _ => False
  end.
Proof.
  unfold csr_mean. intros <-. destruct (shape g) as [n c].
  destruct ax; [destruct (n =? 0)%nat|destruct (c =? 0)%nat]; auto.
Qed.

(** What a call of Z-Scorer does: the only trace it leaves is the new
    matrix it returns. *)
Lemma run_zscore (w : world float) (matrix : loc) (m : pyobj float) (ax : axis) :
  heap w !! matrix = Some m ->
  zscore matrix ax w
  = match zscore_value m ax with
    | Ok z => (Ok (fresh (dom (heap w))),
               with_heap (<[fresh (dom (heap w)) := ONdArray z]> (heap w)) w)
    | Err e => (Err e, w)
    end.
Proof.
  intros Hm. unfold zscore, zscore_value.
  rewrite run_bind, (run_load _ _ _ Hm).
  rewrite run_bind. unfold lift at 1.
  change (py_mean m ax ≫= ?k) with (match py_mean m ax with Ok x => k x | Err e => Err e end).
  destruct (py_mean m ax) as [E_x|e] eqn:HE; [|reflexivity].
  assert (Hrest : forall (E_x2 : ndarray float) (w0 : world float),
    heap w0 = heap w -> calls w0 = calls w ->
    ((variance ← lift (broadcast2 PrimFloat.sub E_x2 (nd_map (fun x => x * x)%float E_x));
      centred ← lift (broadcast2 PrimFloat.sub (dense_of m) E_x);
      zscored_matrix ← lift (broadcast2 PrimFloat.div centred (nd_map PrimFloat.sqrt variance));
      alloc (ONdArray (nd_map nan_to_num zscored_matrix))) : Py float loc) w0
    = match (variance ← broadcast2 PrimFloat.sub E_x2 (nd_map (fun x => x * x)%float E_x);
             centred ← broadcast2 PrimFloat.sub (dense_of m) E_x;
             zscored_matrix ← broadcast2 PrimFloat.div centred (nd_map PrimFloat.sqrt variance);
             Ok (nd_map nan_to_num zscored_matrix)) with
      | Ok z => (Ok (fresh (dom (heap w))),
                 with_heap (<[fresh (dom (heap w)) := ONdArray z]> (heap w)) w)
      | Err e => (Err e, w)
      end).
  { intros E_x2 w0 Hh Hc.
    assert (w0 = w) as -> by (destruct w0, w; simpl in *; congruence).
    rewrite run_bind. unfold lift at 1.
    destruct (broadcast2 PrimFloat.sub E_x2 _) as [variance|e]; [|reflexivity].
    rewrite result_bind_ok, run_bind. unfold lift at 1.
    destruct (broadcast2 PrimFloat.sub (dense_of m) E_x) as [centred|e]; [|reflexivity].
    rewrite result_bind_ok, run_bind. unfold lift at 1.
    destruct (broadcast2 PrimFloat.div centred _) as [z|e]; reflexivity. }
  destruct m as [g|a].
  - (* sparse: the squares are taken in a copy, which is dropped again *)
    rewrite run_bind. unfold copy at 1.
    rewrite run_bind, run_bind, (run_load _ _ _ Hm). unfold alloc at 1.
    set (sq := fresh (dom (heap w))).
    rewrite run_bind, (run_load_csr sq g) by (simpl; apply lookup_insert_eq).
    rewrite run_bind. unfold store at 1. rewrite with_heap_twice, heap_with_heap, insert_insert_eq.
    rewrite run_bind, (run_load sq (OCsr (set_data (map (fun x => x * x)%float (data g)) g)))
      by (simpl; apply lookup_insert_eq).
    rewrite run_bind. unfold lift at 1.
    simpl obj_map.
    change (py_mean ?o ax ≫= ?k) with (match py_mean o ax with Ok x => k x | Err e => Err e end).
    pose proof (csr_mean_shape g (set_data (map (fun x => x * x)%float (data g)) g) ax eq_refl)
      as Hshape.
    simpl py_mean in HE |- *. rewrite HE in Hshape.
    destruct (csr_mean (set_data _ g) ax) as [E_x2|e]; [|contradiction].
    rewrite run_bind. unfold free at 1. rewrite with_heap_twice, heap_with_heap.
    rewrite delete_insert_id by apply fresh_not_in.
    rewrite run_ret. apply Hrest; reflexivity.
  - simpl. rewrite run_bind, run_ret. apply Hrest; reflexivity.
Qed.

Lemma run_zscore_dangling (w : world float) (matrix : loc) (ax : axis) :
  heap w !! matrix = None -> zscore matrix ax w = (Err TypeError, w).
Proof. intros Hm. unfold zscore, load. rewrite run_bind, Hm. reflexivity. Qed.

(** C10: Z-Scorer leaves its input alone.  Whether the call returns or
    raises, every object that existed before it, the input matrix among
    them, holds exactly the values it held: the squares for a sparse input
    are taken in a copy, and the result is a new matrix.  (Feature Fusion,
    in contrast, scales the two matrices it is given in place.) *)
Theorem zscore_input_unchanged (w w' : world float) (matrix : loc) (ax : axis)
    (r : result loc) :
  zscore matrix ax w = (r, w') ->
  heap w' !! matrix = heap w !! matrix /\
  (forall l o, heap w !! l = Some o -> heap w' !! l = Some o) /\
  (forall out, r = Ok out -> heap w !! out = None /\ out <> matrix).
Proof.
  intros Hrun. destruct (heap w !! matrix) as [m|] eqn:Hm.
  - rewrite (run_zscore w matrix m ax Hm) in Hrun.
    destruct (zscore_value m ax) as [z|e]; injection Hrun as <- <-.
    + assert (Hne : fresh (dom (heap w)) <> matrix) by (apply (fresh_ne _ _ m); exact Hm).
      simpl. split; [rewrite lookup_insert_ne by exact Hne; exact Hm|]. split.
      * intros l o Hl. rewrite lookup_insert_ne by (apply (fresh_ne _ _ o); exact Hl).
        exact Hl.
      * intros out [= <-]. split; [apply fresh_not_in|exact Hne].
    + split; [exact Hm|]. split; [auto|]. intros out [=].
  - rewrite (run_zscore_dangling w matrix ax Hm) in Hrun. injection Hrun as <- <-.
    split; [exact Hm|]. split; [auto|]. intros out [=].
Qed.

Lemma zscore_input_unchanged_witness :
  exists out w',
    zscore 0%nat Axis0 (world_of (OCsr scenario_graph)) = (Ok out, w') /\
    heap w' !! 0%nat = Some (OCsr scenario_graph).
Proof.
  eexists _, _. split; [vm_compute; reflexivity|].
  apply (zscore_input_unchanged (world_of (OCsr scenario_graph)) _ 0%nat Axis0 (Ok 1%nat)).
  - vm_compute; reflexivity.
  - reflexivity.
Defined.


(** *** Broadcasting *)

Lemma stretch_same {B} (n : nat) (l : list B) : length l = n -> stretch n l = l.
Proof.
  intros <-. unfold stretch. destruct l as [|x [|y l]]; reflexivity.
Qed.

Lemma nth_error_map2 {B C D} (f : B -> C -> D) xs ys i :
  nth_error (map2 f xs ys) i
  = match nth_error xs i, nth_error ys i with
    | Some x, Some y => Some (f x y)
    | _, _ => None
    end.
Proof.
  revert ys i. induction xs as [|x xs IH]; intros [|y ys] [|i]; simpl; auto.
  destruct (nth_error xs i); reflexivity.
Qed.

Lemma bdim_same n : bdim n n = Some n.
Proof. unfold bdim. rewrite Nat.eqb_refl. reflexivity. Qed.

Lemma bdim_one_r n : bdim n 1 = Some n.
Proof.
  unfold bdim. destruct (n =? 1)%nat eqn:E; [apply Nat.eqb_eq in E; subst|]; reflexivity.
Qed.

Lemma map_stretch_same {B} (rows : list (list B)) g :
  Forall (fun r => length r = g) rows -> map (stretch g) rows = rows.
Proof.
  induction rows as [|r rows IH]; intros Hg; [reflexivity|].
  inversion Hg as [|? ? Hr Hrest]; subst. simpl.
  rewrite IH by assumption. rewrite stretch_same by reflexivity. reflexivity.
Qed.

Lemma broadcast_to_same {B} (m : ndarray B) n g :
  length (nd_rows m) = n -> Forall (fun r => length r = g) (nd_rows m) ->
  broadcast_to n g m = nd_rows m.
Proof.
  intros Hn Hg. unfold broadcast_to.
  rewrite map_stretch_same by assumption. apply stretch_same. exact Hn.
Qed.

Lemma broadcast_to_row {B} (row : list B) n g shp :
  length row = g ->
  broadcast_to n g {| nd_shape := shp; nd_rows := [row] |} = repeat row n.
Proof. intros Hg. unfold broadcast_to. simpl. rewrite (stretch_same _ _ Hg). reflexivity. Qed.


Lemma nth_error_repeat_lt {B} (x : B) n i : (i < n)%nat -> nth_error (repeat x n) i = Some x.
Proof.
  revert i. induction n as [|n IH]; intros [|i] Hi; simpl; try lia; auto.
  apply IH. lia.
Qed.

(** *** Shapes of the matrices Z-Scorer works with *)

Lemma col_sums_length g rows :
  Forall (fun r => length r = g) rows -> length (col_sums g rows) = g.
Proof.
  unfold col_sums. intros Hrows.
  destruct (g =? 1)%nat eqn:E1; [apply Nat.eqb_eq in E1; subst g; reflexivity|].
  assert (G : forall acc, length acc = g ->
            length (fold_left (map2 PrimFloat.add) rows acc) = g).
  { induction Hrows as [|r rows Hr _ IH]; intros acc Hacc; simpl; [exact Hacc|].
    apply IH. rewrite map2_length. lia. }
  apply G. apply repeat_length.
Qed.

Lemma add_at_length j v row : length (add_at j v row) = length row.
Proof.
  revert j. induction row as [|x row IH]; intros [|j]; simpl; auto.
Qed.

Lemma dense_row_length g entries : length (dense_row g entries) = g.
Proof.
  unfold dense_row.
  assert (G : forall acc, length acc = g ->
            length (fold_left (fun row '(j, v) =>
                      if 0 <=? j then add_at (Z.to_nat j) v row else row) entries acc) = g).
  { induction entries as [|[j v] entries IH]; intros acc Hacc; simpl; [exact Hacc|].
    apply IH. destruct (0 <=? j); [rewrite add_at_length|]; exact Hacc. }
  apply G. apply repeat_length.
Qed.

Lemma csr_rows_length {A} (g : csr A) : length (csr_rows g) = (length (indptr g) - 1)%nat.
Proof. unfold csr_rows. rewrite length_map. apply row_bounds_length. Qed.

Lemma todense_wf (g : csr float) :
  length (indptr g) = S (fst (shape g)) -> nd_wf (todense g).
Proof.
  intros Hlen. split; simpl.
  - rewrite length_map, csr_rows_length. lia.
  - apply List.Forall_forall. intros r Hr. apply in_map_iff in Hr as (e & <- & _).
    apply dense_row_length.
Qed.

Lemma dense_of_wf (m : pyobj float) :
  obj_wf m -> nd_wf (dense_of m) /\ nd_shape (dense_of m) = obj_shape m.
Proof.
  destruct m as [g|a]; simpl; intros Hwf; [|auto].
  split; [apply todense_wf; exact Hwf|reflexivity].
Qed.

Lemma obj_map_wf f (m : pyobj float) :
  obj_wf m -> obj_wf (obj_map f m) /\ obj_shape (obj_map f m) = obj_shape m.
Proof.
  destruct m as [g|a]; simpl; intros Hwf; [auto|].
  split; [|reflexivity]. destruct Hwf as [Hn Hg]. split; simpl.
  - rewrite length_map. exact Hn.
  - apply List.Forall_forall. intros r Hr. apply in_map_iff in Hr as (r0 & <- & Hr0).
    rewrite length_map. rewrite List.Forall_forall in Hg. apply Hg. exact Hr0.
Qed.

(** The mean down the columns is one row as wide as the matrix. *)
Lemma py_mean_axis0 (m : pyobj float) E_x :
  obj_wf m -> py_mean m Axis0 = Ok E_x ->
  exists row, E_x = {| nd_shape := (1%nat, snd (obj_shape m)); nd_rows := [row] |} /\
              length row = snd (obj_shape m).
Proof.
  intros Hwf. destruct m as [g|a]; simpl in *.
  - unfold csr_mean. destruct (shape g) as [n c] eqn:Hs.
    destruct (n =? 0)%nat; [discriminate|]. intros [= <-].
    eexists; split; [reflexivity|]. simpl.
    apply dense_row_length.
  - intros [= <-]. unfold nd_mean. destruct Hwf as [_ Hg].
    destruct (nd_shape a) as [n g]. simpl in *.
    eexists; split; [reflexivity|].
    rewrite length_map. apply col_sums_length. exact Hg.
Qed.


(** *** The entries of the z-scored matrix *)

Lemma broadcast2_row f (x : ndarray float) (row : list float) n g :
  nd_shape x = (n, g) ->
  broadcast2 f x {| nd_shape := (1%nat, g); nd_rows := [row] |}
  = Ok {| nd_shape := (n, g);
          nd_rows := map2 (map2 f) (broadcast_to n g x)
                          (broadcast_to n g {| nd_shape := (1%nat, g); nd_rows := [row] |}) |}.
Proof.
  intros Hs. unfold broadcast2. rewrite Hs. simpl.
  rewrite bdim_one_r, bdim_same. reflexivity.
Qed.


Lemma map2_rows_lengths {B C D} (f : B -> C -> D) (rows : list (list B)) (rows' : list (list C)) g :
  Forall (fun r => length r = g) rows -> Forall (fun r => length r = g) rows' ->
  Forall (fun r => length r = g) (map2 (map2 f) rows rows').
Proof.
  intros Hr. revert rows'. induction Hr as [|r rows Hlen _ IH]; intros [|r' rows'] Hr';
    simpl; try constructor.
  - inversion Hr'; subst. rewrite map2_length. lia.
  - inversion Hr'; subst. apply IH. assumption.
Qed.

Lemma Forall_repeat {B} (P : B -> Prop) x n : P x -> Forall P (repeat x n).
Proof. intros Hx. induction n; simpl; constructor; auto. Qed.






Lemma py_mean_ok (m : pyobj float) ax :
  match ax with
  | Axis0 => fst (obj_shape m) <> 0%nat
  | Axis1 => snd (obj_shape m) <> 0%nat
  end ->
  exists E, py_mean m ax = Ok E.
Proof.
  destruct m as [g|a]; simpl; [|eauto].
  unfold csr_mean. destruct (shape g) as [n c]. simpl.
  destruct ax; intros Hne;
    [destruct (Nat.eqb_spec n 0)|destruct (Nat.eqb_spec c 0)]; try contradiction; eauto.
Qed.

Lemma cell_defined (a : ndarray float) i j :
  nd_wf a -> (i < fst (nd_shape a))%nat -> (j < snd (nd_shape a))%nat ->
  exists x, cell a i j = Some x.
Proof.
  intros [Hn Hg] Hi Hj. unfold cell.
  destruct (nth_error (nd_rows a) i) as [row|] eqn:Hrow;
    [|apply nth_error_None in Hrow; lia].
  rewrite List.Forall_forall in Hg. pose proof (Hg row (nth_error_In _ _ Hrow)) as Hlen.
  destruct (nth_error row j) as [x|] eqn:Hx; [eauto|].
  apply nth_error_None in Hx. lia.
Qed.







(** ** Feature Fusion *)

(** What a call of Feature Fusion does to two different objects: both are
    scaled in place, then the concatenation is attempted. *)
Lemma run_weighted_concatenate (w : world float) (cell_genes neighbours : loc)
    (c n : pyobj float) (lam : float) :
  heap w !! cell_genes = Some c -> heap w !! neighbours = Some n ->
  cell_genes <> neighbours ->
  let h2 := <[neighbours := scaled_neighbours lam n]>
              (<[cell_genes := scaled_self lam c]> (heap w)) in
  weighted_concatenate cell_genes neighbours lam w
  = match hstack_objs (scaled_self lam c) (scaled_neighbours lam n) with
    | Ok r => (Ok (fresh (dom h2)), with_heap (<[fresh (dom h2) := r]> h2) w)
    | Err e => (Err e, with_heap h2 w)
    end.
Proof.
  intros Hc Hn Hne h2. unfold weighted_concatenate, imul.
  rewrite run_bind, run_bind, (run_load _ _ _ Hc). unfold store at 1.
  rewrite run_bind, run_bind.
  rewrite (run_load neighbours n)
    by (simpl; rewrite lookup_insert_ne by exact Hne; exact Hn).
  unfold store at 1. rewrite with_heap_twice, heap_with_heap.
  fold (scaled_self lam c) (scaled_neighbours lam n). fold h2.
  rewrite run_bind, (run_load cell_genes (scaled_self lam c))
    by (simpl; unfold h2; rewrite lookup_insert_ne by congruence; apply lookup_insert_eq).
  rewrite run_bind, (run_load neighbours (scaled_neighbours lam n))
    by (simpl; apply lookup_insert_eq).
  unfold hstack_objs.
  destruct (scaled_self lam c) as [a|a], (scaled_neighbours lam n) as [b|b];
    rewrite run_bind; unfold lift at 1;
    match goal with |- context [match ?r ≫= _ with _ => _ end] => destruct r end;
    reflexivity.
Qed.

Lemma hstack_objs_shape (c n r : pyobj float) :
  hstack_objs c n = Ok r ->
  obj_shape r = (fst (obj_shape c), (snd (obj_shape c) + snd (obj_shape n))%nat).
Proof.
  unfold hstack_objs, sparse_hstack, np_concatenate1.
  destruct c as [a|a], n as [b|b]; simpl;
    match goal with |- context [if ?t then _ else _] => destruct t end;
    simpl; intros [= <-]; reflexivity.
Qed.

Lemma hstack_objs_ok (c n : pyobj float) :
  fst (obj_shape c) = fst (obj_shape n) -> exists r, hstack_objs c n = Ok r.
Proof.
  unfold hstack_objs, sparse_hstack, np_concatenate1.
  destruct c as [a|a], n as [b|b]; simpl; intros ->; rewrite Nat.eqb_refl; simpl; eauto.
Qed.

Lemma hstack_objs_err (c n : pyobj float) :
  fst (obj_shape c) <> fst (obj_shape n) -> hstack_objs c n = Err ValueError.
Proof.
  unfold hstack_objs, sparse_hstack, np_concatenate1.
  destruct c as [a|a], n as [b|b]; simpl; intros Hne;
    match goal with |- context [(?x =? ?y)%nat] => destruct (Nat.eqb_spec x y) end;
    try contradiction; reflexivity.
Qed.

Lemma obj_map_shape f (o : pyobj float) : obj_shape (obj_map f o) = obj_shape o.
Proof. destruct o; reflexivity. Qed.

Lemma obj_map_id f (o : pyobj float) : (forall x, f x = x) -> obj_map f o = o.
Proof.
  intros Hf.
  assert (E : forall l, map f l = l) by (intros l; rewrite (map_ext _ id Hf); apply map_id).
  destruct o as [g|a]; simpl; f_equal.
  - unfold set_data. rewrite E. destruct g; reflexivity.
  - unfold nd_map. rewrite (map_ext _ id E), map_id. destruct a; reflexivity.
Qed.

Lemma obj_map_entries f (o : pyobj float) : obj_entries (obj_map f o) = map f (obj_entries o).
Proof.
  destruct o as [g|a]; simpl; [reflexivity|].
  symmetry. apply concat_map.
Qed.

(** Scaling by [sqrt 0] turns every finite entry into a zero. *)
Lemma scaled_by_zero (o : pyobj float) :
  Forall (fun x => is_finite x = true) (obj_entries o) ->
  Forall is_zero_entry (obj_entries (obj_map (fun x => x * 0)%float o)).
Proof.
  intros Hfin. rewrite obj_map_entries. apply Forall_map.
  eapply List.Forall_impl; [|exact Hfin]. intros x Hx. apply mul_zero_r. exact Hx.
Qed.

(** *** The two blocks of a dense result *)

Lemma concatenate_blocks (a b r : ndarray float) :
  nd_wf a -> nd_wf b -> np_concatenate1 a b = Ok r ->
  left_block (snd (nd_shape a)) r = nd_rows a /\
  right_block (snd (nd_shape a)) r = nd_rows b.
Proof.
  intros [Hna Hga] [Hnb Hgb]. unfold np_concatenate1.
  destruct (Nat.eqb_spec (fst (nd_shape a)) (fst (nd_shape b))) as [Hn|]; [|discriminate].
  intros [= <-]. unfold left_block, right_block. simpl.
  assert (Hlen : length (nd_rows a) = length (nd_rows b)) by congruence.
  clear Hna Hnb Hn Hgb. revert Hlen Hga.
  generalize (nd_rows b) as rb. generalize (snd (nd_shape a)) as g.
  induction (nd_rows a) as [|x ra IH]; intros g [|y rb] Hlen Hga; simpl in *;
    try discriminate; [split; reflexivity|].
  inversion Hga as [|? ? Hx Hrest]; subst.
  destruct (IH _ rb ltac:(lia) Hrest) as [IH1 IH2]. rewrite IH1, IH2.
  rewrite firstn_app, firstn_all, Nat.sub_diag, firstn_O, app_nil_r.
  rewrite skipn_app, skipn_all, Nat.sub_diag. split; reflexivity.
Qed.

Lemma add_at_zero j v row :
  is_zero_entry v -> Forall is_zero_entry row -> Forall is_zero_entry (add_at j v row).
Proof.
  intros Hv. revert j. induction row as [|x row IH]; intros j Hrow; [destruct j; constructor|].
  inversion Hrow as [|? ? Hx Hrest]; subst.
  destruct j as [|j]; simpl; constructor; auto.
  apply add_zero_zero; assumption.
Qed.

Lemma dense_row_zero g entries :
  Forall (fun e => is_zero_entry (snd e)) entries -> Forall is_zero_entry (dense_row g entries).
Proof.
  unfold dense_row. intros Hent.
  assert (G : forall acc, Forall is_zero_entry acc ->
            Forall is_zero_entry
              (fold_left (fun row '(j, v) =>
                 if 0 <=? j then add_at (Z.to_nat j) v row else row) entries acc)).
  { induction Hent as [|[j v] entries Hv _ IH]; intros acc Hacc; simpl; [exact Hacc|].
    apply IH. destruct (0 <=? j); [apply add_at_zero|]; assumption. }
  apply G. apply Forall_repeat. reflexivity.
Qed.

Lemma py_slice_incl {B} (l : list B) a b x : In x (py_slice l a b) -> In x l.
Proof.
  unfold py_slice. intros Hin.
  rewrite <- (firstn_skipn (py_bound (length l) a) l). apply in_or_app. right.
  rewrite <- (firstn_skipn (py_bound (length l) b - py_bound (length l) a)
                (skipn (py_bound (length l) a) l)).
  apply in_or_app. left. exact Hin.
Qed.

(** The dense view of a matrix whose stored entries are all zero is all
    zero. *)
Lemma dense_of_zero (o : pyobj float) :
  Forall is_zero_entry (obj_entries o) ->
  Forall (Forall is_zero_entry) (nd_rows (dense_of o)).
Proof.
  destruct o as [g|a]; simpl; intros Hz.
  - apply List.Forall_forall. intros r Hr. apply in_map_iff in Hr as (entries & <- & Hent).
    apply dense_row_zero. unfold csr_rows in Hent.
    apply in_map_iff in Hent as ([lo hi] & <- & _).
    apply List.Forall_forall. intros [j v] Hjv. simpl.
    apply in_combine_r in Hjv. apply py_slice_incl in Hjv.
    rewrite List.Forall_forall in Hz. apply Hz. exact Hjv.
  - apply List.Forall_forall. intros r Hr.
    apply List.Forall_forall. intros x Hx.
    rewrite List.Forall_forall in Hz. apply Hz. apply in_concat. eauto.
Qed.

(** *** The rows of a sparse matrix put together row by row *)

Lemma py_slice_exact {B} (pre r post : list B) :
  py_slice (pre ++ r ++ post) (Z.of_nat (length pre)) (Z.of_nat (length pre + length r)) = r.
Proof.
  unfold py_slice.
  rewrite !py_bound_in by (rewrite !length_app; lia).
  rewrite !Nat2Z.id.
  rewrite skipn_app, skipn_all, Nat.sub_diag.
  change (skipn 0 (r ++ post)) with (r ++ post). cbn [app].
  replace (length pre + length r - length pre)%nat with (length r) by lia.
  rewrite firstn_app, firstn_all, Nat.sub_diag. cbn [firstn]. apply app_nil_r.
Qed.

Lemma slices_of_concat {B} (rows : list (list B)) : forall (pre : list B),
  map (fun '(lo, hi) => py_slice (pre ++ concat rows) lo hi)
      (row_bounds (Z.of_nat (length pre)
                   :: np_cumsum_from (Z.of_nat (length pre))
                        (map (fun r => Z.of_nat (length r)) rows)))
  = rows.
Proof.
  induction rows as [|r rows IH]; intros pre; [reflexivity|].
  cbn [map np_cumsum_from concat]. rewrite row_bounds_cons. cbn [map]. f_equal.
  - rewrite <- Nat2Z.inj_add. apply py_slice_exact.
  - rewrite <- Nat2Z.inj_add, <- length_app.
    rewrite <- (IH (pre ++ r)) at 2.
    apply map_ext. intros [lo hi]. rewrite <- app_assoc. reflexivity.
Qed.

Lemma map_combine_fst_snd {B C} (l : list (B * C)) : combine (map fst l) (map snd l) = l.
Proof. induction l as [|[x y] l IH]; simpl; [|rewrite IH]; reflexivity. Qed.

(** The rows of the matrix built from a list of rows are those rows. *)
Lemma csr_rows_of_rows (rows : list (list (Z * float))) (shp : nat * nat) :
  csr_rows {| data := concat (map (map snd) rows);
              indices := concat (map (map fst) rows);
              indptr := 0 :: np_cumsum (map (fun r => Z.of_nat (length r)) rows);
              shape := shp |}
  = rows.
Proof.
  unfold csr_rows. cbn [data indices indptr].
  set (bounds := row_bounds (0 :: np_cumsum (map (fun r => Z.of_nat (length r)) rows))).
  set (ix := concat (map (map fst) rows)). set (d := concat (map (map snd) rows)).
  assert (H1 : map (fun '(lo, hi) => py_slice ix lo hi) bounds = map (map fst) rows).
  { pose proof (slices_of_concat (map (map fst) rows) []) as H. simpl in H.
    rewrite map_map in H. unfold bounds, np_cumsum, ix.
    erewrite (map_ext (fun r => Z.of_nat (length r))); [exact H|].
    intros r. simpl. rewrite length_map. reflexivity. }
  assert (H2 : map (fun '(lo, hi) => py_slice d lo hi) bounds = map (map snd) rows).
  { pose proof (slices_of_concat (map (map snd) rows) []) as H. simpl in H.
    rewrite map_map in H. unfold bounds, np_cumsum, d.
    erewrite (map_ext (fun r => Z.of_nat (length r))); [exact H|].
    intros r. simpl. rewrite length_map. reflexivity. }
  clearbody bounds ix d. revert rows H1 H2.
  induction bounds as [|[lo hi] bounds IH]; intros [|r rows] H1 H2; simpl in *;
    try discriminate; [reflexivity|].
  injection H1 as E1 H1. injection H2 as E2 H2.
  rewrite E1, E2, map_combine_fst_snd. f_equal. apply IH; assumption.
Qed.

(** *** The dense form of a row made of two *)

Lemma add_at_app_l k v (x y : list float) :
  (k < length x)%nat -> add_at k v (x ++ y) = add_at k v x ++ y.
Proof.
  revert k. induction x as [|a x IH]; intros [|k] Hk; simpl in *; try lia; [reflexivity|].
  rewrite IH by lia. reflexivity.
Qed.

Lemma add_at_app_r k v (x y : list float) :
  add_at (length x + k) v (x ++ y) = x ++ add_at k v y.
Proof. induction x as [|a x IH]; simpl; [reflexivity|]. rewrite IH. reflexivity. Qed.

Lemma fold_add_at_left (ca : nat) (ra : list (Z * float)) : forall (x y : list float),
  length x = ca ->
  Forall (fun e => fst e < Z.of_nat ca) ra ->
  fold_left (fun row '(j, v) => if 0 <=? j then add_at (Z.to_nat j) v row else row) ra (x ++ y)
  = fold_left (fun row '(j, v) => if 0 <=? j then add_at (Z.to_nat j) v row else row) ra x ++ y.
Proof.
  induction ra as [|[j v] ra IH]; intros x y Hx Hra; [reflexivity|].
  inversion Hra as [|? ? Hj Hrest]; subst. simpl in Hj. cbn [fold_left].
  destruct (Z.leb_spec 0 j).
  - rewrite add_at_app_l by lia. apply IH; [rewrite add_at_length; reflexivity|exact Hrest].
  - apply IH; [reflexivity|exact Hrest].
Qed.

Lemma fold_add_at_right (ca : nat) (rb : list (Z * float)) : forall (x y : list float),
  length x = ca ->
  Forall (fun e => 0 <= fst e) rb ->
  fold_left (fun row '(j, v) => if 0 <=? j then add_at (Z.to_nat j) v row else row)
            (map (fun '(j, v) => (j + Z.of_nat ca, v)) rb) (x ++ y)
  = x ++ fold_left (fun row '(j, v) => if 0 <=? j then add_at (Z.to_nat j) v row else row) rb y.
Proof.
  induction rb as [|[j v] rb IH]; intros x y Hx Hrb; [reflexivity|].
  inversion Hrb as [|? ? Hj Hrest]; subst. simpl in Hj. cbn [fold_left map].
  destruct (Z.leb_spec 0 (j + Z.of_nat (length x))); [|lia].
  destruct (Z.leb_spec 0 j); [|lia].
  replace (Z.to_nat (j + Z.of_nat (length x))) with (length x + Z.to_nat j)%nat by lia.
  rewrite add_at_app_r. apply IH; [reflexivity|exact Hrest].
Qed.

Lemma dense_row_app (ca cb : nat) (ra rb : list (Z * float)) :
  Forall (fun e => fst e < Z.of_nat ca) ra ->
  Forall (fun e => 0 <= fst e) rb ->
  dense_row (ca + cb) (ra ++ map (fun '(j, v) => (j + Z.of_nat ca, v)) rb)
  = dense_row ca ra ++ dense_row cb rb.
Proof.
  intros Hra Hrb. unfold dense_row. rewrite repeat_app, fold_left_app.
  rewrite (fold_add_at_left ca) by (try apply repeat_length; assumption).
  apply (fold_add_at_right ca); [|exact Hrb].
  fold (dense_row ca ra). apply dense_row_length.
Qed.

Lemma csr_rows_cols {A} (g : csr A) (P : Z -> Prop) :
  Forall P (indices g) -> Forall (Forall (fun e => P (fst e))) (csr_rows g).
Proof.
  intros Hix. unfold csr_rows. apply List.Forall_forall. intros r Hr.
  apply in_map_iff in Hr as ([lo hi] & <- & _).
  apply List.Forall_forall. intros [j v] He. simpl.
  apply in_combine_l in He. apply py_slice_incl in He.
  rewrite List.Forall_forall in Hix. apply Hix. exact He.
Qed.

(** Two sparse matrices stacked side by side, made dense, are their
    dense forms put side by side. *)
Lemma todense_hstack (a b r : csr float) :
  cols_in_range (OCsr a) -> cols_in_range (OCsr b) ->
  sparse_hstack a b = Ok r ->
  np_concatenate1 (todense a) (todense b) = Ok (todense r).
Proof.
  intros Ha Hb. unfold sparse_hstack, np_concatenate1. cbn [todense nd_shape].
  destruct (fst (shape a) =? fst (shape b))%nat; [|discriminate].
  intros [= <-]. unfold todense. cbn [shape]. rewrite csr_rows_of_rows. cbn [nd_rows].
  do 2 f_equal.
  pose proof (csr_rows_cols a _ Ha) as Hra. pose proof (csr_rows_cols b _ Hb) as Hrb.
  cbn [shape snd] in *. revert Hra Hrb.
  generalize (csr_rows b) as rowsb. generalize (snd (shape a)) as ca.
  generalize (snd (shape b)) as cb.
  induction (csr_rows a) as [|ra rowsa IH]; intros cb ca [|rb rowsb] Hra Hrb;
    simpl; try reflexivity.
  inversion Hra as [|? ? Hra1 Hra']; subst. inversion Hrb as [|? ? Hrb1 Hrb']; subst.
  rewrite <- (IH cb ca rowsb Hra' Hrb'). f_equal. symmetry. apply dense_row_app.
  - eapply List.Forall_impl; [|exact Hra1]. simpl. intros; lia.
  - eapply List.Forall_impl; [|exact Hrb1]. simpl. intros; lia.
Qed.

Lemma cols_in_range_map f (o : pyobj float) : cols_in_range o -> cols_in_range (obj_map f o).
Proof. destruct o; simpl; auto. Qed.

(** The two blocks of the dense form of the result, whether the result
    is sparse or dense. *)
Lemma hstack_objs_blocks (c n r : pyobj float) :
  obj_wf c -> obj_wf n -> cols_in_range c -> cols_in_range n ->
  hstack_objs c n = Ok r ->
  left_block (snd (obj_shape c)) (dense_of r) = nd_rows (dense_of c) /\
  right_block (snd (obj_shape c)) (dense_of r) = nd_rows (dense_of n).
Proof.
  intros Hc Hn Hcc Hcn Hr.
  destruct (dense_of_wf c Hc) as [Hcw Hcs], (dense_of_wf n Hn) as [Hnw Hns].
  rewrite <- Hcs. apply concatenate_blocks; try assumption.
  unfold hstack_objs in Hr.
  destruct c as [a|a], n as [b|b];
    match type of Hr with
    | (?x ≫= _) = _ => destruct x as [rr|] eqn:E; [|discriminate]
    end; rewrite result_bind_ok in Hr; injection Hr as <-; cbn [dense_of] in *;
    try reflexivity.
  apply todense_hstack; assumption.
Qed.

(** C6 (as stated, it fails): not for every pair of matrices.  Given the
    same matrix as both arguments with [λ = 0], Feature Fusion scales the
    one object by 1 and then by 0, and the first block of the result is
    zero, not the original matrix.  Given a neighbour matrix with an
    infinite entry, the second block has NaN where [0 * inf] was
    computed, not zero. *)
Lemma weighted_concatenate_not_every_pair :
  (exists out w' r,
     weighted_concatenate 0%nat 0%nat 0%float (world_of (ONdArray two_by_two)) = (Ok out, w') /\
     heap w' !! out = Some (ONdArray r) /\
     left_block 2 r = [[0; 0]; [0; 0]]%float /\
     nd_rows two_by_two = [[3; 4]; [5; 6]]%float /\
     PrimFloat.eqb 0 3 = false) /\
  (exists out w' r,
     weighted_concatenate 0%nat 1%nat 0%float
       (world_of2 (ONdArray two_by_one) (ONdArray unbounded_column)) = (Ok out, w') /\
     heap w' !! out = Some (ONdArray r) /\
     right_block 1 r = [[nan]; [0]]%float /\
     PrimFloat.eqb nan 0 = false).
Proof.
  split.
  - eexists _, _, _. split; [vm_compute; reflexivity|].
    split; [vm_compute; reflexivity|]. repeat split; reflexivity.
  - eexists _, _, _. split; [vm_compute; reflexivity|].
    split; [vm_compute; reflexivity|]. split; reflexivity.
Qed.

(** C6 (amended): for two feature matrices held in two different objects,
    with the same number of rows [N], and every mixing coefficient,
    Feature Fusion returns a new matrix with [N] rows and as many columns
    as the two inputs together, having scaled both inputs in place.  For
    matrices whose arrays fit their shapes, the first block of the result
    (of its dense form, when the result is sparse) is the first matrix
    scaled by [sqrt(1 - λ)] and its second block the second matrix scaled
    by [sqrt(λ)].  At [λ = 0] the first block is the original first matrix
    ([sqrt(1 - 0)] is 1) and the second block, when the entries of the
    second matrix are finite as those of a z-scored matrix are, is all
    zero.  At [λ = 1] it is the other way round. *)
Theorem weighted_concatenate_blocks (w : world float) (cell_genes neighbours : loc)
    (c n : pyobj float) (lam : float) :
  heap w !! cell_genes = Some c -> heap w !! neighbours = Some n ->
  cell_genes <> neighbours ->
  fst (obj_shape c) = fst (obj_shape n) ->
  exists out w' r,
    weighted_concatenate cell_genes neighbours lam w = (Ok out, w') /\
    heap w !! out = None /\
    heap w' !! out = Some r /\
    obj_shape r = (fst (obj_shape c), (snd (obj_shape c) + snd (obj_shape n))%nat) /\
    heap w' !! cell_genes = Some (scaled_self lam c) /\
    heap w' !! neighbours = Some (scaled_neighbours lam n) /\
    (obj_wf c -> obj_wf n -> cols_in_range c -> cols_in_range n ->
     left_block (snd (obj_shape c)) (dense_of r) = nd_rows (dense_of (scaled_self lam c)) /\
     right_block (snd (obj_shape c)) (dense_of r)
     = nd_rows (dense_of (scaled_neighbours lam n)) /\
     (lam = 0%float ->
        scaled_self lam c = c /\
        left_block (snd (obj_shape c)) (dense_of r) = nd_rows (dense_of c) /\
        (Forall (fun x => is_finite x = true) (obj_entries n) ->
         Forall (Forall is_zero_entry) (right_block (snd (obj_shape c)) (dense_of r)))) /\
     (lam = 1%float ->
        scaled_neighbours lam n = n /\
        right_block (snd (obj_shape c)) (dense_of r) = nd_rows (dense_of n) /\
        (Forall (fun x => is_finite x = true) (obj_entries c) ->
         Forall (Forall is_zero_entry) (left_block (snd (obj_shape c)) (dense_of r))))).
Proof.
  intros Hc Hn Hne Hrows.
  pose proof (run_weighted_concatenate w cell_genes neighbours c n lam Hc Hn Hne) as Hrun.
  cbv zeta in Hrun.
  set (h2 := <[neighbours := scaled_neighbours lam n]>
               (<[cell_genes := scaled_self lam c]> (heap w))) in *.
  destruct (hstack_objs_ok (scaled_self lam c) (scaled_neighbours lam n)) as [r Hr].
  { unfold scaled_self, scaled_neighbours. rewrite !obj_map_shape. exact Hrows. }
  rewrite Hr in Hrun.
  assert (H2c : h2 !! cell_genes = Some (scaled_self lam c))
    by (unfold h2; rewrite lookup_insert_ne by congruence; apply lookup_insert_eq).
  assert (H2n : h2 !! neighbours = Some (scaled_neighbours lam n))
    by (unfold h2; apply lookup_insert_eq).
  exists (fresh (dom h2)), (with_heap (<[fresh (dom h2) := r]> h2) w), r.
  split; [exact Hrun|]. cbn [with_heap heap].
  split.
  { assert (Hsame : forall l, l <> neighbours -> l <> cell_genes -> h2 !! l = heap w !! l)
      by (intros l H1 H2; unfold h2; rewrite !lookup_insert_ne by congruence; reflexivity).
    rewrite <- Hsame;
      [apply fresh_not_in|apply (fresh_ne _ _ _ H2n)|apply (fresh_ne _ _ _ H2c)]. }
  split; [apply lookup_insert_eq|].
  split; [rewrite (hstack_objs_shape _ _ _ Hr); unfold scaled_self, scaled_neighbours;
          rewrite !obj_map_shape; reflexivity|].
  split; [rewrite lookup_insert_ne by (apply (fresh_ne _ _ _ H2c)); exact H2c|].
  split; [rewrite lookup_insert_ne by (apply (fresh_ne _ _ _ H2n)); exact H2n|].
  intros Hwc Hwn Hcc Hcn.
  destruct (hstack_objs_blocks (scaled_self lam c) (scaled_neighbours lam n) r) as [Hl Hrb];
    try (apply obj_map_wf; assumption); try (apply cols_in_range_map; assumption);
    [exact Hr|].
  unfold scaled_self at 1 in Hl. unfold scaled_self at 1 in Hrb.
  rewrite obj_map_shape in Hl, Hrb.
  split; [exact Hl|]. split; [exact Hrb|]. split.
  - intros ->.
    assert (Ec : scaled_self 0 c = c) by (apply obj_map_id; intros x; apply mul_one_r).
    split; [exact Ec|]. split; [rewrite Hl, Ec; reflexivity|].
    intros Hfin. rewrite Hrb. apply dense_of_zero. apply scaled_by_zero. exact Hfin.
  - intros ->.
    assert (En : scaled_neighbours 1 n = n) by (apply obj_map_id; intros x; apply mul_one_r).
    split; [exact En|]. split; [rewrite Hrb, En; reflexivity|].
    intros Hfin. rewrite Hl. apply dense_of_zero. apply scaled_by_zero. exact Hfin.
Qed.

Lemma weighted_concatenate_blocks_witness :
  exists out w' r,
    weighted_concatenate 0%nat 1%nat 0%float
      (world_of2 (OCsr sparse_two_by_two) (OCsr sparse_two_by_three)) = (Ok out, w') /\
    heap w' !! out = Some r /\
    obj_shape r = (2%nat, 5%nat) /\
    left_block 2 (dense_of r) = [[1; 0]; [0; 2]]%float /\
    Forall (Forall is_zero_entry) (right_block 2 (dense_of r)).
Proof.
  destruct (weighted_concatenate_blocks
              (world_of2 (OCsr sparse_two_by_two) (OCsr sparse_two_by_three)) 0%nat 1%nat
              (OCsr sparse_two_by_two) (OCsr sparse_two_by_three) 0%float eq_refl eq_refl)
    as (out & w' & r & Hrun & _ & Hout & Hshape & _ & _ & Hblocks);
    [discriminate|reflexivity|].
  exists out, w', r. split; [exact Hrun|]. split; [exact Hout|]. split; [exact Hshape|].
  destruct Hblocks as (_ & _ & Hzero & _);
    [reflexivity|reflexivity|simpl; repeat constructor; lia|simpl; repeat constructor; lia|].
  destruct (Hzero eq_refl) as (_ & Hl & Hz).
  split; [exact Hl|]. apply Hz. repeat constructor.
Defined.

(** C8 (as stated, it fails): Feature Fusion validates nothing.  With
    [λ = 2] it returns a matrix (whose first block, scaled by the square
    root of -1, is NaN); with two rows against three it fails only in
    the concatenation, after both inputs have been scaled in place. *)
Lemma weighted_concatenate_no_validation :
  (exists out w' r,
     weighted_concatenate 0%nat 1%nat 2%float
       (world_of2 (ONdArray two_by_one) (ONdArray two_by_two)) = (Ok out, w') /\
     heap w' !! out = Some (ONdArray r) /\
     left_block 1 r = [[nan]; [nan]]) /\
  (exists w',
     weighted_concatenate 0%nat 1%nat 0.25%float
       (world_of2 (ONdArray two_by_one) (ONdArray three_by_one)) = (Err ValueError, w') /\
     heap w' !! 0%nat = Some (scaled_self 0.25 (ONdArray two_by_one)) /\
     scaled_self 0.25 (ONdArray two_by_one) <> ONdArray two_by_one).
Proof.
  split.
  - eexists _, _, _. split; [vm_compute; reflexivity|].
    split; [vm_compute; reflexivity|]. reflexivity.
  - eexists. split; [vm_compute; reflexivity|]. split; [vm_compute; reflexivity|].
    vm_compute. discriminate.
Qed.

(** C8 (amended): Feature Fusion validates neither argument.  For two
    different objects with the same number of rows it returns, whatever
    the mixing coefficient is, in or out of [[0, 1]].  With different
    numbers of rows it fails with the [ValueError] of the concatenation,
    and by then both inputs have been scaled in place. *)
Theorem weighted_concatenate_failure (w : world float) (cell_genes neighbours : loc)
    (c n : pyobj float) (lam : float) :
  heap w !! cell_genes = Some c -> heap w !! neighbours = Some n ->
  cell_genes <> neighbours ->
  (fst (obj_shape c) = fst (obj_shape n) ->
   exists out w', weighted_concatenate cell_genes neighbours lam w = (Ok out, w')) /\
  (fst (obj_shape c) <> fst (obj_shape n) ->
   exists w',
     weighted_concatenate cell_genes neighbours lam w = (Err ValueError, w') /\
     heap w' !! cell_genes = Some (scaled_self lam c) /\
     heap w' !! neighbours = Some (scaled_neighbours lam n)).
Proof.
  intros Hc Hn Hne.
  pose proof (run_weighted_concatenate w cell_genes neighbours c n lam Hc Hn Hne) as Hrun.
  cbv zeta in Hrun. split; intros Hrows.
  - destruct (hstack_objs_ok (scaled_self lam c) (scaled_neighbours lam n)) as [r Hr].
    { unfold scaled_self, scaled_neighbours. rewrite !obj_map_shape. exact Hrows. }
    rewrite Hr in Hrun. eauto.
  - rewrite hstack_objs_err in Hrun
      by (unfold scaled_self, scaled_neighbours; rewrite !obj_map_shape; exact Hrows).
    eexists. split; [exact Hrun|]. cbn [with_heap heap]. split.
    + rewrite lookup_insert_ne by congruence. apply lookup_insert_eq.
    + apply lookup_insert_eq.
Qed.

Lemma weighted_concatenate_failure_witness :
  (exists out w',
     weighted_concatenate 0%nat 1%nat 2%float
       (world_of2 (ONdArray two_by_one) (ONdArray two_by_two)) = (Ok out, w')) /\
  (exists w',
     weighted_concatenate 0%nat 1%nat 0.25%float
       (world_of2 (ONdArray two_by_one) (ONdArray three_by_one)) = (Err ValueError, w') /\
     heap w' !! 0%nat = Some (scaled_self 0.25 (ONdArray two_by_one))).
Proof.
  split.
  - apply (proj1 (weighted_concatenate_failure
                    (world_of2 (ONdArray two_by_one) (ONdArray two_by_two)) 0%nat 1%nat
                    (ONdArray two_by_one) (ONdArray two_by_two) 2%float
                    eq_refl eq_refl ltac:(discriminate))).
    reflexivity.
  - destruct (proj2 (weighted_concatenate_failure
                       (world_of2 (ONdArray two_by_one) (ONdArray three_by_one)) 0%nat 1%nat
                       (ONdArray two_by_one) (ONdArray three_by_one) 0.25%float
                       eq_refl eq_refl ltac:(discriminate)))
      as (w' & Hrun & Hcell & _); [simpl; lia|].
    exists w'. split; assumption.
Defined.

(** * Further properties *)

(** ** CSR Filter on any graph *)

(** A run of CSR Filter on a graph of which nothing is assumed: [data] is
    always cut down; cutting [indices] fails when it is too short, the
    histogram fails when the row pointers decrease, and either failure
    leaves the graph as far as it had been changed. *)
Lemma run_remove_greater_than_any `{Dtype A} (w : world A) graph (g : csr A) t copy_ verbose :
  heap w !! graph = Some (OCsr g) ->
  remove_greater_than graph t copy_ verbose w
  = let l := target copy_ graph w in
    let mask := gt_mask t (data g) in
    let g1 := set_data (drop_masked mask (data g)) g in
    match np_delete (indices g) (np_where mask) with
    | Err e => (Err e, with_heap (<[l := OCsr g1]> (heap w)) w)
    | Ok ix =>
        match np_histogram (np_where mask) (indptr g) with
        | Err e => (Err e, with_heap (<[l := OCsr (set_indices ix g1)]> (heap w)) w)
        | Ok hist =>
            (Ok l,
             with_heap (<[l := OCsr (set_indptr
                                      match indptr g with
                                      | [] => []
                                      | p0 :: rest => p0 :: map2 Z.sub rest (np_cumsum hist)
                                      end (set_indices ix g1))]> (heap w)) w)
        end
    end.
Proof.
  intros Hg. cbv zeta. unfold remove_greater_than.
  rewrite run_bind, (run_copy_or_not _ _ _ _ Hg).
  set (l := target copy_ graph w).
  rewrite run_bind, (run_load_csr l g) by (simpl; apply lookup_insert_eq).
  rewrite run_bind. unfold lift at 1.
  rewrite np_delete_where by (rewrite gt_mask_length; lia).
  rewrite run_bind. unfold store at 1. rewrite with_heap_twice, heap_with_heap, insert_insert_eq.
  rewrite run_bind, (run_load_csr l (set_data _ g)) by (simpl; apply lookup_insert_eq).
  rewrite run_bind. unfold lift at 1. cbn [set_data indices data].
  destruct (np_delete (indices g) _) as [ix|e]; [|reflexivity].
  rewrite run_bind. unfold store at 1. rewrite with_heap_twice, heap_with_heap, insert_insert_eq.
  rewrite run_bind, (run_load_csr l (set_indices _ (set_data _ g)))
    by (simpl; apply lookup_insert_eq).
  rewrite run_bind. unfold lift at 1. cbn [set_indices set_data indptr].
  destruct (np_histogram _ (indptr g)) as [hist|e]; [|reflexivity].
  rewrite run_bind. unfold store at 1. rewrite with_heap_twice, heap_with_heap, insert_insert_eq.
  rewrite run_ret. reflexivity.
Qed.

Lemma run_remove_greater_than_heap `{Dtype A} (w w' : world A) graph (g : csr A) t
    copy_ verbose r :
  heap w !! graph = Some (OCsr g) ->
  remove_greater_than graph t copy_ verbose w = (r, w') ->
  exists g', w' = with_heap (<[target copy_ graph w := OCsr g']> (heap w)) w /\
             forall out, r = Ok out -> out = target copy_ graph w.
Proof.
  intros Hg. rewrite (run_remove_greater_than_any _ _ _ _ _ _ Hg). cbv zeta.
  destruct (np_delete (indices g) _) as [ix|e].
  - destruct (np_histogram _ (indptr g)) as [hist|e]; intros [= <- <-];
      eexists; (split; [reflexivity|]); intros out E; inversion E; reflexivity.
  - intros [= <- <-]. eexists. split; [reflexivity|]. intros out [=].
Qed.

(** X1: CSR Filter with [copy=True] works on a copy: whether it returns
    or raises, every object that existed before the call, the given graph
    among them, is as it was, and a graph that is returned is a new
    object.  With [copy=False] it works on the given graph itself: that is
    the object it returns, no object is created, and no other object is
    touched. *)
Theorem remove_greater_than_copy_or_in_place `{Dtype A} (w : world A) (graph : loc)
    (g : csr A) (t : A) (verbose : bool) :
  heap w !! graph = Some (OCsr g) ->
  (forall r w', remove_greater_than graph t true verbose w = (r, w') ->
     (forall l o, heap w !! l = Some o -> heap w' !! l = Some o) /\
     (forall out, r = Ok out -> heap w !! out = None /\ out <> graph)) /\
  (forall r w', remove_greater_than graph t false verbose w = (r, w') ->
     (forall out, r = Ok out -> out = graph) /\
     dom (heap w') = dom (heap w) /\
     (forall l, l <> graph -> heap w' !! l = heap w !! l)).
Proof.
  intros Hg. split; intros r w' Hrun;
    destruct (run_remove_greater_than_heap _ _ _ _ _ _ _ _ Hg Hrun) as (g' & -> & Hout);
    cbn [target with_heap heap] in *.
  - split.
    + intros l o Hl. rewrite lookup_insert_ne by (apply (fresh_ne _ _ o); exact Hl). exact Hl.
    + intros out Hr. rewrite (Hout out Hr). split; [apply fresh_not_in|].
      apply (fresh_ne _ _ (OCsr g)). exact Hg.
  - split; [exact Hout|]. split.
    + rewrite dom_insert_L. apply elem_of_dom_2 in Hg.
      apply subseteq_union_1_L, singleton_subseteq_l. exact Hg.
    + intros l Hl. apply lookup_insert_ne. congruence.
Qed.

Lemma remove_greater_than_copy_or_in_place_witness :
  exists w',
    remove_greater_than 0%nat 4%float true false (world_of (OCsr scenario_graph))
      = (Ok 1%nat, w') /\
    heap w' !! 0%nat = Some (OCsr scenario_graph).
Proof.
  eexists. split; [vm_compute; reflexivity|].
  apply (proj1 (remove_greater_than_copy_or_in_place (world_of (OCsr scenario_graph)) 0%nat
                  scenario_graph 4%float false eq_refl) (Ok 1%nat) _).
  - vm_compute. reflexivity.
  - reflexivity.
Defined.

(** ** CSR Filter on well-formed graphs *)

Lemma run_filtered `{Dtype A} (w : world A) graph (g : csr A) t copy_ verbose :
  heap w !! graph = Some (OCsr g) -> csr_inv g ->
  remove_greater_than graph t copy_ verbose w
  = (Ok (target copy_ graph w),
     with_heap (<[target copy_ graph w := OCsr (filtered t g)]> (heap w)) w).
Proof. apply run_remove_greater_than. Qed.

Lemma filtered_inv `{Dtype A} (t : A) (g : csr A) : csr_inv g -> csr_inv (filtered t g).
Proof.
  intros Hinv. pose proof (csr_inv_bounds g Hinv) as Hb.
  destruct Hinv as [Hm Hf Hl Hlen].
  assert (Hmask : length (gt_mask t (data g)) = length (data g)) by apply gt_mask_length.
  split; simpl.
  - intros i j x y Hij. rewrite !nth_error_map.
    destruct (nth_error (indptr g) i) as [bi|] eqn:Ei; [|discriminate].
    destruct (nth_error (indptr g) j) as [bj|] eqn:Ej; [|discriminate].
    simpl. intros [= <-] [= <-]. apply kept_before_mono. eapply Hm; eauto.
  - destruct (indptr g) as [|p0 rest]; [discriminate|].
    simpl in *. injection Hf as ->. reflexivity.
  - rewrite (last_map _ _ _ Hl). rewrite kept_before_all by lia.
    rewrite drop_masked_length by assumption. reflexivity.
  - rewrite !drop_masked_length by lia. reflexivity.
Qed.

Lemma drop_masked_none {B} mask (arr : list B) :
  Forall (fun b => b = false) mask -> drop_masked mask arr = arr.
Proof.
  intros Hm. revert arr. induction Hm as [|b mask -> _ IH]; intros [|x arr]; simpl; auto.
  rewrite IH. reflexivity.
Qed.

Lemma count_false_none mask :
  Forall (fun b => b = false) mask -> count_false mask = length mask.
Proof.
  unfold count_false. induction 1 as [|b mask -> _ IH]; simpl; auto.
Qed.

Lemma kept_before_none mask b :
  Forall (fun b => b = false) mask -> 0 <= b <= Z.of_nat (length mask) ->
  kept_before mask b = b.
Proof.
  intros Hm Hb. unfold kept_before.
  rewrite count_false_none by (apply Forall_take; exact Hm).
  rewrite length_firstn. lia.
Qed.

Lemma filtered_none `{Dtype A} (t : A) (g : csr A) :
  csr_inv g -> Forall (fun x => dt_gtb x t = false) (data g) -> filtered t g = g.
Proof.
  intros Hinv Hd. pose proof (csr_inv_bounds g Hinv) as Hb.
  assert (Hm : Forall (fun b => b = false) (gt_mask t (data g))).
  { unfold gt_mask. apply List.Forall_forall. intros b Hin.
    apply in_map_iff in Hin as (x & <- & Hx).
    rewrite List.Forall_forall in Hd. auto. }
  unfold filtered. rewrite !drop_masked_none by exact Hm.
  replace (map _ (indptr g)) with (indptr g); [destruct g; reflexivity|].
  rewrite <- (map_id (indptr g)) at 1. apply map_ext_in. intros b Hin.
  symmetry. apply kept_before_none; [exact Hm|].
  rewrite gt_mask_length. rewrite List.Forall_forall in Hb. apply Hb. exact Hin.
Qed.

Lemma filtered_below `{Dtype A} (t : A) (g : csr A) :
  Forall (fun x => dt_gtb x t = false) (data (filtered t g)).
Proof.
  simpl. unfold gt_mask. rewrite (drop_masked_filter (fun x => dt_gtb x t)).
  apply List.Forall_forall. intros x Hx. apply filter_In in Hx as [_ Hx].
  apply negb_true_iff in Hx. exact Hx.
Qed.

(** X2: CSR Filter is idempotent.  Filtering the graph the function has
    returned once more with the same threshold, in place or in a copy,
    returns a graph with the same [data], [indices], [indptr] and
    shape. *)
Theorem remove_greater_than_idempotent `{Dtype A} (w : world A) (graph : loc) (g : csr A)
    (t : A) (copy1 verbose1 copy2 verbose2 : bool) :
  heap w !! graph = Some (OCsr g) -> csr_inv g ->
  exists out1 w1 g1,
    remove_greater_than graph t copy1 verbose1 w = (Ok out1, w1) /\
    heap w1 !! out1 = Some (OCsr g1) /\
    exists out2 w2,
      remove_greater_than out1 t copy2 verbose2 w1 = (Ok out2, w2) /\
      heap w2 !! out2 = Some (OCsr g1).
Proof.
  intros Hg Hinv.
  eexists _, _, (filtered t g).
  split; [exact (run_filtered w graph g t copy1 verbose1 Hg Hinv)|].
  split; [apply lookup_insert_eq|].
  set (w1 := with_heap (<[target copy1 graph w := OCsr (filtered t g)]> (heap w)) w).
  assert (H1 : heap w1 !! target copy1 graph w = Some (OCsr (filtered t g)))
    by apply lookup_insert_eq.
  eexists _, _. split.
  - apply (run_filtered w1 _ (filtered t g)); [exact H1|apply filtered_inv; exact Hinv].
  - rewrite filtered_none by (try apply filtered_inv; auto using filtered_below).
    apply lookup_insert_eq.
Qed.

Lemma remove_greater_than_idempotent_witness :
  exists out1 w1 g1,
    remove_greater_than 0%nat 4%float false false (world_of (OCsr scenario_graph))
      = (Ok out1, w1) /\
    heap w1 !! out1 = Some (OCsr g1) /\
    exists out2 w2,
      remove_greater_than out1 4%float false false w1 = (Ok out2, w2) /\
      heap w2 !! out2 = Some (OCsr g1).
Proof.
  apply (remove_greater_than_idempotent (world_of (OCsr scenario_graph)) 0%nat
           scenario_graph 4%float false false false false eq_refl scenario_graph_inv).
Defined.

(** *** Comparisons of binary64 numbers *)

Lemma ltb_nan_l (t x : float) : is_nan t = true -> PrimFloat.ltb t x = false.
Proof.
  rewrite is_nan_spec, FloatAxioms.ltb_spec. unfold SFltb.
  destruct (Prim2SF t); try discriminate. reflexivity.
Qed.

Lemma ltb_nan_r (t x : float) : is_nan x = true -> PrimFloat.ltb t x = false.
Proof.
  rewrite is_nan_spec, FloatAxioms.ltb_spec. unfold SFltb.
  destruct (Prim2SF x); try discriminate. destruct (Prim2SF t); reflexivity.
Qed.

Lemma SFcompare_le_lt_trans (a b c : spec_float) :
  SFleb a b = true -> SFltb b c = true -> SFltb a c = true.
Proof.
  unfold SFleb, SFltb.
  destruct a as [sa|sa| |sa ma ea], b as [sb|sb| |sb mb eb], c as [sc|sc| |sc mc ec];
    simpl; try discriminate;
    try (destruct sa; discriminate); try (destruct sb; discriminate);
    try (destruct sa, sb; discriminate); try (destruct sb, sc; discriminate);
    try (destruct sa, sb, sc; simpl; congruence).
  destruct sa, sb, sc; simpl; try congruence;
    destruct (Z.compare_spec ea eb), (Z.compare_spec eb ec), (Z.compare_spec ea ec);
    try discriminate; try reflexivity; try lia; subst;
    rewrite <- ?Pos.compare_cont_spec, ?Pos.compare_cont_refl;
    change (Pos.compare_cont Eq) with Pos.compare;
    destruct (Pos.compare_spec ma mb), (Pos.compare_spec mb mc), (Pos.compare_spec ma mc);
    simpl; try discriminate; try reflexivity; try lia.
Qed.

Lemma ltb_le_lt_trans (a b c : float) :
  PrimFloat.leb a b = true -> PrimFloat.ltb b c = true -> PrimFloat.ltb a c = true.
Proof.
  rewrite FloatAxioms.leb_spec, !FloatAxioms.ltb_spec. apply SFcompare_le_lt_trans.
Qed.

Lemma filter_is_nan_kept (t : float) (l : list float) :
  List.filter is_nan (List.filter (fun x => negb (PrimFloat.ltb t x)) l) = List.filter is_nan l.
Proof.
  induction l as [|x l IH]; [reflexivity|]. simpl.
  destruct (PrimFloat.ltb t x) eqn:E; simpl; rewrite IH; [|reflexivity].
  destruct (is_nan x) eqn:En; [|reflexivity].
  rewrite (ltb_nan_r t x En) in E. discriminate.
Qed.

(** X3: NaN and CSR Filter.  An entry that is NaN is never removed,
    whatever the threshold is, since NaN is not greater than anything; and
    with a threshold that is NaN nothing is removed at all: the graph that
    is returned equals the one given, and a call with [copy=False] changes
    nothing. *)
Theorem remove_greater_than_nan (w : world float) (graph : loc) (g : csr float)
    (t : float) (copy_ verbose : bool) :
  heap w !! graph = Some (OCsr g) -> csr_inv g ->
  exists out w' g',
    remove_greater_than graph t copy_ verbose w = (Ok out, w') /\
    heap w' !! out = Some (OCsr g') /\
    List.filter is_nan (data g') = List.filter is_nan (data g) /\
    (is_nan t = true -> g' = g /\ (copy_ = false -> w' = w)).
Proof.
  intros Hg Hinv.
  eexists _, _, (filtered t g).
  split; [exact (run_filtered w graph g t copy_ verbose Hg Hinv)|].
  split; [apply lookup_insert_eq|]. split.
  - simpl. unfold gt_mask. rewrite (drop_masked_filter (fun x => PrimFloat.ltb t x)).
    apply filter_is_nan_kept.
  - intros Hn.
    assert (E : filtered t g = g).
    { apply filtered_none; [exact Hinv|]. apply List.Forall_forall. intros x _.
      apply ltb_nan_l. exact Hn. }
    split; [exact E|]. intros ->. rewrite E. cbn [target].
    rewrite insert_id by exact Hg. apply world_eta.
Qed.

Lemma remove_greater_than_nan_witness :
  exists out w' g',
    remove_greater_than 0%nat nan false false (world_of (OCsr scenario_graph)) = (Ok out, w') /\
    heap w' !! out = Some (OCsr g') /\ g' = scenario_graph.
Proof.
  destruct (remove_greater_than_nan (world_of (OCsr scenario_graph)) 0%nat scenario_graph
              nan false false eq_refl scenario_graph_inv)
    as (out & w' & g' & Hrun & Hh & _ & Hn).
  exists out, w', g'. split; [exact Hrun|]. split; [exact Hh|].
  apply Hn. reflexivity.
Defined.

(** X4: CSR Filter assumes that the row pointers do not decrease.  On a
    graph whose [indptr] decreases somewhere (with [indices] as long as
    [data]), filtered in place ([copy=False]), the call fails with numpy's
    [ValueError] in the histogram, and by then [data] and [indices] have
    been cut down already: the caller's graph is left with the old row
    pointers and the new, shorter arrays.  No other object is touched. *)
Theorem remove_greater_than_decreasing_indptr `{Dtype A} (w : world A) (graph : loc)
    (g : csr A) (t : A) (verbose : bool) :
  heap w !! graph = Some (OCsr g) ->
  length (indices g) = length (data g) ->
  ~ nondecreasing (indptr g) ->
  exists w',
    remove_greater_than graph t false verbose w = (Err ValueError, w') /\
    heap w' !! graph
    = Some (OCsr {| data := drop_masked (gt_mask t (data g)) (data g);
                    indices := drop_masked (gt_mask t (data g)) (indices g);
                    indptr := indptr g;
                    shape := shape g |}) /\
    forall l, l <> graph -> heap w' !! l = heap w !! l.
Proof.
  intros Hg Hlen Hdec.
  rewrite (run_remove_greater_than_any _ _ _ _ _ _ Hg). cbv zeta.
  rewrite np_delete_where by (rewrite gt_mask_length; lia).
  unfold np_histogram.
  destruct (bins_increase (indptr g)) eqn:Hb;
    [exfalso; apply Hdec; apply bins_nondecreasing; exact Hb|].
  eexists. split; [reflexivity|]. cbn [target with_heap heap].
  split; [apply lookup_insert_eq|].
  intros l Hl. apply lookup_insert_ne. congruence.
Qed.

Lemma remove_greater_than_decreasing_indptr_witness :
  exists w' g',
    remove_greater_than 0%nat 4%float false false (world_of (OCsr crossed_graph))
      = (Err ValueError, w') /\
    heap w' !! 0%nat = Some (OCsr g') /\
    data g' = [1; 3]%float /\ indices g' = [0; 2] /\ indptr g' = [0; 3; 2].
Proof.
  destruct (remove_greater_than_decreasing_indptr (world_of (OCsr crossed_graph)) 0%nat
              crossed_graph 4%float false eq_refl eq_refl)
    as (w' & Hrun & Hh & _).
  - intros Hmono. specialize (Hmono 1%nat 2%nat 3 2). simpl in Hmono.
    assert (3 <= 2) by (apply Hmono; [lia|reflexivity|reflexivity]). lia.
  - eexists w', _. split; [exact Hrun|]. split; [exact Hh|]. repeat split; reflexivity.
Defined.

(** *** Filtering twice *)

Lemma drop_masked_nil {B} mask : drop_masked mask ([] : list B) = [].
Proof. destruct mask as [|[|] mask]; reflexivity. Qed.

Lemma drop_masked_map {B C} (f : B -> C) mask (arr : list B) :
  drop_masked mask (map f arr) = map f (drop_masked mask arr).
Proof.
  revert arr. induction mask as [|b mask IH]; intros [|x arr]; simpl; auto.
  destruct b; simpl; rewrite IH; reflexivity.
Qed.

Lemma drop_masked_twice {B} (m1 m2 : list bool) (arr : list B) :
  Forall2 (fun a b => a = true -> b = true) m1 m2 ->
  drop_masked (drop_masked m1 m2) (drop_masked m1 arr) = drop_masked m2 arr.
Proof.
  intros Hm. revert arr. induction Hm as [|a b m1 m2 Hab _ IH]; intros arr.
  - reflexivity.
  - destruct arr as [|x arr].
    + rewrite !drop_masked_nil. reflexivity.
    + destruct a; simpl.
      * rewrite (Hab eq_refl). apply IH.
      * destruct b; simpl; rewrite IH; reflexivity.
Qed.

Lemma count_false_twice (m1 m2 : list bool) (n : nat) :
  Forall2 (fun a b => a = true -> b = true) m1 m2 ->
  count_false (firstn (count_false (firstn n m1)) (drop_masked m1 m2))
  = count_false (firstn n m2).
Proof.
  intros Hm. revert n. unfold count_false.
  induction Hm as [|a b m1 m2 Hab _ IH]; intros [|n]; try reflexivity.
  destruct a; simpl.
  - rewrite (Hab eq_refl). simpl. apply IH.
  - destruct b; simpl; rewrite IH; reflexivity.
Qed.

Lemma kept_before_twice (m1 m2 : list bool) (b : Z) :
  Forall2 (fun a b => a = true -> b = true) m1 m2 ->
  kept_before (drop_masked m1 m2) (kept_before m1 b) = kept_before m2 b.
Proof.
  intros Hm. unfold kept_before. rewrite Nat2Z.id, count_false_twice by exact Hm.
  reflexivity.
Qed.

Lemma filtered_twice (t1 t2 : float) (g : csr float) :
  PrimFloat.leb t2 t1 = true -> filtered t2 (filtered t1 g) = filtered t2 g.
Proof.
  intros Hle.
  assert (Hm : Forall2 (fun a b => a = true -> b = true)
                 (gt_mask t1 (data g)) (gt_mask t2 (data g))).
  { unfold gt_mask. induction (data g) as [|x d IH]; constructor; [|exact IH].
    simpl. apply ltb_le_lt_trans. exact Hle. }
  unfold filtered. cbn [data indices indptr shape].
  assert (E : gt_mask t2 (drop_masked (gt_mask t1 (data g)) (data g))
              = drop_masked (gt_mask t1 (data g)) (gt_mask t2 (data g)))
    by (unfold gt_mask at 1 3; symmetry; apply drop_masked_map).
  rewrite E, !drop_masked_twice by exact Hm. f_equal.
  rewrite map_map. apply map_ext. intros b. apply kept_before_twice. exact Hm.
Qed.

(** X5: filtering at a radius and then at a smaller one is filtering at the
    smaller one.  For thresholds [t2 <= t1], CSR Filter applied with [t1]
    and then with [t2] to the graph it returned ends with the same
    [data], [indices], [indptr] and shape as CSR Filter applied with [t2]
    to the original graph. *)
Theorem remove_greater_than_twice (w : world float) (graph : loc) (g : csr float)
    (t1 t2 : float) (copy1 verbose1 copy2 verbose2 copy3 verbose3 : bool) :
  heap w !! graph = Some (OCsr g) -> csr_inv g ->
  PrimFloat.leb t2 t1 = true ->
  exists out1 w1 out2 w2 out3 w3 g2,
    remove_greater_than graph t1 copy1 verbose1 w = (Ok out1, w1) /\
    remove_greater_than out1 t2 copy2 verbose2 w1 = (Ok out2, w2) /\
    heap w2 !! out2 = Some (OCsr g2) /\
    remove_greater_than graph t2 copy3 verbose3 w = (Ok out3, w3) /\
    heap w3 !! out3 = Some (OCsr g2).
Proof.
  intros Hg Hinv Hle.
  set (w1 := with_heap (<[target copy1 graph w := OCsr (filtered t1 g)]> (heap w)) w).
  assert (H1 : heap w1 !! target copy1 graph w = Some (OCsr (filtered t1 g)))
    by apply lookup_insert_eq.
  eexists _, w1, _, _, _, _, (filtered t2 g).
  split; [exact (run_filtered w graph g t1 copy1 verbose1 Hg Hinv)|].
  split; [exact (run_filtered w1 _ (filtered t1 g) t2 copy2 verbose2 H1
                   (filtered_inv t1 g Hinv))|].
  split; [rewrite filtered_twice by exact Hle; apply lookup_insert_eq|].
  split; [exact (run_filtered w graph g t2 copy3 verbose3 Hg Hinv)|].
  apply lookup_insert_eq.
Qed.

Lemma remove_greater_than_twice_witness :
  exists out1 w1 out2 w2 out3 w3 g2,
    remove_greater_than 0%nat 6%float false false (world_of (OCsr scenario_graph))
      = (Ok out1, w1) /\
    remove_greater_than out1 4%float false false w1 = (Ok out2, w2) /\
    heap w2 !! out2 = Some (OCsr g2) /\
    remove_greater_than 0%nat 4%float true false (world_of (OCsr scenario_graph))
      = (Ok out3, w3) /\
    heap w3 !! out3 = Some (OCsr g2).
Proof.
  apply (remove_greater_than_twice (world_of (OCsr scenario_graph)) 0%nat scenario_graph
           6%float 4%float false false false false true false
           eq_refl scenario_graph_inv eq_refl).
Defined.

(** ** Row Normalizer: further properties *)

(** X6: Row Normalizer on any graph of binary64 values.  With
    [copy=True] it works on a copy: whether it returns or raises, every
    object that existed before the call, the given graph among them, is as
    it was, and a graph that is returned is a new object.  With
    [copy=False] it does not raise, whatever the arrays of the graph are:
    it returns the given graph itself, with every row that its row
    pointers delimit normalized in turn; no object is created and no other
    object is touched. *)
Theorem row_normalize_copy_or_in_place (w : world float) (graph : loc) (g : csr float)
    (verbose : bool) :
  heap w !! graph = Some (OCsr g) ->
  (forall r w', row_normalize graph true verbose w = (r, w') ->
     (forall l o, heap w !! l = Some o -> heap w' !! l = Some o) /\
     (forall out, r = Ok out -> heap w !! out = None /\ out <> graph)) /\
  (exists w',
     row_normalize graph false verbose w = (Ok graph, w') /\
     heap w' !! graph = Some (OCsr (row_normalized g)) /\
     dom (heap w') = dom (heap w) /\
     forall l, l <> graph -> heap w' !! l = heap w !! l).
Proof.
  intros Hg. split.
  - intros r w' Hrun.
    rewrite (run_row_normalize w graph g true verbose Hg) in Hrun.
    injection Hrun as <- <-. cbn [target with_heap heap]. split.
    + intros l o Hl. rewrite lookup_insert_ne by (apply (fresh_ne _ _ o); exact Hl). exact Hl.
    + intros out [= <-]. split; [apply fresh_not_in|].
      apply (fresh_ne _ _ (OCsr g)). exact Hg.
  - eexists. split; [exact (run_row_normalize w graph g false verbose Hg)|].
    cbn [target with_heap heap].
    split; [apply lookup_insert_eq|]. split.
    + rewrite dom_insert_L. apply elem_of_dom_2 in Hg.
      apply subseteq_union_1_L, singleton_subseteq_l. exact Hg.
    + intros l Hl. apply lookup_insert_ne. congruence.
Qed.

Lemma row_normalize_copy_or_in_place_witness :
  exists w',
    row_normalize 0%nat false false (world_of (OCsr crossed_graph)) = (Ok 0%nat, w') /\
    heap w' !! 0%nat = Some (OCsr (row_normalized crossed_graph)).
Proof.
  destruct (proj2 (row_normalize_copy_or_in_place (world_of (OCsr crossed_graph)) 0%nat
                     crossed_graph false eq_refl))
    as (w' & Hrun & Hh & _).
  exists w'. split; [exact Hrun|exact Hh].
Defined.

Lemma row_normalized_length `{Dtype A} (g : csr A) :
  csr_inv g -> length (data (row_normalized g)) = length (data g).
Proof.
  intros Hinv. pose proof (csr_inv_bounds g Hinv) as Hb.
  destruct (row_bounds_apart (indptr g) (length (data g)) (inv_mono g Hinv) Hb) as [Hok _].
  unfold row_normalized, set_data. cbn [data]. apply fold_step_length. exact Hok.
Qed.

Lemma row_normalized_inv `{Dtype A} (g : csr A) : csr_inv g -> csr_inv (row_normalized g).
Proof.
  intros Hinv. pose proof (row_normalized_length g Hinv) as Hlen.
  destruct Hinv as [Hm Hf Hl Hi]. split.
  - exact Hm.
  - exact Hf.
  - change (indptr (row_normalized g)) with (indptr g). rewrite Hlen. exact Hl.
  - change (indices (row_normalized g)) with (indices g). rewrite Hlen. exact Hi.
Qed.

(** X7: Row Normalizer keeps the CSR invariant.  On a graph that satisfies
    it the graph that is returned satisfies it too, with as many stored
    entries, in every row, as before. *)
Theorem row_normalize_preserves_inv `{Dtype A} (w : world A) (graph : loc) (g : csr A)
    (copy_ verbose : bool) :
  heap w !! graph = Some (OCsr g) -> csr_inv g ->
  exists out w' g',
    row_normalize graph copy_ verbose w = (Ok out, w') /\
    heap w' !! out = Some (OCsr g') /\
    csr_inv g' /\
    length (data g') = length (data g) /\
    forall i, length (row_data g' i) = length (row_data g i).
Proof.
  intros Hg Hinv.
  eexists _, _, (row_normalized g).
  split; [exact (run_row_normalize w graph g copy_ verbose Hg)|].
  split; [apply lookup_insert_eq|].
  pose proof (row_normalized_length g Hinv) as Hlen.
  split; [|split; [exact Hlen|]].
  - apply row_normalized_inv. exact Hinv.
  - intros i. rewrite row_normalize_row by exact Hinv. apply normalized_length.
Qed.

Lemma row_normalize_preserves_inv_witness :
  exists out w' g',
    row_normalize 0%nat false false (world_of (OCsr scenario_graph)) = (Ok out, w') /\
    heap w' !! out = Some (OCsr g') /\ csr_inv g'.
Proof.
  destruct (row_normalize_preserves_inv (world_of (OCsr scenario_graph)) 0%nat scenario_graph
              false false eq_refl scenario_graph_inv)
    as (out & w' & g' & Hrun & Hh & Hi & _).
  exists out, w', g'. auto.
Defined.

(** *** Normalizing twice, in exact arithmetic *)

Lemma Forall2_Qeq_refl (l : list Q) : Forall2 Qeq l l.
Proof. induction l; constructor; [reflexivity|assumption]. Qed.

Lemma Forall2_Qeq_map (f : Q -> Q) (l : list Q) :
  (forall x, f x == x)%Q -> Forall2 Qeq (map f l) l.
Proof. intros Hf. induction l; constructor; auto. Qed.

Lemma normalized_twice_exact (r : list Q) : Forall2 Qeq (normalized (normalized r)) (normalized r).
Proof.
  destruct (Qeq_bool (np_sum r) 0) eqn:E.
  - assert (En : normalized r = r).
    { unfold normalized.
      change (dt_neqb (np_sum r) dt_zero) with (negb (Qeq_bool (np_sum r) 0)).
      rewrite E. reflexivity. }
    rewrite !En. apply Forall2_Qeq_refl.
  - assert (Hs : ~ (np_sum r == 0)%Q)
      by (intros Hs; apply Qeq_bool_iff in Hs; congruence).
    pose proof (normalized_sum_exact r Hs) as H1.
    set (r1 := normalized r) in *.
    unfold normalized at 1.
    change (dt_neqb (np_sum r1) dt_zero) with (negb (Qeq_bool (np_sum r1) 0)).
    destruct (Qeq_bool (np_sum r1) 0) eqn:E1.
    + apply Qeq_bool_iff in E1. rewrite H1 in E1. discriminate.
    + simpl negb. cbv iota. apply Forall2_Qeq_map. intros x.
      change (dt_div x (np_sum r1)) with (x / np_sum r1)%Q. rewrite H1. field.
Qed.

(** X8: in exact arithmetic Row Normalizer is idempotent.  Over the
    rationals, normalizing the graph the function has returned once more
    leaves every row as it is, entry by entry: a row that sums to 1 is
    divided by 1, and a row that sums to 0 is not touched either time. *)
Theorem row_normalize_idempotent_exact (w : world Q) (graph : loc) (g : csr Q)
    (copy1 verbose1 copy2 verbose2 : bool) :
  heap w !! graph = Some (OCsr g) -> csr_inv g ->
  exists out1 w1 g1,
    row_normalize graph copy1 verbose1 w = (Ok out1, w1) /\
    heap w1 !! out1 = Some (OCsr g1) /\
    exists out2 w2 g2,
      row_normalize out1 copy2 verbose2 w1 = (Ok out2, w2) /\
      heap w2 !! out2 = Some (OCsr g2) /\
      forall i, Forall2 Qeq (row_data g2 i) (row_data g1 i).
Proof.
  intros Hg Hinv.
  set (w1 := with_heap (<[target copy1 graph w := OCsr (row_normalized g)]> (heap w)) w).
  assert (H1 : heap w1 !! target copy1 graph w = Some (OCsr (row_normalized g)))
    by apply lookup_insert_eq.
  eexists _, w1, (row_normalized g).
  split; [exact (run_row_normalize w graph g copy1 verbose1 Hg)|].
  split; [exact H1|].
  eexists _, _, (row_normalized (row_normalized g)).
  split; [exact (run_row_normalize w1 _ (row_normalized g) copy2 verbose2 H1)|].
  split; [apply lookup_insert_eq|].
  intros i. rewrite (row_normalize_row (row_normalized g)) by (apply row_normalized_inv; exact Hinv).
  rewrite (row_normalize_row g) by exact Hinv.
  apply normalized_twice_exact.
Qed.

Lemma row_normalize_idempotent_exact_witness :
  exists out1 w1 g1,
    row_normalize 0%nat false false (world_of (OCsr exact_graph)) = (Ok out1, w1) /\
    heap w1 !! out1 = Some (OCsr g1) /\
    exists out2 w2 g2,
      row_normalize out1 false false w1 = (Ok out2, w2) /\
      heap w2 !! out2 = Some (OCsr g2) /\
      forall i, Forall2 Qeq (row_data g2 i) (row_data g1 i).
Proof.
  apply (row_normalize_idempotent_exact (world_of (OCsr exact_graph)) 0%nat exact_graph
           false false false false eq_refl exact_graph_inv).
Defined.

(** *** Sums with a term that absorbs the others *)

Section SumAbsorbing.
Variable P : float -> Prop.
Hypothesis P_add_l : forall x y, P x -> P (PrimFloat.add x y).
Hypothesis P_add_r : forall x y, P y -> P (PrimFloat.add x y).

Lemma sum_loop_absorbs (l : list float) (res : float) :
  P res \/ Exists P l -> P (sum_loop res l).
Proof.
  unfold sum_loop. revert res. induction l as [|y l IH]; intros res [Hr|Hl].
  - exact Hr.
  - inversion Hl.
  - simpl. apply IH. left. apply P_add_l. exact Hr.
  - simpl. apply IH. inversion Hl; subst; [left; apply P_add_r|right]; assumption.
Qed.

Lemma map2_add_absorbs (r b : list float) :
  length r = length b -> Exists P r \/ Exists P b -> Exists P (map2 PrimFloat.add r b).
Proof.
  revert b. induction r as [|x r IH]; intros [|y b] Hlen Hex; try discriminate.
  - destruct Hex as [Hex|Hex]; inversion Hex.
  - simpl. injection Hlen as Hlen.
    destruct Hex as [Hex|Hex]; inversion Hex; subst; auto.
Qed.

Lemma sum_blocks_absorbs (k : nat) : forall (r a : list float),
  length r = 8%nat -> (8 * k <= length a)%nat ->
  Exists P r \/ Exists P a ->
  Exists P (fst (sum_blocks k r a)) \/ Exists P (snd (sum_blocks k r a)).
Proof.
  induction k as [|k IH]; intros r a Hr Ha Hex; cbn [sum_blocks fst snd]; [exact Hex|].
  assert (H8 : length (firstn 8 a) = 8%nat) by (rewrite length_firstn; lia).
  apply IH.
  - rewrite map2_length, H8, Hr. reflexivity.
  - rewrite length_skipn. lia.
  - destruct Hex as [Hex|Hex].
    + left. apply map2_add_absorbs; [congruence|left; exact Hex].
    + destruct (Exists_firstn_skipn _ 8 _ Hex) as [Hf|Hs].
      * left. apply map2_add_absorbs; [congruence|right; exact Hf].
      * right. exact Hs.
Qed.

Lemma sum_unrolled_absorbs (a : list float) :
  (8 <= length a)%nat -> Exists P a -> P (sum_unrolled a).
Proof.
  intros Hlen Hex. unfold sum_unrolled.
  assert (H8 : length (firstn 8 a) = 8%nat) by (rewrite length_firstn; lia).
  assert (Hk : (8 * (length a / 8 - 1) <= length (skipn 8 a))%nat)
    by (rewrite length_skipn; apply blocks_fit; exact Hlen).
  pose proof (sum_blocks_length (length a / 8 - 1) _ _ H8 Hk) as [Hr _].
  pose proof (sum_blocks_absorbs (length a / 8 - 1) _ _ H8 Hk
                (Exists_firstn_skipn _ 8 _ Hex)) as Hn.
  destruct (sum_blocks (length a / 8 - 1) (firstn 8 a) (skipn 8 a)) as [r rest].
  cbn [fst snd] in Hr, Hn.
  destruct (eight_total r Hr) as (r0 & r1 & r2 & r3 & r4 & r5 & r6 & r7 & ->).
  apply sum_loop_absorbs.
  destruct Hn as [Hn|Hn]; [left|right; exact Hn].
  simpl dt_add.
  repeat match goal with
         | H : Exists _ (_ :: _) |- _ => inversion H; clear H; subst
         | H : Exists _ [] |- _ => inversion H
         end;
  auto 6.
Qed.

Lemma pairwise_sum_absorbs (fuel : nat) : forall (a : list float),
  Exists P a -> P (pairwise_sum fuel a).
Proof.
  induction fuel as [|fuel IH]; intros a Hex; cbn [pairwise_sum];
    destruct (length a <? 8)%nat eqn:E8;
    try (apply sum_loop_absorbs; right; exact Hex);
    apply Nat.ltb_ge in E8;
    destruct (length a <=? 128)%nat;
    try (apply sum_unrolled_absorbs; assumption).
  simpl dt_add.
  destruct (Exists_firstn_skipn _ (length a / 2 - (length a / 2) mod 8) _ Hex) as [Hf|Hs].
  - apply P_add_l. apply IH. exact Hf.
  - apply P_add_r. apply IH. exact Hs.
Qed.

Lemma np_sum_absorbs (l : list float) : Exists P l -> P (np_sum l).
Proof.
  intros Hex. unfold np_sum. simpl dt_add. apply P_add_r.
  apply pairwise_sum_absorbs. exact Hex.
Qed.

End SumAbsorbing.

Lemma add_nan_l (x y : float) : is_nan x = true -> is_nan (PrimFloat.add x y) = true.
Proof.
  rewrite !is_nan_spec, FloatAxioms.add_spec. unfold SF64add.
  destruct (Prim2SF x); try discriminate. reflexivity.
Qed.

Lemma add_nan_r (x y : float) : is_nan y = true -> is_nan (PrimFloat.add x y) = true.
Proof.
  rewrite !is_nan_spec, FloatAxioms.add_spec. unfold SF64add.
  destruct (Prim2SF y); try discriminate. destruct (Prim2SF x); reflexivity.
Qed.

Lemma div_nan_r (x s : float) : is_nan s = true -> is_nan (PrimFloat.div x s) = true.
Proof.
  rewrite !is_nan_spec, FloatAxioms.div_spec. unfold SF64div.
  destruct (Prim2SF s); try discriminate. destruct (Prim2SF x); reflexivity.
Qed.

Lemma nan_neq_zero (s : float) : is_nan s = true -> PrimFloat.eqb s 0 = false.
Proof.
  intros Hs. apply nonfinite_neq_zero. unfold is_finite. rewrite Hs. reflexivity.
Qed.

(** X9: a NaN among the entries of a row makes the whole row NaN.  The
    sum of the row is NaN, which is not equal to 0, so every entry of the
    row is divided by it. *)
Theorem row_normalize_nan_row (w : world float) (graph : loc) (g : csr float)
    (copy_ verbose : bool) :
  heap w !! graph = Some (OCsr g) -> csr_inv g ->
  exists out w' g',
    row_normalize graph copy_ verbose w = (Ok out, w') /\
    heap w' !! out = Some (OCsr g') /\
    forall i, Exists (fun x => is_nan x = true) (row_data g i) ->
              length (row_data g' i) = length (row_data g i) /\
              Forall (fun x => is_nan x = true) (row_data g' i).
Proof.
  intros Hg Hinv.
  eexists _, _, (row_normalized g).
  split; [exact (run_row_normalize w graph g copy_ verbose Hg)|].
  split; [apply lookup_insert_eq|].
  intros i Hex. rewrite row_normalize_row by exact Hinv.
  split; [apply normalized_length|].
  assert (Hs : is_nan (np_sum (row_data g i)) = true)
    by (apply (np_sum_absorbs (fun x => is_nan x = true) add_nan_l add_nan_r); exact Hex).
  unfold normalized.
  change (dt_neqb (np_sum (row_data g i)) dt_zero)
    with (negb (PrimFloat.eqb (np_sum (row_data g i)) 0)).
  rewrite (nan_neq_zero _ Hs). simpl negb. cbv iota.
  apply List.Forall_forall. intros y Hy. apply in_map_iff in Hy as (x & <- & _).
  apply div_nan_r. exact Hs.
Qed.

Lemma nan_graph_inv : csr_inv nan_graph.
Proof. split; try reflexivity. apply bins_nondecreasing. reflexivity. Qed.

Lemma row_normalize_nan_row_witness :
  exists out w' g',
    row_normalize 0%nat false false (world_of (OCsr nan_graph)) = (Ok out, w') /\
    heap w' !! out = Some (OCsr g') /\
    Forall (fun x => is_nan x = true) (row_data g' 0).
Proof.
  destruct (row_normalize_nan_row (world_of (OCsr nan_graph)) 0%nat nan_graph false false
              eq_refl nan_graph_inv)
    as (out & w' & g' & Hrun & Hh & Hrow).
  exists out, w', g'. split; [exact Hrun|]. split; [exact Hh|].
  apply (Hrow 0%nat). right. left. reflexivity.
Defined.

(** ** Neighbor Graph Builder and Weight Transform: further properties *)

Lemma generate_spatial_distance_graph_radius_only_run
    (fit : ndarray float -> result NearestNeighbors) (locations : ndarray float)
    (nbr_object : option NearestNeighbors) (radius : pyval)
    (nbrs : NearestNeighbors) (w : world float) :
  obtain_index fit locations nbr_object = Ok nbrs ->
  generate_spatial_distance_graph fit locations nbr_object VNone radius w
  = match radius_neighbors_graph nbrs radius with
    | Ok g =>
        (Ok (fresh (dom (heap w))),
         {| heap := <[fresh (dom (heap w)) := OCsr g]> (heap w);
            calls := calls w ++ fit_calls nbr_object ++ [CallRadiusNeighborsGraph radius] |})
    | Err e =>
        (Err e,
         {| heap := heap w;
            calls := calls w ++ fit_calls nbr_object ++ [CallRadiusNeighborsGraph radius] |})
    end.
Proof.
  intros Hix. unfold generate_spatial_distance_graph.
  rewrite run_bind, (run_obtain_index _ _ _ _ _ Hix).
  rewrite run_bind. unfold log at 1. rewrite run_bind. unfold lift at 1.
  cbn [with_calls heap calls]. rewrite <- app_assoc.
  destruct (radius_neighbors_graph nbrs radius) as [g|e]; reflexivity.
Qed.

(** X10: with [num_neighbours=None] the radius is handed to the library's
    radius query as it is: it is not checked, whatever it is, no
    assertion is made and CSR Filter is not applied.  The graph the query
    returns becomes the result, as a new object and with nothing else
    changed; an error of the query is the error of the call, and no
    object is created. *)
Theorem generate_spatial_distance_graph_radius_only
    (fit : ndarray float -> result NearestNeighbors) (locations : ndarray float)
    (nbr_object : option NearestNeighbors) (radius : pyval)
    (nbrs : NearestNeighbors) (w : world float) :
  obtain_index fit locations nbr_object = Ok nbrs ->
  (forall g, radius_neighbors_graph nbrs radius = Ok g ->
     exists out w',
       generate_spatial_distance_graph fit locations nbr_object VNone radius w = (Ok out, w') /\
       heap w !! out = None /\
       heap w' !! out = Some (OCsr g) /\
       (forall l o, heap w !! l = Some o -> heap w' !! l = Some o) /\
       calls w' = calls w ++ fit_calls nbr_object ++ [CallRadiusNeighborsGraph radius]) /\
  (forall e, radius_neighbors_graph nbrs radius = Err e ->
     exists w',
       generate_spatial_distance_graph fit locations nbr_object VNone radius w = (Err e, w') /\
       heap w' = heap w).
Proof.
  intros Hix.
  pose proof (generate_spatial_distance_graph_radius_only_run fit locations nbr_object
                radius nbrs w Hix) as Hrun.
  split.
  - intros g Hg. rewrite Hg in Hrun. eexists _, _. split; [exact Hrun|]. cbn [heap calls].
    split; [apply fresh_not_in|]. split; [apply lookup_insert_eq|]. split; [|reflexivity].
    intros l o Hl. rewrite lookup_insert_ne by (apply (fresh_ne _ _ o); exact Hl). exact Hl.
  - intros e He. rewrite He in Hrun. eexists. split; [exact Hrun|]. reflexivity.
Qed.

Lemma generate_spatial_distance_graph_radius_only_witness :
  exists out w',
    generate_spatial_distance_graph (fun _ => Ok (radius_index_of collinear_knn)) collinear
      None VNone (VStr "far") (world_of (OCsr scenario_graph)) = (Ok out, w') /\
    heap w' !! out = Some (OCsr collinear_knn).
Proof.
  destruct (proj1 (generate_spatial_distance_graph_radius_only
                     (fun _ => Ok (radius_index_of collinear_knn)) collinear None (VStr "far")
                     (radius_index_of collinear_knn) (world_of (OCsr scenario_graph)) eq_refl)
              collinear_knn eq_refl)
    as (out & w' & Hrun & _ & Hh & _).
  exists out, w'. split; assumption.
Defined.

Section MoreGraphFacts.
Variable fit : ndarray float -> result NearestNeighbors.


End MoreGraphFacts.




(** X12: what Weight Transform does with [num_neighbours].  A value that
    is set and is not an integer makes the call fail with the assertion
    error of Neighbor Graph Builder, once the index is there, and no graph
    is created.  With [num_neighbours=None] the function does not fail: it
    asks the library's radius query with [radius=None], and the weights are
    the row-normalized reciprocals of the graph that query returns. *)
Theorem generate_spatial_weights_fixed_nbrs_num_neighbours
    (fit : ndarray float -> result NearestNeighbors) (locations : ndarray float)
    (k : pyval) (decay_type : string) (nbr_object : option NearestNeighbors)
    (verbose : bool) (nbrs : NearestNeighbors) (w : world float) :
  obtain_index fit locations nbr_object = Ok nbrs ->
  (k <> VNone -> isinstance_int k = false ->
   generate_spatial_weights_fixed_nbrs fit locations k decay_type nbr_object verbose w
   = (Err AssertionError, with_calls (calls w ++ fit_calls nbr_object) w)) /\
  (k = VNone -> forall D, radius_neighbors_graph nbrs VNone = Ok D ->
   exists weight_graph distance_graph w',
     generate_spatial_weights_fixed_nbrs fit locations k decay_type nbr_object verbose w
     = (Ok (weight_graph, distance_graph), w') /\
     weight_graph <> distance_graph /\
     heap w' !! distance_graph = Some (OCsr D) /\
     heap w' !! weight_graph = Some (OCsr (row_normalized (reciprocal D))) /\
     calls w' = calls w ++ fit_calls nbr_object ++ [CallRadiusNeighborsGraph VNone]).
Proof.
  intros Hix. split.
  - intros Hset Hk. unfold generate_spatial_weights_fixed_nbrs.
    rewrite run_bind. unfold generate_spatial_distance_graph.
    rewrite run_bind, (run_obtain_index _ _ _ _ _ Hix).
    destruct k; try contradiction; try discriminate; reflexivity.
  - intros -> D HD. unfold generate_spatial_weights_fixed_nbrs.
    rewrite run_bind,
      (generate_spatial_distance_graph_radius_only_run fit locations nbr_object VNone nbrs w Hix),
      HD.
    set (dg := fresh (dom (heap w))).
    set (wg := fresh (dom (<[dg := OCsr D]> (heap w)))).
    assert (Hne : wg <> dg) by (apply (fresh_ne _ dg (OCsr D)); apply lookup_insert_eq).
    rewrite run_bind. unfold copy.
    rewrite run_bind, (run_load dg (OCsr D)) by (simpl; apply lookup_insert_eq).
    unfold alloc at 1. cbn [heap]. fold wg.
    rewrite run_bind, (run_load_csr wg D) by (simpl; apply lookup_insert_eq).
    rewrite run_bind. unfold store at 1. cbn [with_heap heap calls].
    rewrite insert_insert_eq.
    rewrite run_bind, (run_row_normalize _ wg (reciprocal D))
      by (simpl; apply lookup_insert_eq).
    cbn [target with_heap heap calls]. rewrite insert_insert_eq, run_ret.
    eexists wg, dg, _. split; [reflexivity|]. split; [exact Hne|].
    cbn [with_heap heap calls].
    split; [rewrite lookup_insert_ne by exact Hne; apply lookup_insert_eq|].
    split; [apply lookup_insert_eq|reflexivity].
Qed.

Lemma generate_spatial_weights_fixed_nbrs_num_neighbours_witness :
  generate_spatial_weights_fixed_nbrs (fun _ => Ok (index_of collinear_knn)) collinear
    (VFloat 2.5) "reciprocal" None false (world_of (OCsr scenario_graph))
  = (Err AssertionError, with_calls [CallFit] (world_of (OCsr scenario_graph))) /\
  exists weight_graph distance_graph w',
    generate_spatial_weights_fixed_nbrs (fun _ => Ok (radius_index_of collinear_knn)) collinear
      VNone "reciprocal" None false (world_of (OCsr scenario_graph))
    = (Ok (weight_graph, distance_graph), w') /\
    heap w' !! distance_graph = Some (OCsr collinear_knn).
Proof.
  split.
  - apply (proj1 (generate_spatial_weights_fixed_nbrs_num_neighbours
                    (fun _ => Ok (index_of collinear_knn)) collinear (VFloat 2.5) "reciprocal"
                    None false (index_of collinear_knn) (world_of (OCsr scenario_graph))
                    eq_refl)); [discriminate|reflexivity].
  - destruct (proj2 (generate_spatial_weights_fixed_nbrs_num_neighbours
                       (fun _ => Ok (radius_index_of collinear_knn)) collinear VNone
                       "reciprocal" None false (radius_index_of collinear_knn)
                       (world_of (OCsr scenario_graph)) eq_refl) eq_refl collinear_knn eq_refl)
      as (wg & dg & w' & Hrun & _ & Hd & _).
    exists wg, dg, w'. split; assumption.
Defined.

(** ** Z-Scorer: further properties *)

(** Statistics kept as one row and broadcast down the rows: every entry of
    the result is computed from the entry, the mean and the second moment
    at its column. *)
Lemma zscore_cells_row_stats (a : ndarray float) (Erow E2row : list float) n g :
  nd_wf a -> nd_shape a = (n, g) -> length Erow = g -> length E2row = g ->
  exists z,
    (variance ← broadcast2 PrimFloat.sub
                  {| nd_shape := (1%nat, g); nd_rows := [E2row] |}
                  (nd_map (fun x => x * x)%float {| nd_shape := (1%nat, g); nd_rows := [Erow] |});
     centred ← broadcast2 PrimFloat.sub a {| nd_shape := (1%nat, g); nd_rows := [Erow] |};
     zscored_matrix ← broadcast2 PrimFloat.div centred (nd_map PrimFloat.sqrt variance);
     Ok (nd_map nan_to_num zscored_matrix)) = Ok z /\
    nd_shape z = (n, g) /\
    forall i j x e e2,
      cell a i j = Some x -> nth_error Erow j = Some e -> nth_error E2row j = Some e2 ->
      cell z i j = Some (nan_to_num ((x - e) / sqrt (e2 - e * e))%float).
Proof.
  intros [Hn Hg] Hs HE HE2. rewrite Hs in Hn, Hg. simpl in Hn, Hg.
  change (nd_map (fun x => x * x)%float {| nd_shape := (1%nat, g); nd_rows := [Erow] |})
    with {| nd_shape := (1%nat, g); nd_rows := [map (fun x => x * x)%float Erow] |}.
  rewrite (broadcast2_row PrimFloat.sub {| nd_shape := (1%nat, g); nd_rows := [E2row] |}
             _ 1%nat g eq_refl).
  rewrite result_bind_ok.
  rewrite !broadcast_to_row by (rewrite ?length_map; assumption).
  cbn [repeat map2].
  set (Vrow := map2 PrimFloat.sub E2row (map (fun x => (x * x)%float) Erow)).
  assert (HV : length Vrow = g) by (unfold Vrow; rewrite map2_length, length_map; lia).
  rewrite (broadcast2_row _ a _ n g) by exact Hs. rewrite result_bind_ok.
  rewrite broadcast_to_same, broadcast_to_row by assumption.
  change (nd_map PrimFloat.sqrt {| nd_shape := (1%nat, g); nd_rows := [Vrow] |})
    with {| nd_shape := (1%nat, g); nd_rows := [map PrimFloat.sqrt Vrow] |}.
  rewrite (broadcast2_row PrimFloat.div {| nd_shape := (n, g); nd_rows := _ |}
             _ n g eq_refl).
  rewrite result_bind_ok.
  cbn [nd_rows].
  assert (HC : Forall (fun r => length r = g)
                 (map2 (map2 PrimFloat.sub) (nd_rows a) (repeat Erow n)))
    by (apply map2_rows_lengths; [exact Hg|apply Forall_repeat; exact HE]).
  rewrite (broadcast_to_same {| nd_shape := (n, g); nd_rows := _ |});
    [|simpl; rewrite map2_length, repeat_length; lia|exact HC].
  rewrite broadcast_to_row by (rewrite length_map; exact HV).
  eexists. split; [reflexivity|]. split; [reflexivity|].
  intros i j x e e2 Hx He He2. unfold cell in *. cbn [nd_map nd_rows].
  destruct (nth_error (nd_rows a) i) as [row|] eqn:Hrow; [|discriminate].
  assert (Hi : (i < n)%nat) by (rewrite <- Hn; apply nth_error_Some; congruence).
  assert (Hv : nth_error Vrow j = Some (e2 - e * e)%float)
    by (unfold Vrow; rewrite nth_error_map2, He2, nth_error_map, He; reflexivity).
  rewrite nth_error_map, nth_error_map2, nth_error_map2, Hrow.
  rewrite !nth_error_repeat_lt by assumption. simpl.
  rewrite nth_error_map, nth_error_map2, nth_error_map2, Hx, He, nth_error_map, Hv.
  reflexivity.
Qed.

(** *** A matrix without rows *)

Lemma zscore_value_no_rows (c : nat) :
  zscore_value (ONdArray {| nd_shape := (0%nat, c); nd_rows := [] |}) Axis0
  = Ok {| nd_shape := (0%nat, c); nd_rows := [] |}.
Proof.
  unfold zscore_value. cbn [py_mean obj_map dense_of]. rewrite !result_bind_ok.
  unfold nd_mean. cbn [nd_map nd_shape nd_rows map].
  change (nd_map ?f {| nd_shape := ?s; nd_rows := [?r] |})
    with {| nd_shape := s; nd_rows := [map f r] |}.
  rewrite (broadcast2_row PrimFloat.sub {| nd_shape := (1%nat, c); nd_rows := _ |}
             _ 1%nat c eq_refl).
  rewrite result_bind_ok.
  rewrite (broadcast2_row PrimFloat.sub {| nd_shape := (0%nat, c); nd_rows := [] |}
             _ 0%nat c eq_refl).
  rewrite result_bind_ok.
  unfold broadcast_to at 1. cbn [nd_rows map stretch map2].
  unfold broadcast2. cbn [nd_shape nd_map fst snd]. rewrite bdim_one_r, bdim_same.
  unfold broadcast_to at 1. cbn [nd_rows map stretch map2]. reflexivity.
Qed.

(** X15: a matrix without rows, with statistics down the columns.  For a
    dense input the means are NaN and the call returns a matrix without
    rows; for a sparse input scipy divides 1.0 by the number of rows, and
    the call fails with [ZeroDivisionError].  Neither changes anything
    else. *)
Theorem zscore_no_rows (w : world float) (matrix : loc) (m : pyobj float) (c : nat) :
  heap w !! matrix = Some m -> obj_wf m -> obj_shape m = (0%nat, c) ->
  match m with
  | OCsr _ => zscore matrix Axis0 w = (Err ZeroDivisionError, w)
  | ONdArray _ =>
      exists out w',
        zscore matrix Axis0 w = (Ok out, w') /\
        heap w' !! out = Some (ONdArray {| nd_shape := (0%nat, c); nd_rows := [] |}) /\
        forall l o, heap w !! l = Some o -> heap w' !! l = Some o
  end.
Proof.
  intros Hm Hwf Hs. rewrite (run_zscore w matrix m Axis0 Hm). destruct m as [g|a].
  - unfold zscore_value. simpl in Hs. cbn [py_mean]. unfold csr_mean. rewrite Hs.
    reflexivity.
  - simpl in Hs. destruct Hwf as [Hn _]. rewrite Hs in Hn. simpl in Hn.
    apply length_zero_iff_nil in Hn.
    assert (Ea : a = {| nd_shape := (0%nat, c); nd_rows := [] |})
      by (destruct a; simpl in *; congruence).
    rewrite Ea, zscore_value_no_rows.
    eexists _, _. split; [reflexivity|]. cbn [with_heap heap].
    split; [apply lookup_insert_eq|].
    intros l o Hl. rewrite lookup_insert_ne by (apply (fresh_ne _ _ o); exact Hl). exact Hl.
Qed.

Lemma zscore_no_rows_witness :
  zscore 0%nat Axis0 (world_of (OCsr no_rows)) = (Err ZeroDivisionError, world_of (OCsr no_rows)).
Proof.
  apply (zscore_no_rows (world_of (OCsr no_rows)) 0%nat (OCsr no_rows) 3%nat
           eq_refl eq_refl eq_refl).
Defined.

(** *** Zeros and NaN *)

Section ZeroOrNan.
Local Open Scope float_scope.

Lemma zero_entry_zn x : is_zero_entry x -> zero_or_nan x.
Proof.
  unfold is_zero_entry, zero_or_nan. rewrite FloatAxioms.eqb_spec.
  change (Prim2SF 0) with (S754_zero false). unfold SFeqb.
  destruct (Prim2SF x) as [s|s| |s m e]; simpl; try discriminate; auto.
  - destruct s; discriminate.
  - destruct s; discriminate.
Qed.

Lemma zn_zero : zero_or_nan 0.
Proof. exact I. Qed.

Lemma zn_add x y : zero_or_nan x -> zero_or_nan y -> zero_or_nan (x + y).
Proof.
  unfold zero_or_nan. rewrite FloatAxioms.add_spec. unfold SF64add.
  destruct (Prim2SF x) as [s|s| |s m e], (Prim2SF y) as [s'|s'| |s' m' e'];
    simpl; try contradiction; auto.
  destruct s, s'; auto.
Qed.

Lemma zn_sub x y : zero_or_nan x -> zero_or_nan y -> zero_or_nan (x - y).
Proof.
  unfold zero_or_nan. rewrite FloatAxioms.sub_spec. unfold SF64sub.
  destruct (Prim2SF x) as [s|s| |s m e], (Prim2SF y) as [s'|s'| |s' m' e'];
    simpl; try contradiction; auto.
  destruct s, s'; auto.
Qed.

Lemma zn_mul_l x y : zero_or_nan x -> zero_or_nan (x * y).
Proof.
  unfold zero_or_nan. rewrite FloatAxioms.mul_spec. unfold SF64mul.
  destruct (Prim2SF x) as [s|s| |s m e], (Prim2SF y) as [s'|s'| |s' m' e'];
    simpl; try contradiction; auto.
Qed.

Lemma zn_div_l x y : zero_or_nan x -> zero_or_nan (x / y).
Proof.
  unfold zero_or_nan. rewrite FloatAxioms.div_spec. unfold SF64div.
  destruct (Prim2SF x) as [s|s| |s m e], (Prim2SF y) as [s'|s'| |s' m' e'];
    simpl; try contradiction; auto.
Qed.

Lemma zn_sqrt x : zero_or_nan x -> zero_or_nan (sqrt x).
Proof.
  unfold zero_or_nan. rewrite FloatAxioms.sqrt_spec. unfold SF64sqrt.
  destruct (Prim2SF x) as [s|s| |s m e]; simpl; try contradiction; auto.
Qed.

Lemma zn_div_zn x y : zero_or_nan x -> zero_or_nan y -> is_nan (x / y) = true.
Proof.
  unfold zero_or_nan. rewrite is_nan_spec, FloatAxioms.div_spec. unfold SF64div.
  destruct (Prim2SF x) as [s|s| |s m e], (Prim2SF y) as [s'|s'| |s' m' e'];
    simpl; try contradiction; auto.
Qed.

(** The entry of the result for an entry and statistics that are all
    zero or NaN: a quotient that is NaN, replaced by 0. *)
Lemma zn_cell x e e2 :
  zero_or_nan x -> zero_or_nan e -> zero_or_nan e2 ->
  nan_to_num ((x - e) / sqrt (e2 - e * e)) = 0.
Proof.
  intros Hx He He2. unfold nan_to_num.
  rewrite zn_div_zn; [reflexivity|apply zn_sub; assumption|].
  apply zn_sqrt, zn_sub; [assumption|apply zn_mul_l; assumption].
Qed.

End ZeroOrNan.

(** *** Sums of terms that share a property kept by addition *)

Section SumClosed.
Variable P : float -> Prop.
Hypothesis P_zero : P 0%float.
Hypothesis P_add : forall x y, P x -> P y -> P (PrimFloat.add x y).

Lemma sum_loop_closed (l : list float) (res : float) :
  P res -> Forall P l -> P (sum_loop res l).
Proof.
  unfold sum_loop. intros Hr Hl. revert res Hr.
  induction Hl as [|y l Hy _ IH]; intros res Hr; simpl; auto.
Qed.

Lemma map2_add_closed (r b : list float) :
  Forall P r -> Forall P b -> Forall P (map2 PrimFloat.add r b).
Proof.
  intros Hr. revert b. induction Hr as [|x r Hx _ IH]; intros b Hb; [constructor|].
  destruct Hb as [|y b Hy Hb]; simpl; constructor; auto.
Qed.

Lemma sum_blocks_closed (k : nat) : forall (r a : list float),
  Forall P r -> Forall P a ->
  Forall P (fst (sum_blocks k r a)) /\ Forall P (snd (sum_blocks k r a)).
Proof.
  induction k as [|k IH]; intros r a Hr Ha; cbn [sum_blocks fst snd]; [auto|].
  apply IH.
  - apply map2_add_closed; [exact Hr|apply Forall_take; exact Ha].
  - apply Forall_drop. exact Ha.
Qed.

Lemma sum_unrolled_closed (a : list float) : Forall P a -> P (sum_unrolled a).
Proof.
  intros Ha. unfold sum_unrolled.
  destruct (sum_blocks_closed (length a / 8 - 1) (firstn 8 a) (skipn 8 a)) as [Hr Hrest];
    [apply Forall_take; exact Ha|apply Forall_drop; exact Ha|].
  destruct (sum_blocks (length a / 8 - 1) (firstn 8 a) (skipn 8 a)) as [r rest].
  cbn [fst snd] in Hr, Hrest.
  do 8 (destruct r as [|? r]; [apply sum_loop_closed; assumption|]).
  destruct r; [|apply sum_loop_closed; assumption].
  apply sum_loop_closed; [|exact Hrest]. simpl dt_add.
  repeat match goal with
         | H : Forall _ (_ :: _) |- _ => inversion H; clear H; subst
         end.
  auto 8.
Qed.

Lemma pairwise_sum_closed (fuel : nat) : forall (a : list float),
  Forall P a -> P (pairwise_sum fuel a).
Proof.
  induction fuel as [|fuel IH]; intros a Ha; cbn [pairwise_sum];
    destruct (length a <? 8)%nat;
    try (apply sum_loop_closed; assumption);
    destruct (length a <=? 128)%nat;
    try (apply sum_unrolled_closed; assumption).
  simpl dt_add. apply P_add; apply IH; [apply Forall_take|apply Forall_drop]; exact Ha.
Qed.

Lemma np_sum_closed (l : list float) : Forall P l -> P (np_sum l).
Proof.
  intros Hl. unfold np_sum. simpl dt_add. apply P_add; [exact P_zero|].
  apply pairwise_sum_closed. exact Hl.
Qed.

(** Down a column: the running totals of [axis=0]. *)
Lemma col_fold_closed (j : nat) (rows : list (list float)) : forall (acc : list float),
  Forall (fun r => length r = length acc) rows ->
  (exists v, nth_error acc j = Some v /\ P v) ->
  (forall r x, In r rows -> nth_error r j = Some x -> P x) ->
  exists v, nth_error (fold_left (map2 PrimFloat.add) rows acc) j = Some v /\ P v.
Proof.
  induction rows as [|r rows IH]; intros acc Hlen Hacc Hcol; [exact Hacc|].
  inversion Hlen as [|? ? Hr Hrest]; subst. simpl. apply IH.
  - rewrite map2_length, Hr, Nat.min_id.
    eapply List.Forall_impl; [|exact Hrest]. simpl. intros; congruence.
  - destruct Hacc as (v & Hv & Pv).
    destruct (nth_error r j) as [x|] eqn:Hx.
    + exists (PrimFloat.add v x). rewrite nth_error_map2, Hv, Hx.
      split; [reflexivity|]. apply P_add; [exact Pv|]. apply (Hcol r x); [left; reflexivity|exact Hx].
    + apply nth_error_None in Hx. assert (j < length acc)%nat by (apply nth_error_Some; congruence).
      lia.
  - intros r' x Hin. apply Hcol. right. exact Hin.
Qed.

Lemma col_sums_closed (g j : nat) (rows : list (list float)) :
  Forall (fun r => length r = g) rows -> (j < g)%nat ->
  (forall r x, In r rows -> nth_error r j = Some x -> P x) ->
  exists v, nth_error (col_sums g rows) j = Some v /\ P v.
Proof.
  intros Hlen Hj Hcol. unfold col_sums.
  destruct (Nat.eqb_spec g 1) as [->|Hg].
  - assert (j = 0%nat) as -> by lia. eexists. split; [reflexivity|].
    apply np_sum_closed. apply List.Forall_forall. intros x Hx.
    apply in_concat in Hx as (r & Hr & Hxr).
    rewrite List.Forall_forall in Hlen. pose proof (Hlen r Hr) as Hlr.
    destruct r as [|y [|? ?]]; try discriminate. destruct Hxr as [<-|[]].
    apply (Hcol [y] y Hr). reflexivity.
  - apply col_fold_closed.
    + rewrite repeat_length. exact Hlen.
    + exists 0%float. split; [apply nth_error_repeat_lt; exact Hj|exact P_zero].
    + exact Hcol.
Qed.

(** In a row of a sparse matrix: the values stored for a column, added
    into the zero of the dense row. *)
Lemma nth_error_add_at (k j : nat) (v : float) (row : list float) :
  nth_error (add_at k v row) j
  = if (k =? j)%nat then option_map (fun x => PrimFloat.add x v) (nth_error row j)
    else nth_error row j.
Proof.
  revert k j. induction row as [|x row IH]; intros [|k] [|j]; simpl; auto.
  - destruct (k =? j)%nat; reflexivity.
Qed.

Lemma dense_row_closed (c j : nat) (entries : list (Z * float)) :
  (j < c)%nat ->
  Forall (fun e => fst e = Z.of_nat j -> P (snd e)) entries ->
  exists v, nth_error (dense_row c entries) j = Some v /\ P v.
Proof.
  intros Hj Hent. unfold dense_row.
  assert (G : forall acc, (exists v, nth_error acc j = Some v /\ P v) ->
            exists v, nth_error
              (fold_left (fun row '(k, v) =>
                 if 0 <=? k then add_at (Z.to_nat k) v row else row) entries acc) j = Some v
              /\ P v).
  { induction Hent as [|[k x] entries Hx _ IH]; intros acc Hacc; simpl; [exact Hacc|].
    apply IH. destruct (Z.leb_spec 0 k); [|exact Hacc].
    destruct Hacc as (v & Hv & Pv). rewrite nth_error_add_at, Hv.
    destruct (Nat.eqb_spec (Z.to_nat k) j) as [E|E].
    - eexists. split; [reflexivity|]. apply P_add; [exact Pv|].
      apply Hx. simpl. lia.
    - eauto. }
  apply G. exists 0%float. split; [apply nth_error_repeat_lt; exact Hj|exact P_zero].
Qed.

End SumClosed.

Lemma combine_map_r {B C D} (f : C -> D) (l : list B) (l' : list C) :
  combine l (map f l') = map (fun e => (fst e, f (snd e))) (combine l l').
Proof.
  revert l'. induction l as [|x l IH]; intros [|y l']; simpl; auto.
  rewrite IH. reflexivity.
Qed.

Lemma csr_rows_map (f : float -> float) (g : csr float) :
  csr_rows (set_data (map f (data g)) g)
  = map (map (fun e => (fst e, f (snd e)))) (csr_rows g).
Proof.
  unfold csr_rows. cbn [set_data indices data indptr]. rewrite map_map.
  apply map_ext. intros [lo hi]. rewrite py_slice_map_commute. apply combine_map_r.
Qed.

Lemma Forall_concat {B} (P : B -> Prop) (ls : list (list B)) :
  Forall (Forall P) ls -> Forall P (concat ls).
Proof.
  induction 1 as [|l ls Hl _ IH]; simpl; [constructor|].
  apply Forall_app. split; assumption.
Qed.

Lemma column_entries_zn (f : float -> float) (j : nat) (rows : list (list (Z * float))) :
  (forall x, zero_or_nan x -> zero_or_nan (f x)) ->
  Forall (Forall (fun e => fst e = Z.of_nat j -> is_zero_entry (snd e))) rows ->
  Forall (Forall (fun e => fst e = Z.of_nat j -> zero_or_nan (snd e)))
         (map (map (fun e => (fst e, f (snd e)))) rows).
Proof.
  intros Hf Hrows. apply List.Forall_forall. intros r' Hr'.
  apply in_map_iff in Hr' as (r & <- & Hr).
  rewrite List.Forall_forall in Hrows. specialize (Hrows r Hr).
  apply List.Forall_forall. intros e' He'. apply in_map_iff in He' as (e & <- & He).
  rewrite List.Forall_forall in Hrows. simpl. intros Hc.
  apply Hf. apply zero_entry_zn. apply (Hrows e He Hc).
Qed.

(** The statistics of a column of zeros are zeros or NaN. *)
Lemma zero_column_stats (m : pyobj float) (f : float -> float) (j : nat) :
  obj_wf m -> fst (obj_shape m) <> 0%nat -> (j < snd (obj_shape m))%nat ->
  (forall x, zero_or_nan x -> zero_or_nan (f x)) ->
  column_is_zero m j ->
  exists row e,
    py_mean (obj_map f m) Axis0 = Ok {| nd_shape := (1%nat, snd (obj_shape m)); nd_rows := [row] |} /\
    length row = snd (obj_shape m) /\
    nth_error row j = Some e /\ zero_or_nan e.
Proof.
  intros Hwf Hn Hj Hf Hcol. destruct m as [g|a]; cbn [obj_map py_mean obj_shape] in *.
  - unfold csr_mean. cbn [set_data shape]. destruct (shape g) as [n c] eqn:Hs.
    cbn [fst snd] in *. destruct (Nat.eqb_spec n 0); [contradiction|].
    set (k := (1 / float_of_nat n)%float).
    change (set_data (map (fun x => (x * k)%float) (map f (data g))) (set_data (map f (data g)) g))
      with (set_data (map (fun x => (x * k)%float) (data (set_data (map f (data g)) g)))
                     (set_data (map f (data g)) g)).
    rewrite csr_rows_map, csr_rows_map, map_map.
    destruct (dense_row_closed zero_or_nan zn_zero zn_add c j
                (concat (map (fun r => map (fun e => (fst e, (snd e * k)%float))
                                          (map (fun e => (fst e, f (snd e))) r))
                             (csr_rows g)))) as (e & He & Pe); [exact Hj| |].
    + apply Forall_concat.
      rewrite <- (map_map (map (fun e => (fst e, f (snd e))))
                          (map (fun e => (fst e, (snd e * k)%float)))).
      apply List.Forall_forall. intros r' Hr'.
      apply in_map_iff in Hr' as (r & <- & Hr).
      pose proof (column_entries_zn f j (csr_rows g) Hf Hcol) as H1.
      rewrite List.Forall_forall in H1. specialize (H1 r Hr).
      apply List.Forall_forall. intros e' He'. apply in_map_iff in He' as (e & <- & He).
      rewrite List.Forall_forall in H1. simpl. intros Hc.
      apply zn_mul_l. apply (H1 e He Hc).
    + eexists _, e. split; [reflexivity|]. split; [apply dense_row_length|]. split; assumption.
  - unfold nd_mean. cbn [nd_map nd_shape nd_rows]. destruct (nd_shape a) as [n g] eqn:Hs.
    cbn [fst snd] in *. destruct Hwf as [_ Hg]. rewrite Hs in Hg. simpl in Hg.
    assert (Hg' : Forall (fun r => length r = g) (map (map f) (nd_rows a))).
    { apply List.Forall_forall. intros r' Hr'. apply in_map_iff in Hr' as (r & <- & Hr).
      rewrite length_map. rewrite List.Forall_forall in Hg. apply Hg. exact Hr. }
    destruct (col_sums_closed zero_or_nan zn_zero zn_add g j (map (map f) (nd_rows a)) Hg' Hj)
      as (v & Hv & Pv).
    + intros r' y Hr' Hy. apply in_map_iff in Hr' as (r & <- & Hr).
      rewrite nth_error_map in Hy. destruct (nth_error r j) as [x|] eqn:Hx; [|discriminate].
      injection Hy as <-. apply Hf, zero_entry_zn.
      apply In_nth_error in Hr as [i Hi]. apply (Hcol i x). unfold cell. rewrite Hi. exact Hx.
    + eexists _, _. split; [reflexivity|].
      split; [rewrite length_map; apply col_sums_length; exact Hg'|].
      rewrite nth_error_map, Hv. split; [reflexivity|]. apply zn_div_l. exact Pv.
Qed.

Lemma zero_column_dense (m : pyobj float) (i j : nat) :
  obj_wf m -> (i < fst (obj_shape m))%nat -> (j < snd (obj_shape m))%nat ->
  column_is_zero m j ->
  exists x, cell (dense_of m) i j = Some x /\ zero_or_nan x.
Proof.
  intros Hwf Hi Hj Hcol. destruct m as [g|a]; cbn [dense_of obj_shape column_is_zero] in *.
  - unfold cell, todense. cbn [nd_rows]. rewrite nth_error_map.
    destruct (nth_error (csr_rows g) i) as [r|] eqn:Hr.
    + simpl. apply (dense_row_closed zero_or_nan zn_zero zn_add); [exact Hj|].
      rewrite List.Forall_forall in Hcol. pose proof (Hcol r (nth_error_In _ _ Hr)) as H1.
      eapply List.Forall_impl; [|exact H1]. simpl. intros e He Hc.
      apply zero_entry_zn, He, Hc.
    + apply nth_error_None in Hr. rewrite csr_rows_length in Hr.
      simpl in Hwf. lia.
  - destruct (cell_defined a i j Hwf Hi Hj) as [x Hx].
    exists x. split; [exact Hx|]. apply zero_entry_zn. apply (Hcol i x Hx).
Qed.

Lemma zn_square x : zero_or_nan x -> zero_or_nan (x * x)%float.
Proof. apply zn_mul_l. Qed.

(** X16: a column of zeros.  With statistics down the columns of a dense
    or sparse matrix with at least one row, a column in which every entry
    (for a sparse matrix: every stored value, if any) is zero comes out as
    0 in every row: its mean and its variance are zero, the quotient is
    NaN, and NaN is replaced by 0. *)
Theorem zscore_zero_column (w : world float) (matrix : loc) (m : pyobj float) :
  heap w !! matrix = Some m -> obj_wf m -> fst (obj_shape m) <> 0%nat ->
  exists out w' z,
    zscore matrix Axis0 w = (Ok out, w') /\
    heap w' !! out = Some (ONdArray z) /\
    nd_shape z = obj_shape m /\
    forall j, column_is_zero m j ->
      forall i, (i < fst (obj_shape m))%nat -> (j < snd (obj_shape m))%nat ->
                cell z i j = Some 0%float.
Proof.
  intros Hm Hwf Hn.
  destruct (dense_of_wf m Hwf) as [Hdwf Hdshape].
  destruct (obj_map_wf (fun x => x * x)%float m Hwf) as [Hwf2 Hshape2].
  destruct (py_mean_ok m Axis0 Hn) as [E_x HE].
  destruct (py_mean_ok (obj_map (fun x => x * x)%float m) Axis0) as [E_x2 HE2];
    [simpl; rewrite Hshape2; exact Hn|].
  destruct (py_mean_axis0 m E_x Hwf HE) as (Erow & -> & HErow).
  destruct (py_mean_axis0 _ E_x2 Hwf2 HE2) as (E2row & -> & HE2row).
  rewrite Hshape2 in HE2row, HE2.
  destruct (obj_shape m) as [n g] eqn:Hshape. cbn [fst snd] in *.
  destruct (zscore_cells_row_stats (dense_of m) Erow E2row n g Hdwf Hdshape HErow HE2row)
    as (z & Hz & Hzshape & Hcells).
  assert (Hval : zscore_value m Axis0 = Ok z).
  { unfold zscore_value. rewrite HE, result_bind_ok, HE2, result_bind_ok. exact Hz. }
  eexists _, _, z. split; [rewrite (run_zscore w matrix m Axis0 Hm), Hval; reflexivity|].
  split; [apply lookup_insert_eq|]. split; [exact Hzshape|].
  intros j Hcol i Hi Hj.
  destruct (zero_column_dense m i j Hwf) as (x & Hx & Px);
    [rewrite Hshape; exact Hi|rewrite Hshape; exact Hj|exact Hcol|].
  destruct (zero_column_stats m (fun x => x) j Hwf) as (row1 & e & H1 & _ & He & Pe);
    [rewrite Hshape; exact Hn|rewrite Hshape; exact Hj|auto|exact Hcol|].
  destruct (zero_column_stats m (fun x => x * x)%float j Hwf) as (row2 & e2 & H2 & _ & He2 & Pe2);
    [rewrite Hshape; exact Hn|rewrite Hshape; exact Hj|exact zn_square|exact Hcol|].
  rewrite (obj_map_id (fun x => x) m) in H1 by reflexivity.
  rewrite HE in H1. rewrite HE2 in H2. rewrite Hshape in H1, H2. cbn [snd] in H1, H2.
  injection H1 as <-. injection H2 as <-.
  rewrite (Hcells i j x e e2 Hx He He2). rewrite zn_cell by assumption. reflexivity.
Qed.

Lemma zero_first_column_wf : obj_wf (ONdArray zero_first_column).
Proof. split; [reflexivity|]. repeat constructor. Qed.

Lemma zscore_zero_column_witness :
  exists out w' z,
    zscore 0%nat Axis0 (world_of (ONdArray zero_first_column)) = (Ok out, w') /\
    heap w' !! out = Some (ONdArray z) /\
    cell z 1 0 = Some 0%float.
Proof.
  destruct (zscore_zero_column (world_of (ONdArray zero_first_column)) 0%nat
              (ONdArray zero_first_column) eq_refl zero_first_column_wf)
    as (out & w' & z & Hrun & Hh & _ & Hzero); [discriminate|].
  exists out, w', z. split; [exact Hrun|]. split; [exact Hh|].
  apply (Hzero 0%nat); [|simpl; lia|simpl; lia].
  intros [|[|i]] x E; unfold cell in E; simpl in E.
  - injection E as <-. reflexivity.
  - injection E as <-. reflexivity.
  - rewrite nth_error_nil in E. discriminate.
Defined.

(** ** Feature Fusion: further properties *)

Lemma obj_map_map f h (o : pyobj float) :
  obj_map f (obj_map h o) = obj_map (fun x => f (h x)) o.
Proof.
  destruct o as [g|a]; simpl.
  - unfold set_data. simpl. rewrite map_map. reflexivity.
  - unfold nd_map. simpl. rewrite map_map. f_equal. f_equal.
    apply map_ext. intros r. apply map_map.
Qed.

(** What a call of Feature Fusion does when it is given the same object
    twice: the object is scaled twice, and concatenated with itself. *)
Lemma run_weighted_concatenate_same (w : world float) (m : loc) (c : pyobj float)
    (lam : float) :
  heap w !! m = Some c ->
  let c2 := obj_map (fun x => x * sqrt (1 - lam) * sqrt lam)%float c in
  let h2 := <[m := c2]> (heap w) in
  weighted_concatenate m m lam w
  = match hstack_objs c2 c2 with
    | Ok r => (Ok (fresh (dom h2)), with_heap (<[fresh (dom h2) := r]> h2) w)
    | Err e => (Err e, with_heap h2 w)
    end.
Proof.
  intros Hc c2 h2. unfold weighted_concatenate, imul.
  rewrite run_bind, run_bind, (run_load _ _ _ Hc). unfold store at 1.
  rewrite run_bind, run_bind.
  rewrite (run_load m (obj_map (fun x => x * sqrt (1 - lam))%float c))
    by (simpl; apply lookup_insert_eq).
  unfold store at 1. rewrite with_heap_twice, heap_with_heap, insert_insert_eq.
  rewrite obj_map_map. fold c2. fold h2.
  rewrite run_bind, (run_load m c2) by (simpl; apply lookup_insert_eq).
  rewrite run_bind, (run_load m c2) by (simpl; apply lookup_insert_eq).
  unfold hstack_objs.
  destruct c2 as [a|a];
    rewrite run_bind; unfold lift at 1;
    match goal with |- context [match ?r ≫= _ with _ => _ end] => destruct r end;
    reflexivity.
Qed.

(** X17: Feature Fusion given the same matrix as both arguments.  The two
    in-place scalings hit the one object, which ends up scaled by
    [sqrt(1 - λ)] and then by [sqrt(λ)], and the result is that matrix
    beside itself.  At [λ = 0] and at [λ = 1] a matrix with finite entries
    is left all zero, and so are both blocks of the result. *)
Theorem weighted_concatenate_same_object (w : world float) (m : loc) (c : pyobj float)
    (lam : float) :
  heap w !! m = Some c ->
  exists out w' r,
    weighted_concatenate m m lam w = (Ok out, w') /\
    out <> m /\
    heap w' !! m = Some (obj_map (fun x => x * sqrt (1 - lam) * sqrt lam)%float c) /\
    heap w' !! out = Some r /\
    hstack_objs (obj_map (fun x => x * sqrt (1 - lam) * sqrt lam)%float c)
                (obj_map (fun x => x * sqrt (1 - lam) * sqrt lam)%float c) = Ok r /\
    obj_shape r = (fst (obj_shape c), (snd (obj_shape c) + snd (obj_shape c))%nat) /\
    (lam = 0%float \/ lam = 1%float ->
     Forall (fun x => is_finite x = true) (obj_entries c) ->
     Forall is_zero_entry
       (obj_entries (obj_map (fun x => x * sqrt (1 - lam) * sqrt lam)%float c))).
Proof.
  intros Hc.
  pose proof (run_weighted_concatenate_same w m c lam Hc) as Hrun. cbv zeta in Hrun.
  set (c2 := obj_map (fun x => x * sqrt (1 - lam) * sqrt lam)%float c) in *.
  set (h2 := <[m := c2]> (heap w)) in *.
  assert (H2 : h2 !! m = Some c2) by apply lookup_insert_eq.
  destruct (hstack_objs_ok c2 c2 eq_refl) as [r Hr]. rewrite Hr in Hrun.
  exists (fresh (dom h2)), (with_heap (<[fresh (dom h2) := r]> h2) w), r.
  split; [exact Hrun|]. cbn [with_heap heap].
  split; [apply (fresh_ne _ _ _ H2)|].
  split; [rewrite lookup_insert_ne by (apply (fresh_ne _ _ _ H2)); exact H2|].
  split; [apply lookup_insert_eq|]. split; [exact Hr|].
  split; [rewrite (hstack_objs_shape _ _ _ Hr); unfold c2; rewrite obj_map_shape; reflexivity|].
  intros Hlam Hfin. unfold c2. rewrite obj_map_entries. apply Forall_map.
  eapply List.Forall_impl; [|exact Hfin]. intros x Hx. cbv beta.
  destruct Hlam as [-> | ->].
  - change (sqrt (1 - 0))%float with 1%float. change (sqrt 0)%float with 0%float.
    rewrite mul_one_r. apply mul_zero_r. exact Hx.
  - change (sqrt (1 - 1))%float with 0%float. change (sqrt 1)%float with 1%float.
    rewrite mul_one_r. apply mul_zero_r. exact Hx.
Qed.

Lemma weighted_concatenate_same_object_witness :
  exists out w' r,
    weighted_concatenate 0%nat 0%nat 0%float (world_of (ONdArray two_by_two)) = (Ok out, w') /\
    heap w' !! out = Some r /\
    obj_shape r = (2%nat, 4%nat) /\
    Forall is_zero_entry
      (obj_entries (obj_map (fun x => x * sqrt (1 - 0) * sqrt 0)%float (ONdArray two_by_two))).
Proof.
  destruct (weighted_concatenate_same_object (world_of (ONdArray two_by_two)) 0%nat
              (ONdArray two_by_two) 0%float eq_refl)
    as (out & w' & r & Hrun & _ & _ & Hh & _ & Hs & Hz).
  exists out, w', r. split; [exact Hrun|]. split; [exact Hh|]. split; [exact Hs|].
  apply Hz; [left; reflexivity|]. repeat constructor.
Defined.

(** *** Sparse or dense *)

(** X18: sparse or dense, Feature Fusion builds the same matrix.  For two
    different objects with the same number of rows (a sparse one with its
    column indices inside its shape) the result is sparse exactly when
    both inputs are, and dense otherwise; either way its dense form is the
    dense form of the scaled first matrix with the dense form of the
    scaled second matrix to its right. *)
Theorem weighted_concatenate_sparse_or_dense (w : world float) (cell_genes neighbours : loc)
    (c n : pyobj float) (lam : float) :
  heap w !! cell_genes = Some c -> heap w !! neighbours = Some n ->
  cell_genes <> neighbours ->
  fst (obj_shape c) = fst (obj_shape n) ->
  cols_in_range c -> cols_in_range n ->
  exists out w' r,
    weighted_concatenate cell_genes neighbours lam w = (Ok out, w') /\
    heap w' !! out = Some r /\
    match c, n with
    | OCsr _, OCsr _ => exists g, r = OCsr g
    | _, _ => exists a, r = ONdArray a
    end /\
    np_concatenate1 (dense_of (scaled_self lam c)) (dense_of (scaled_neighbours lam n))
    = Ok (dense_of r).
Proof.
  intros Hc Hn Hne Hrows Hcc Hcn.
  pose proof (run_weighted_concatenate w cell_genes neighbours c n lam Hc Hn Hne) as Hrun.
  cbv zeta in Hrun.
  destruct (hstack_objs_ok (scaled_self lam c) (scaled_neighbours lam n)) as [r Hr].
  { unfold scaled_self, scaled_neighbours. rewrite !obj_map_shape. exact Hrows. }
  rewrite Hr in Hrun. eexists _, _, r. split; [exact Hrun|]. cbn [with_heap heap].
  split; [apply lookup_insert_eq|].
  apply (cols_in_range_map (fun x => x * sqrt (1 - lam))%float) in Hcc.
  apply (cols_in_range_map (fun x => x * sqrt lam)%float) in Hcn.
  fold (scaled_self lam c) in Hcc. fold (scaled_neighbours lam n) in Hcn.
  unfold hstack_objs in Hr. unfold scaled_self, scaled_neighbours in *.
  destruct c as [a|a], n as [b|b]; cbn [obj_map dense_of] in *;
    match type of Hr with
    | (?x ≫= _) = _ => destruct x as [rr|] eqn:E; [|discriminate]
    end; rewrite result_bind_ok in Hr; injection Hr as <-;
    (split; [eexists; reflexivity|]); cbn [dense_of]; try reflexivity.
  apply todense_hstack; assumption.
Qed.

Lemma weighted_concatenate_sparse_or_dense_witness :
  exists out w' r,
    weighted_concatenate 0%nat 1%nat 0.25%float
      (world_of2 (OCsr sparse_two_by_two) (OCsr sparse_two_by_three)) = (Ok out, w') /\
    heap w' !! out = Some r /\
    (exists g, r = OCsr g) /\
    np_concatenate1 (dense_of (scaled_self 0.25 (OCsr sparse_two_by_two)))
                    (dense_of (scaled_neighbours 0.25 (OCsr sparse_two_by_three)))
    = Ok (dense_of r).
Proof.
  apply (weighted_concatenate_sparse_or_dense
           (world_of2 (OCsr sparse_two_by_two) (OCsr sparse_two_by_three)) 0%nat 1%nat
           (OCsr sparse_two_by_two) (OCsr sparse_two_by_three) 0.25%float
           eq_refl eq_refl ltac:(discriminate) eq_refl);
    simpl; repeat constructor; lia.
Defined.

(** ** Edge histogram *)

(** *** The order of binary64 numbers that are not NaN *)

Lemma leb_refl_not_nan (x : float) : is_nan x = false -> PrimFloat.leb x x = true.
Proof.
  rewrite is_nan_spec, FloatAxioms.leb_spec. unfold SFleb. intros Hx.
  rewrite SFcompare_refl; [reflexivity|]. destruct (Prim2SF x); congruence.
Qed.

Lemma SFcompare_total (a b : spec_float) :
  a <> S754_nan -> b <> S754_nan -> SFleb a b = false -> SFltb b a = true.
Proof.
  unfold SFleb, SFltb.
  destruct a as [sa|sa| |sa ma ea], b as [sb|sb| |sb mb eb]; simpl; try congruence;
    try (destruct sa; congruence); try (destruct sb; congruence);
    try (destruct sa, sb; congruence).
  intros _ _.
  destruct sa, sb; simpl; try congruence;
    rewrite (Z.compare_antisym ea eb);
    destruct (Z.compare ea eb); simpl; try congruence;
    change (Pos.compare_cont Eq) with Pos.compare;
    rewrite (Pos.compare_antisym ma mb);
    destruct (Pos.compare ma mb); simpl; congruence.
Qed.

Lemma ltb_of_not_leb (x y : float) :
  is_nan x = false -> is_nan y = false -> PrimFloat.leb x y = false -> PrimFloat.ltb y x = true.
Proof.
  rewrite !is_nan_spec, FloatAxioms.leb_spec, FloatAxioms.ltb_spec. intros Hx Hy.
  apply SFcompare_total; intros E; rewrite E in *; discriminate.
Qed.

Lemma ltb_leb (x y : float) : PrimFloat.ltb x y = true -> PrimFloat.leb x y = true.
Proof.
  rewrite FloatAxioms.leb_spec, FloatAxioms.ltb_spec. unfold SFltb, SFleb.
  destruct (SFcompare (Prim2SF x) (Prim2SF y)) as [[| |]|]; congruence.
Qed.

(** *** The first maximum *)

Lemma argmax_from_spec (ip : list float) : forall (pre : list float) (mp : float) (max_ind : nat),
  Forall (fun c => is_nan c = false) (pre ++ ip) ->
  nth_error pre max_ind = Some mp ->
  (forall c, In c pre -> PrimFloat.leb c mp = true) ->
  (forall j c, (j < max_ind)%nat -> nth_error pre j = Some c -> PrimFloat.ltb c mp = true) ->
  exists ck,
    nth_error (pre ++ ip) (argmax_from mp max_ind (length pre) ip) = Some ck /\
    (forall c, In c (pre ++ ip) -> PrimFloat.leb c ck = true) /\
    (forall j c, (j < argmax_from mp max_ind (length pre) ip)%nat ->
                 nth_error (pre ++ ip) j = Some c -> PrimFloat.ltb c ck = true).
Proof.
  induction ip as [|x rest IH]; intros pre mp max_ind Hnan Hmp Hle Hlt.
  - rewrite app_nil_r. simpl. exists mp. auto.
  - assert (Hmax : (max_ind < length pre)%nat) by (apply nth_error_Some; congruence).
    assert (Hx : is_nan x = false).
    { rewrite List.Forall_forall in Hnan. apply Hnan. apply in_or_app. right. left. reflexivity. }
    assert (Hm : is_nan mp = false).
    { rewrite List.Forall_forall in Hnan. apply Hnan. apply in_or_app. left.
      eapply nth_error_In. exact Hmp. }
    assert (E : pre ++ x :: rest = (pre ++ [x]) ++ rest) by (rewrite <- app_assoc; reflexivity).
    assert (El : S (length pre) = length (pre ++ [x])) by (rewrite length_app; simpl; lia).
    cbn [argmax_from]. destruct (PrimFloat.leb x mp) eqn:Hxm.
    + rewrite E, El. apply IH.
      * rewrite <- E. exact Hnan.
      * rewrite nth_error_app1 by exact Hmax. exact Hmp.
      * intros c Hc. apply in_app_or in Hc as [Hc|[<-|[]]]; auto.
      * intros j c Hj Hc. rewrite nth_error_app1 in Hc by lia. eauto.
    + rewrite Hx. pose proof (ltb_of_not_leb x mp Hx Hm Hxm) as Hlt'.
      rewrite E, El. apply IH.
      * rewrite <- E. exact Hnan.
      * rewrite nth_error_app2 by lia. rewrite Nat.sub_diag. reflexivity.
      * intros c Hc. apply in_app_or in Hc as [Hc|[<-|[]]].
        -- apply ltb_leb. apply (ltb_le_lt_trans c mp x); auto.
        -- apply leb_refl_not_nan. exact Hx.
      * intros j c Hj Hc. rewrite nth_error_app1 in Hc by lia.
        apply (ltb_le_lt_trans c mp x); [|exact Hlt']. apply Hle.
        eapply nth_error_In. exact Hc.
Qed.

Lemma np_argmax_spec (counts : list float) :
  counts <> [] -> Forall (fun c => is_nan c = false) counts ->
  exists k ck,
    np_argmax counts = Ok k /\ nth_error counts k = Some ck /\
    (forall c, In c counts -> PrimFloat.leb c ck = true) /\
    (forall j c, (j < k)%nat -> nth_error counts j = Some c -> PrimFloat.ltb c ck = true).
Proof.
  intros Hne Hnan. destruct counts as [|x rest]; [contradiction|].
  assert (Hx : is_nan x = false) by (inversion Hnan; assumption).
  unfold np_argmax. rewrite Hx.
  destruct (argmax_from_spec rest [x] x 0%nat Hnan eq_refl) as (ck & Hk & Hle & Hlt).
  - intros c [<-|[]]. apply leb_refl_not_nan. exact Hx.
  - intros j c Hj. lia.
  - exists (argmax_from x 0 1 rest), ck. auto.
Qed.

Lemma run_plot_bind {X Y} (m : Plot X) (k : X -> Plot Y) (t : list plot_call) :
  (m ≫= k) t = match m t with
               | (Ok x, t') => k x t'
               | (Err e, t') => (Err e, t')
               end.
Proof. reflexivity. Qed.

(** X19: what the edge histogram reports.  When [hist] returns counts
    without NaN, not empty and with an edge for every count, the function
    returns the median of [graph.data] and, as the mode, the left edge of
    the first bin whose count is the largest: no bin has a larger count,
    and every bin before it has a smaller one.  On the axes it has drawn
    the histogram, a red line at the median, a green line at the mode, and
    set the title, in this order. *)
Theorem plot_edge_histogram_mode (graph : csr float) (ax : Axes) (title : string)
    (bins : pyval) (counts edges : list float) :
  ax_hist ax (data graph) bins = Ok (counts, edges) ->
  counts <> [] -> (length counts <= length edges)%nat ->
  Forall (fun c => is_nan c = false) counts ->
  exists k mode ck,
    plot_edge_histogram graph ax title bins []
    = (Ok (np_median (data graph), mode),
       [AxHist (data graph) bins;
        AxVline (np_median (data graph)) "r" 0.8;
        AxVline mode "g" 0.8;
        AxSetTitle (String.append "Histogram of " title)]) /\
    nth_error edges k = Some mode /\
    nth_error counts k = Some ck /\
    (forall c, In c counts -> PrimFloat.leb c ck = true) /\
    (forall j c, (j < k)%nat -> nth_error counts j = Some c -> PrimFloat.ltb c ck = true).
Proof.
  intros Hh Hne Hlen Hnan.
  destruct (np_argmax_spec counts Hne Hnan) as (k & ck & Hk & Hck & Hle & Hlt).
  assert (Hklt : (k < length edges)%nat).
  { assert (k < length counts)%nat by (apply nth_error_Some; congruence). lia. }
  destruct (nth_error edges k) as [mode|] eqn:Hmode;
    [|apply nth_error_None in Hmode; lia].
  exists k, mode, ck. split; [|auto].
  unfold plot_edge_histogram.
  rewrite run_plot_bind. unfold plot_log at 1. cbn [app].
  rewrite run_plot_bind. unfold plot_lift at 1. rewrite Hh. cbn [fst snd].
  rewrite run_plot_bind. unfold plot_lift at 1. rewrite Hk.
  rewrite run_plot_bind. unfold plot_lift at 1. unfold np_getitem. rewrite Hmode.
  reflexivity.
Qed.

Lemma plot_edge_histogram_mode_witness :
  exists median,
    plot_edge_histogram scenario_graph
      (axes_of [1; 3; 3; 2]%float [0; 1; 2; 3; 4]%float) "edge weights" (VInt 4) []
    = (Ok (median, 1%float),
       [AxHist (data scenario_graph) (VInt 4); AxVline median "r" 0.8;
        AxVline 1 "g" 0.8; AxSetTitle "Histogram of edge weights"]).
Proof.
  destruct (plot_edge_histogram_mode scenario_graph
              (axes_of [1; 3; 3; 2]%float [0; 1; 2; 3; 4]%float)
              "edge weights" (VInt 4) [1; 3; 3; 2]%float [0; 1; 2; 3; 4]%float eq_refl)
    as (k & mode & ck & Hrun & _); [discriminate|simpl; lia|repeat constructor|].
  exists (np_median (data scenario_graph)).
  assert (C : plot_edge_histogram scenario_graph
                (axes_of [1; 3; 3; 2]%float [0; 1; 2; 3; 4]%float) "edge weights" (VInt 4) []
              = (Ok (np_median (data scenario_graph), 1%float),
                 [AxHist (data scenario_graph) (VInt 4);
                  AxVline (np_median (data scenario_graph)) "r" 0.8;
                  AxVline 1 "g" 0.8; AxSetTitle "Histogram of edge weights"]))
    by (vm_compute; reflexivity).
  rewrite Hrun in C. injection C as ->. exact Hrun.
Defined.

(** X20: when the edge histogram fails, it has only called [hist].  The
    error is the one [hist] raised, or the [ValueError] of [argmax] on
    counts that are empty, or the [IndexError] of the lookup among the
    edges; in each case no line has been drawn and the title has not been
    set. *)
Theorem plot_edge_histogram_failure (graph : csr float) (ax : Axes) (title : string)
    (bins : pyval) (e : exn) (t : list plot_call) :
  plot_edge_histogram graph ax title bins [] = (Err e, t) ->
  t = [AxHist (data graph) bins] /\
  (ax_hist ax (data graph) bins = Err e \/
   exists counts edges,
     ax_hist ax (data graph) bins = Ok (counts, edges) /\
     ((counts = [] /\ e = ValueError) \/
      (exists k, np_argmax counts = Ok k /\ (length edges <= k)%nat /\ e = IndexError))).
Proof.
  unfold plot_edge_histogram.
  rewrite run_plot_bind. unfold plot_log at 1. cbn [app].
  rewrite run_plot_bind. unfold plot_lift at 1.
  destruct (ax_hist ax (data graph) bins) as [[counts edges]|e0] eqn:Hh.
  - cbn [fst snd]. rewrite run_plot_bind. unfold plot_lift at 1.
    destruct (np_argmax counts) as [k|e1] eqn:Hk.
    + rewrite run_plot_bind. unfold plot_lift at 1. unfold np_getitem.
      destruct (nth_error edges k) as [mode|] eqn:Hm; [discriminate|].
      intros [= <- <-]. split; [reflexivity|]. right. exists counts, edges.
      split; [reflexivity|]. right. exists k. apply nth_error_None in Hm. auto.
    + intros [= <- <-]. split; [reflexivity|]. right. exists counts, edges.
      split; [reflexivity|]. left. destruct counts; [|discriminate].
      injection Hk as <-. auto.
  - intros [= <- <-]. auto.
Qed.

Lemma plot_edge_histogram_failure_witness :
  plot_edge_histogram scenario_graph failing_axes "edge weights" (VInt 100) []
  = (Err LibraryError, [AxHist (data scenario_graph) (VInt 100)]).
Proof.
  assert (C : plot_edge_histogram scenario_graph failing_axes "edge weights" (VInt 100) []
              = (Err LibraryError, [AxHist (data scenario_graph) (VInt 100)]))
    by reflexivity.
  destruct (plot_edge_histogram_failure scenario_graph failing_axes "edge weights" (VInt 100)
              LibraryError _ C) as [_ _].
  exact C.
Defined.

Lemma zero_entry_not_nan (x : float) : is_zero_entry x -> is_nan x = false.
Proof.
  unfold is_zero_entry. rewrite is_nan_spec, FloatAxioms.eqb_spec.
  destruct (Prim2SF x); try reflexivity. discriminate.
Qed.

Lemma zero_entries_not_lt (a b : float) :
  is_zero_entry a -> is_zero_entry b -> PrimFloat.ltb a b = false.
Proof.
  unfold is_zero_entry. rewrite !FloatAxioms.eqb_spec, FloatAxioms.ltb_spec.
  change (Prim2SF 0) with (S754_zero false). unfold SFeqb, SFltb.
  destruct (Prim2SF a) as [sa|sa| |sa ma ea], (Prim2SF b) as [sb|sb| |sb mb eb];
    simpl; try congruence; try (destruct sa; congruence); try (destruct sb; congruence).
Qed.

(** X21: the edge histogram of a graph without edges.  When [hist]
    returns counts that are all zero, as it does for no data, the function
    does not fail: the median it reports is NaN, the mode is the first bin
    edge, and the two lines are drawn there. *)
Theorem plot_edge_histogram_no_edges (graph : csr float) (ax : Axes) (title : string)
    (bins : pyval) (counts edges : list float) (e0 : float) :
  data graph = [] ->
  ax_hist ax [] bins = Ok (counts, e0 :: edges) ->
  counts <> [] -> Forall is_zero_entry counts ->
  exists median,
    plot_edge_histogram graph ax title bins []
    = (Ok (median, e0),
       [AxHist [] bins; AxVline median "r" 0.8; AxVline e0 "g" 0.8;
        AxSetTitle (String.append "Histogram of " title)]) /\
    is_nan median = true.
Proof.
  intros Hd Hh Hne Hz.
  assert (Hnan : Forall (fun c => is_nan c = false) counts)
    by (eapply List.Forall_impl; [|exact Hz]; apply zero_entry_not_nan).
  destruct (np_argmax_spec counts Hne Hnan) as (k & ck & Hk & Hck & _ & Hlt).
  assert (k = 0%nat) as ->.
  { destruct k as [|k]; [reflexivity|]. destruct counts as [|c0 rest]; [contradiction|].
    pose proof (Hlt 0%nat c0 ltac:(lia) eq_refl) as Hc.
    rewrite List.Forall_forall in Hz.
    rewrite zero_entries_not_lt in Hc; [discriminate| |].
    - apply Hz. left. reflexivity.
    - apply Hz. eapply nth_error_In. exact Hck. }
  exists (np_median []). split; [|reflexivity].
  unfold plot_edge_histogram. rewrite Hd.
  rewrite run_plot_bind. unfold plot_log at 1. cbn [app].
  rewrite run_plot_bind. unfold plot_lift at 1. rewrite Hh. cbn [fst snd].
  rewrite run_plot_bind. unfold plot_lift at 1. rewrite Hk.
  reflexivity.
Qed.

Lemma plot_edge_histogram_no_edges_witness :
  exists median,
    plot_edge_histogram no_edges (axes_of [0; 0; 0]%float [0; 0.25; 0.5; 1]%float)
      "edge weights" (VInt 3) []
    = (Ok (median, 0%float),
       [AxHist [] (VInt 3); AxVline median "r" 0.8; AxVline 0 "g" 0.8;
        AxSetTitle (String.append "Histogram of " "edge weights")]) /\
    is_nan median = true.
Proof.
  apply (plot_edge_histogram_no_edges no_edges (axes_of [0; 0; 0]%float [0; 0.25; 0.5; 1]%float)
           "edge weights" (VInt 3) [0; 0; 0]%float [0.25; 0.5; 1]%float 0%float
           eq_refl eq_refl); [discriminate|repeat constructor].
Defined.

(** ** Annotated matrices *)

Lemma string_length_append (s t : string) :
  String.length (String.append s t) = (String.length s + String.length t)%nat.
Proof. induction s as [|c s IH]; simpl; [reflexivity|]. rewrite IH. reflexivity. Qed.

Lemma string_append_inj_l (t s s' : string) :
  String.append s t = String.append s' t -> s = s'.
Proof.
  revert s'. induction s as [|c s IH]; intros [|c' s'] E.
  - reflexivity.
  - apply (f_equal String.length) in E.
    change (String.length t = S (String.length (String.append s' t))) in E.
    rewrite (string_length_append s' t) in E. lia.
  - apply (f_equal String.length) in E.
    change (S (String.length (String.append s t)) = String.length t) in E.
    rewrite (string_length_append s t) in E. lia.
  - change (String c (String.append s t) = String c' (String.append s' t)) in E.
    injection E as -> E. f_equal. apply IH. exact E.
Qed.

Lemma find_map_replace {B} (p : B -> bool) (f : B -> B) (l : list B) :
  (forall c, p c = true -> p (f c) = true) ->
  (forall c, p c = false -> f c = c) ->
  List.find p (map f l) = option_map f (List.find p l).
Proof.
  intros Hp Hn. induction l as [|c l IH]; [reflexivity|]. simpl.
  destruct (p c) eqn:E.
  - rewrite (Hp c E). reflexivity.
  - rewrite (Hn c E), E. exact IH.
Qed.

Lemma find_app_none {B} (p : B -> bool) (l : list B) (x : B) :
  existsb p l = false -> p x = true -> List.find p (l ++ [x]) = Some x.
Proof.
  induction l as [|c l IH]; simpl; intros He Hx.
  - rewrite Hx. reflexivity.
  - apply orb_false_iff in He as [Hc He]. rewrite Hc. apply IH; assumption.
Qed.

Lemma find_existsb {B} (p : B -> bool) (l : list B) :
  existsb p l = true -> exists c, List.find p l = Some c.
Proof.
  induction l as [|c l IH]; simpl; [discriminate|].
  destruct (p c); [eauto|]. exact IH.
Qed.

(** Setting a column: afterwards it is there, and the other columns are
    as they were. *)
Lemma df_setitem_spec (name : string) (values : list pyval) (df : DataFrame) :
  length values = df_len df ->
  exists df',
    df_setitem name values df = Ok df' /\
    df_index df' = df_index df /\
    df_getitem name df' = Some values /\
    forall c, In c (df_columns df) -> fst c <> name -> In c (df_columns df').
Proof.
  intros Hlen. unfold df_setitem. rewrite Hlen, Nat.eqb_refl.
  eexists. split; [reflexivity|]. split; [reflexivity|]. cbn [df_columns].
  destruct (existsb (fun c => String.eqb name (fst c)) (df_columns df)) eqn:Hex.
  - split.
    + unfold df_getitem. cbn [df_columns].
      rewrite (find_map_replace (fun c => String.eqb name (fst c))).
      * destruct (find_existsb _ _ Hex) as [c Hc]. rewrite Hc. simpl.
        apply find_some in Hc as [_ Hc]. rewrite Hc. reflexivity.
      * intros c Hc. rewrite Hc. exact Hc.
      * intros c Hc. rewrite Hc. reflexivity.
    + intros c Hin Hne. apply in_map_iff. exists c. split; [|exact Hin].
      destruct (String.eqb_spec name (fst c)); [congruence|reflexivity].
  - split.
    + unfold df_getitem. cbn [df_columns].
      rewrite find_app_none; [reflexivity|exact Hex|apply String.eqb_refl].
    + intros c Hin _. apply in_or_app. left. exact Hin.
Qed.

Lemma pd_concat_copy (suffix : string) (df : DataFrame) :
  pd_concat df (index_add suffix df)
  = {| df_index := df_index df ++ map (fun s => String.append s suffix) (df_index df);
       df_columns := map (fun c => (fst c, snd c ++ snd c)) (df_columns df) |}.
Proof. unfold pd_concat, index_add. cbn [df_index df_columns]. rewrite map2_diag. reflexivity. Qed.

Lemma count_true_values_flags (g : nat) :
  count_true_values (repeat (VBool false) g ++ repeat (VBool true) g) = g.
Proof.
  unfold count_true_values. rewrite List.filter_app, length_app.
  replace (List.filter _ (repeat (VBool false) g)) with (@nil pyval)
    by (induction g; simpl; auto).
  replace (List.filter _ (repeat (VBool true) g)) with (repeat (VBool true) g)
    by (induction g; simpl; congruence).
  rewrite repeat_length. reflexivity.
Qed.

(** What the function computes before it builds the annotated matrix. *)
Lemma matrix_to_adata_run (matrix : pyobj float) (adata : AnnData) :
  let g := df_len (adata_var adata) in
  let flags := repeat (VBool false) g ++ repeat (VBool true) g in
  exists var_combined,
    matrix_to_adata matrix adata
    = anndata_init matrix (adata_obs adata) var_combined (adata_uns adata) (adata_obsm adata) /\
    df_index var_combined
    = df_index (adata_var adata)
      ++ map (fun s => String.append s "_nbr") (df_index (adata_var adata)) /\
    df_len var_combined = (2 * g)%nat /\
    df_getitem "is_nbr" var_combined = Some flags /\
    forall name values,
      name <> "is_nbr"%string -> In (name, values) (df_columns (adata_var adata)) ->
      In (name, values ++ values) (df_columns var_combined).
Proof.
  cbv zeta. unfold matrix_to_adata.
  set (g := df_len (adata_var adata)).
  assert (Hg : df_len (index_add "_nbr" (adata_var adata)) = g)
    by (unfold df_len, index_add; cbn [df_index]; apply length_map).
  rewrite Hg. replace (g * 2 - g)%nat with g by lia.
  rewrite pd_concat_copy.
  set (vc := {| df_index := _; df_columns := _ |}).
  assert (Hvc : df_len vc = (2 * g)%nat)
    by (unfold df_len, vc; cbn [df_index]; rewrite length_app, length_map; unfold g, df_len; lia).
  destruct (df_setitem_spec "is_nbr" (repeat (VBool false) g ++ repeat (VBool true) g) vc)
    as (vc' & Hset & Hidx & Hget & Hcols).
  { rewrite length_app, !repeat_length, Hvc. lia. }
  exists vc'. rewrite Hset. split; [reflexivity|].
  split; [rewrite Hidx; reflexivity|].
  split; [unfold df_len; rewrite Hidx; exact Hvc|].
  split; [exact Hget|].
  intros name values Hne Hin. apply (Hcols (name, values ++ values)); [|exact Hne].
  unfold vc. cbn [df_columns]. apply in_map_iff. exists (name, values). auto.
Qed.

(** X22: what [matrix_to_adata] builds.  For a matrix with one row per
    observation of [adata] and twice as many columns as [adata] has
    variables, the call returns an annotated matrix with that matrix, the
    observations, [uns] and [obsm] of [adata], and a variable table of
    twice the length: the original names followed by the same names with
    ["_nbr"] appended, every annotation column (other than one called
    [is_nbr]) holding its values twice, and the column [is_nbr], new or
    replaced, false for the first half and true for the second; the number
    of neighbour columns it prints is the number of variables. *)
Theorem matrix_to_adata_builds (matrix : pyobj float) (adata : AnnData) :
  adata_wf adata ->
  obj_shape matrix = (df_len (adata_obs adata), (2 * df_len (adata_var adata))%nat) ->
  exists r flags,
    matrix_to_adata matrix adata = Ok r /\
    adata_X r = matrix /\ adata_obs r = adata_obs adata /\
    adata_uns r = adata_uns adata /\ adata_obsm r = adata_obsm adata /\
    df_index (adata_var r)
    = df_index (adata_var adata)
      ++ map (fun s => String.append s "_nbr") (df_index (adata_var adata)) /\
    df_getitem "is_nbr" (adata_var r) = Some flags /\
    flags = repeat (VBool false) (df_len (adata_var adata))
            ++ repeat (VBool true) (df_len (adata_var adata)) /\
    count_true_values flags = df_len (adata_var adata) /\
    forall name values,
      name <> "is_nbr"%string -> In (name, values) (df_columns (adata_var adata)) ->
      In (name, values ++ values) (df_columns (adata_var r)).
Proof.
  intros (_ & _ & _ & Hobsm) Hshape.
  destruct (matrix_to_adata_run matrix adata) as (vc & Hrun & Hidx & Hlen & Hget & Hcols).
  rewrite Hrun. unfold anndata_init. rewrite Hshape, Hlen. cbn [fst snd].
  rewrite !Nat.eqb_refl.
  replace (forallb _ (adata_obsm adata)) with true.
  - eexists _, _. split; [reflexivity|]. cbn [adata_X adata_obs adata_var adata_uns adata_obsm].
    repeat (split; [reflexivity|]). split; [exact Hidx|]. split; [exact Hget|].
    split; [reflexivity|]. split; [apply count_true_values_flags|exact Hcols].
  - symmetry. apply forallb_forall. intros e He. rewrite List.Forall_forall in Hobsm.
    rewrite (Hobsm e He). apply Nat.eqb_refl.
Qed.

Lemma small_adata_wf : adata_wf small_adata.
Proof.
  split; [reflexivity|]. split; [constructor|]. split; [repeat constructor|constructor].
Qed.

Lemma matrix_to_adata_builds_witness :
  exists r,
    matrix_to_adata (ONdArray two_by_four) small_adata = Ok r /\
    df_index (adata_var r) = ["g1"; "g2"; "g1_nbr"; "g2_nbr"]%string /\
    df_getitem "is_nbr" (adata_var r)
    = Some [VBool false; VBool false; VBool true; VBool true].
Proof.
  destruct (matrix_to_adata_builds (ONdArray two_by_four) small_adata small_adata_wf eq_refl)
    as (r & flags & Hrun & _ & _ & _ & _ & Hidx & Hget & -> & _).
  exists r. split; [exact Hrun|]. split; [exact Hidx|exact Hget].
Defined.

(** X23: [matrix_to_adata] checks nothing itself; the shape of the matrix
    is checked by the constructor of the annotated matrix, at the end.
    For a well-formed [adata] the call returns exactly when the matrix has
    one row per observation and two columns per variable, and otherwise
    fails with [ValueError]. *)
Theorem matrix_to_adata_shape (matrix : pyobj float) (adata : AnnData) :
  adata_wf adata ->
  match matrix_to_adata matrix adata with
  | Ok _ =>
      obj_shape matrix = (df_len (adata_obs adata), (2 * df_len (adata_var adata))%nat)
  | Err e =>
      e = ValueError /\
      obj_shape matrix <> (df_len (adata_obs adata), (2 * df_len (adata_var adata))%nat)
  end.
Proof.
  intros (_ & _ & _ & Hobsm).
  destruct (matrix_to_adata_run matrix adata) as (vc & Hrun & _ & Hlen & _).
  rewrite Hrun. unfold anndata_init. rewrite Hlen.
  replace (forallb _ (adata_obsm adata)) with true.
  - destruct (obj_shape matrix) as [n c]. cbn [fst snd]. rewrite andb_true_r.
    destruct (Nat.eqb_spec n (df_len (adata_obs adata))) as [->|Hn];
      destruct (Nat.eqb_spec c (2 * df_len (adata_var adata))) as [->|Hc]; cbn [andb];
      try reflexivity; (split; [reflexivity|]); intros E; injection E; intros; contradiction.
  - symmetry. apply forallb_forall. intros e He. rewrite List.Forall_forall in Hobsm.
    rewrite (Hobsm e He). apply Nat.eqb_refl.
Qed.

Lemma matrix_to_adata_shape_witness :
  matrix_to_adata (adata_X small_adata) small_adata = Err ValueError.
Proof.
  pose proof (matrix_to_adata_shape (adata_X small_adata) small_adata small_adata_wf) as H.
  destruct (matrix_to_adata (adata_X small_adata) small_adata) as [r|e].
  - discriminate H.
  - destruct H as [-> _]. reflexivity.
Defined.

Lemma NoDup_app_disjoint {B} (l l' : list B) :
  List.NoDup (l ++ l') -> forall a, In a l -> ~ In a l'.
Proof.
  induction l as [|x l IH]; simpl; intros Hnd a Ha; [contradiction|].
  inversion Hnd as [|? ? Hx Hl]; subst. destruct Ha as [->|Ha].
  - intros Hin. apply Hx. apply in_or_app. right. exact Hin.
  - apply IH; assumption.
Qed.

Lemma NoDup_app_intro {B} (l l' : list B) :
  List.NoDup l -> List.NoDup l' -> (forall a, In a l -> ~ In a l') -> List.NoDup (l ++ l').
Proof.
  induction l as [|x l IH]; simpl; intros Hl Hl' Hd; [exact Hl'|].
  inversion Hl as [|? ? Hx Hl0]; subst. constructor.
  - intros Hin. apply in_app_or in Hin as [Hin|Hin]; [exact (Hx Hin)|].
    exact (Hd x (or_introl eq_refl) Hin).
  - apply IH; [exact Hl0|exact Hl'|]. intros a Ha. apply Hd. right. exact Ha.
Qed.

Lemma NoDup_map_suffix (suffix : string) (l : list string) :
  List.NoDup l -> List.NoDup (map (fun s => String.append s suffix) l).
Proof.
  induction l as [|x l IH]; simpl; intros Hl; [constructor|].
  inversion Hl as [|? ? Hx Hl0]; subst. constructor; [|exact (IH Hl0)].
  intros Hin. apply in_map_iff in Hin as (y & Hy & Hin).
  apply string_append_inj_l in Hy. subst y. exact (Hx Hin).
Qed.

(** X24: the variable names of the result.  Whenever [matrix_to_adata]
    returns, the names of its variable table are pairwise distinct exactly
    when the names of [adata] are pairwise distinct and none of them is
    another one (or itself) followed by ["_nbr"]: a variable [g] beside a
    variable [g_nbr] gives the name [g_nbr] twice. *)
Theorem matrix_to_adata_unique_names (matrix : pyobj float) (adata r : AnnData) :
  matrix_to_adata matrix adata = Ok r ->
  List.NoDup (df_index (adata_var r)) <->
  List.NoDup (df_index (adata_var adata)) /\
  forall s, In s (df_index (adata_var adata)) ->
            ~ In (String.append s "_nbr") (df_index (adata_var adata)).
Proof.
  intros Hr.
  destruct (matrix_to_adata_run matrix adata) as (vc & Hrun & Hidx & _).
  rewrite Hrun in Hr. unfold anndata_init in Hr.
  destruct (_ && _) in Hr; [|discriminate]. injection Hr as <-.
  cbn [adata_var]. rewrite Hidx. split.
  - intros Hnd. split; [exact (NoDup_app_remove_r _ _ Hnd)|].
    intros s Hs Hin. apply (NoDup_app_disjoint _ _ Hnd _ Hin).
    apply in_map_iff. exists s. auto.
  - intros [Hnd Hfree]. apply NoDup_app_intro; [exact Hnd|apply NoDup_map_suffix; exact Hnd|].
    intros a Ha Hin. apply in_map_iff in Hin as (s & <- & Hs). exact (Hfree s Hs Ha).
Qed.

Lemma matrix_to_adata_unique_names_witness :
  exists r,
    matrix_to_adata (ONdArray two_by_four) clashing_adata = Ok r /\
    df_index (adata_var r) = ["g"; "g_nbr"; "g_nbr"; "g_nbr_nbr"]%string /\
    ~ List.NoDup (df_index (adata_var r)).
Proof.
  assert (C : exists r, matrix_to_adata (ONdArray two_by_four) clashing_adata = Ok r /\
                        df_index (adata_var r) = ["g"; "g_nbr"; "g_nbr"; "g_nbr_nbr"]%string)
    by (eexists; split; reflexivity).
  destruct C as (r & Hr & Hidx). exists r. split; [exact Hr|]. split; [exact Hidx|].
  intros Hnd.
  apply (matrix_to_adata_unique_names (ONdArray two_by_four) clashing_adata r Hr) in Hnd
    as [_ Hfree].
  apply (Hfree "g"%string); simpl; auto.
Defined.

